(** * Dubbing Studio: audio compositing and playback synchronisation

    A shallow embedding of the audio helpers of [src/App.tsx]
    ([decode], [decodeAudioData], [bufferToWav], [stitchAudio],
    [handlePreviewSegment], [handleGenerateDub]) and of the
    [DubbedVideoPlayer] component ([syncLoop], [handlePlay],
    [handlePauseOrEnd], [handleSeeked], the effect cleanup).

    Numbers.  A JavaScript number is modelled by [JS.number]: [NaN], the
    two infinities, or a finite value carried as a rational (the sign of
    zero is not modelled).  The samples of a [Float32Array] are dyadic
    rationals with a 24-bit significand; on them the operations of the
    sample encoder ([Math.min], [Math.max], [0.5 + s < 0], [s * 32768],
    [s * 32767], [| 0]) and of the sample decoder ([n / 32768.0]) are
    exact in double precision (the products need at most 39 significant
    bits, and the sign of a rounded sum is the sign of the exact sum), so
    [JS.add], [JS.mul] and [JS.div], which do not round, agree with the
    code bit for bit there.  Times in seconds (segment start offsets,
    durations, transport positions) are binary64 values, and the
    arithmetic on them rounds: [JS.fadd], [JS.fsub], [JS.fmul] and
    [JS.fdiv] round the exact result to the nearest binary64 value, ties
    to even ([JS.round64]).

    Objects used as maps.  [speakerVoiceMap] and [LANGUAGES] are plain
    objects indexed by arbitrary strings: a key that the object does not
    hold itself is looked up on [Object.prototype] ([JS.get]). *)

From Stdlib Require Import ZArith QArith Qround Qabs Qpower Qreduction.
From Stdlib Require Import Lia Lqa List Bool String Ascii.
From Stdlib Require Import Sorted.
From stdpp Require Import base option list gmap.

Local Open Scope Z_scope.

(* ================================================================== *)
(** * JavaScript values                                                *)
(* ================================================================== *)

Module JS.

(** ** Numbers *)

Inductive number : Type :=
| NaN
| Infinity (negative : bool)
| Fin (q : Q).

Definition Qltb (p q : Q) : bool :=
  Qnum p * Z.pos (Qden q) <? Qnum q * Z.pos (Qden p).

(** [a < b]; any comparison with [NaN] is false. *)
Definition ltb (a b : number) : bool :=
  match a, b with
  | NaN, _ | _, NaN => false
  | Infinity true, Infinity true => false
  | Infinity true, _ => true
  | _, Infinity true => false
  | Infinity false, _ => false
  | Fin _, Infinity false => true
  | Fin p, Fin q => Qltb p q
  end.

Definition sign_of (q : Q) : comparison := (Qnum q ?= 0).

Definition add (a b : number) : number :=
  match a, b with
  | NaN, _ | _, NaN => NaN
  | Infinity s, Infinity t => if Bool.eqb s t then Infinity s else NaN
  | Infinity s, Fin _ | Fin _, Infinity s => Infinity s
  | Fin p, Fin q => Fin (p + q)
  end.

Definition mul_inf (s : bool) (q : Q) : number :=
  match sign_of q with
  | Eq => NaN
  | Gt => Infinity s
  | Lt => Infinity (negb s)
  end.

Definition mul (a b : number) : number :=
  match a, b with
  | NaN, _ | _, NaN => NaN
  | Infinity s, Infinity t => Infinity (xorb s t)
  | Infinity s, Fin q | Fin q, Infinity s => mul_inf s q
  | Fin p, Fin q => Fin (p * q)
  end.

(** [a / b]: division by zero gives an infinity, [0 / 0] gives [NaN]. *)
Definition div (a b : number) : number :=
  match a, b with
  | NaN, _ | _, NaN => NaN
  | Infinity _, Infinity _ => NaN
  | Infinity s, Fin q => Infinity (xorb s (Qnum q <? 0))
  | Fin _, Infinity _ => Fin 0
  | Fin p, Fin q =>
      match sign_of q with
      | Eq => match sign_of p with
              | Eq => NaN
              | Gt => Infinity false
              | Lt => Infinity true
              end
      | _ => Fin (p / q)
      end
  end.

(** [Math.min] and [Math.max]: [NaN] if either argument is. *)
Definition Math_min (a b : number) : number :=
  match a, b with
  | NaN, _ | _, NaN => NaN
  | _, _ => if ltb b a then b else a
  end.

Definition Math_max (a b : number) : number :=
  match a, b with
  | NaN, _ | _, NaN => NaN
  | _, _ => if ltb a b then b else a
  end.

(** Truncation toward zero of a finite value. *)
Definition truncate (q : Q) : Z := Z.quot (Qnum q) (Z.pos (Qden q)).

(** The two's-complement reading of the low [bits] bits of [z]. *)
Definition wrap (bits : Z) (z : Z) : Z :=
  let r := z mod 2 ^ bits in
  if r <? 2 ^ (bits - 1) then r else r - 2 ^ bits.

(** [ToInt32], the conversion behind [x | 0]. *)
Definition ToInt32 (x : number) : Z :=
  match x with
  | Fin q => wrap 32 (truncate q)
  | _ => 0
  end.

(** [x | 0]. *)
Definition bitor0 (x : number) : Z := ToInt32 x.

Definition of_Z (z : Z) : number := Fin (inject_Z z).

Definition neg (x : number) : number :=
  match x with
  | NaN => NaN
  | Infinity s => Infinity (negb s)
  | Fin q => Fin (- q)
  end.

(** [Math.abs] and [Math.ceil]. *)
Definition Math_abs (x : number) : number :=
  match x with
  | NaN => NaN
  | Infinity _ => Infinity false
  | Fin q => Fin (Qabs q)
  end.

Definition Math_ceil (x : number) : number :=
  match x with
  | Fin q => Fin (inject_Z (Qceiling q))
  | _ => x
  end.

(** ** Double precision *)

(** [floor (log2 a)] for a positive [a = n / d]: the difference of the
    bit lengths of [n] and [d], less one when [n / d] is below that
    power of two. *)
Definition exponent (a : Q) : Z :=
  let n := Qnum a in
  let d := Z.pos (Qden a) in
  if 2 ^ Z.log2 n * d <=? n * 2 ^ Z.log2 d
  then Z.log2 n - Z.log2 d
  else Z.log2 n - Z.log2 d - 1.

(** The integer nearest to [x], the even one of two that are equally
    near. *)
Definition nearestEven (x : Q) : Z :=
  let f := Qfloor x in
  match (x - inject_Z f ?= 1 # 2)%Q with
  | Lt => f
  | Gt => f + 1
  | Eq => if Z.even f then f else f + 1
  end.

(** The binary64 value nearest to a positive [a]: a multiple, by a
    significand of at most 53 bits, of the unit in the last place
    [2 ^ (e - 52)], where [e] is the exponent of [a] and at least that of
    the normal numbers, -1022 (below it the values are subnormal).
    [None] when the rounded value reaches [2 ^ 1024], which binary64
    cannot hold. *)
Definition roundMagnitude (a : Q) : option Q :=
  let e := Z.max (exponent a) (-1022) in
  let ulp := (2 ^ (e - 52))%Q in
  let r := (inject_Z (nearestEven (a / ulp)) * ulp)%Q in
  if Qle_bool (2 ^ 1024) r then None else Some (Qred r).

(** Rounding to nearest, ties to even, with overflow to an infinity;
    the result is carried in lowest terms. *)
Definition round64 (q : Q) : number :=
  match Qnum q ?= 0 with
  | Eq => Fin 0
  | Lt => match roundMagnitude (- q) with
          | Some r => Fin (- r)
          | None => Infinity true
          end
  | Gt => match roundMagnitude q with
          | Some r => Fin r
          | None => Infinity false
          end
  end.

Definition rounded (x : number) : number :=
  match x with
  | Fin q => round64 q
  | _ => x
  end.

(** [a + b], [a - b], [a * b] and [a / b] in double precision. *)
Definition fadd (a b : number) : number := rounded (add a b).

Definition fsub (a b : number) : number := rounded (add a (neg b)).

Definition fmul (a b : number) : number := rounded (mul a b).

Definition fdiv (a b : number) : number := rounded (div a b).

(** ** Strings: sequences of UTF-16 code units *)

Definition jsstring : Type := list N.

Definition lit (s : string) : jsstring :=
  List.map N_of_ascii (list_ascii_of_string s).

(** White space and line terminators, the code units that
    [String.prototype.trim] strips. *)
Definition isWhiteSpace (c : N) : bool :=
  match c with
  | 0x9 | 0xA | 0xB | 0xC | 0xD | 0x20 | 0xA0 | 0x1680
  | 0x2000 | 0x2001 | 0x2002 | 0x2003 | 0x2004 | 0x2005 | 0x2006
  | 0x2007 | 0x2008 | 0x2009 | 0x200A
  | 0x2028 | 0x2029 | 0x202F | 0x205F | 0x3000 | 0xFEFF => true
  | _ => false
  end%N.

Fixpoint trimStart (s : jsstring) : jsstring :=
  match s with
  | c :: s' => if isWhiteSpace c then trimStart s' else s
  | [] => []
  end.

Definition trim (s : jsstring) : jsstring :=
  rev (trimStart (rev (trimStart s))).

(** Truthiness of a string: non-empty. *)
Definition truthy (s : jsstring) : bool :=
  match s with [] => false | _ => true end.

(** ** Plain objects used as maps from strings to strings *)

(** What [object[key]] evaluates to when it is not [undefined]: the
    string the object holds under [key], or, when the object holds
    nothing under [key] itself, the value that [Object.prototype] holds
    under it (a function, or for [__proto__] the prototype object);
    such a value is truthy. *)
Inductive property : Type :=
| Own (value : jsstring)
| Inherited (key : jsstring).

(** The property names of [Object.prototype]. *)
Definition ObjectPrototype : list jsstring :=
  List.map lit
    [ "constructor"; "__defineGetter__"; "__defineSetter__"; "hasOwnProperty";
      "__lookupGetter__"; "__lookupSetter__"; "isPrototypeOf";
      "propertyIsEnumerable"; "toString"; "valueOf"; "__proto__";
      "toLocaleString" ]%string.

Definition inherited (key : jsstring) : bool :=
  existsb (fun name => bool_decide (name = key)) ObjectPrototype.

(** [object[key]], given what the object holds itself under [key];
    [None] is [undefined]. *)
Definition get (own : option jsstring) (key : jsstring) : option property :=
  match own with
  | Some value => Some (Own value)
  | None => if inherited key then Some (Inherited key) else None
  end.

(** [object[key] = value] on an object created by [{}]: the assignment
    to [__proto__] runs the setter of [Object.prototype], which ignores
    a string, and creates no property. *)
Definition assignable (key : jsstring) : bool :=
  negb (bool_decide (key = lit "__proto__")).

(** ** Exceptions and results *)

Inductive errname : Type :=
| RangeError | TypeError | NotSupportedError | InvalidCharacterError.

(** A thrown value: an [Error] with its string message, an exception
    raised by the language or the host (its message is the host's), or
    any other value, without a string message: whether it is truthy,
    and the text that [JSON.stringify (err, null, 2)] shows in a
    template literal. *)
Inductive exn : Type :=
| Error (message : jsstring)
| HostError (name : errname)
| Thrown (truthy_value : bool) (shown : jsstring).

Inductive result (A : Type) : Type :=
| Ok (a : A)
| Throw (e : exn).
Arguments Ok {A} a.
Arguments Throw {A} e.

Definition bind {A B} (r : result A) (k : A -> result B) : result B :=
  match r with
  | Ok a => k a
  | Throw e => Throw e
  end.

(** The first rejection among already settled results, in order. *)
Fixpoint sequence {A} (rs : list (result A)) : result (list A) :=
  match rs with
  | [] => Ok []
  | r :: rs' => bind r (fun a => bind (sequence rs') (fun l => Ok (a :: l)))
  end.

End JS.

Notation "'let!' x ':=' r 'in' k" := (JS.bind r (fun x => k))
  (at level 10, x name, r at level 100, k at level 200).

(* ================================================================== *)
(** * The host's audio interfaces (Web Audio API)                      *)
(* ================================================================== *)

Module WebAudio.
Import JS.

(** An [AudioBuffer]: its sample rate, its length in sample-frames and
    one [Float32Array] per channel. *)
Record AudioBuffer : Type := {
  sampleRate : Q;
  length : nat;
  channels : list (list number)
}.

Definition numberOfChannels (b : AudioBuffer) : nat := List.length (channels b).

(** [buffer.duration], in seconds: the quotient of the length by the
    sample rate, in double precision. *)
Definition duration (b : AudioBuffer) : number :=
  fdiv (of_Z (Z.of_nat (length b))) (Fin (sampleRate b)).

(** Conversion of a number to an IDL [unsigned long] argument. *)
Definition ToUint32 (x : number) : Z :=
  match x with
  | Fin q => truncate q mod 2 ^ 32
  | _ => 0
  end.

Definition maxChannels : nat := 32.

(** [ctx.createBuffer (numberOfChannels, length, sampleRate)].  The
    interface requires at least one channel and a length of at least
    one frame, and raises [NotSupportedError] otherwise; hosts accept at
    most 32 channels.  The host's range of sample rates is not
    modelled: every caller passes 24000. *)
Definition createBuffer (numberOfChannels : nat) (len : number) (rate : Q)
  : result AudioBuffer :=
  let frames := Z.to_nat (ToUint32 len) in
  if (numberOfChannels =? 0)%nat || (maxChannels <? numberOfChannels)%nat
     || (frames =? 0)%nat
  then Throw (HostError NotSupportedError)
  else Ok {| sampleRate := rate;
             length := frames;
             channels := repeat (repeat (Fin 0) frames) numberOfChannels |}.

(** [buffer.getChannelData (channel)[i] = v]: a write past the end of a
    typed array is ignored. *)
Definition setSample (b : AudioBuffer) (channel i : nat) (v : number) : AudioBuffer :=
  {| sampleRate := sampleRate b;
     length := length b;
     channels := alter (fun data => <[i := v]> data) channel (channels b) |}.

(** [channels[channel][offset]]: reading past the end of a typed array
    gives [undefined], which arithmetic turns into [NaN]. *)
Definition getSample (b : AudioBuffer) (channel offset : nat) : number :=
  match channels b !! channel with
  | Some data => default NaN (data !! offset)
  | None => NaN
  end.

(** An [OfflineAudioContext] with the sources started on it. *)
Record OfflineAudioContext : Type := {
  ctx_numberOfChannels : nat;
  ctx_length : nat;
  ctx_sampleRate : Q;
  ctx_sources : list (AudioBuffer * Q)
}.

(** [new OfflineAudioContext ({numberOfChannels, length, sampleRate})]
    takes the arguments of [createBuffer] and rejects a zero length the
    same way. *)
Definition newOfflineAudioContext (numberOfChannels : nat) (len : number) (rate : Q)
  : result OfflineAudioContext :=
  let frames := Z.to_nat (ToUint32 len) in
  if (numberOfChannels =? 0)%nat || (maxChannels <? numberOfChannels)%nat
     || (frames =? 0)%nat
  then Throw (HostError NotSupportedError)
  else Ok {| ctx_numberOfChannels := numberOfChannels;
             ctx_length := frames;
             ctx_sampleRate := rate;
             ctx_sources := [] |}.

(** [createBufferSource], [source.buffer = buffer], [source.connect
    (ctx.destination)], [source.start (when)]: a negative [when] raises
    [RangeError]. *)
Definition startSource (ctx : OfflineAudioContext) (buffer : AudioBuffer) (when : Q)
  : result OfflineAudioContext :=
  if Qltb when 0 then Throw (HostError RangeError)
  else Ok {| ctx_numberOfChannels := ctx_numberOfChannels ctx;
             ctx_length := ctx_length ctx;
             ctx_sampleRate := ctx_sampleRate ctx;
             ctx_sources := ctx_sources ctx ++ [(buffer, when)] |}.

(** A buffer of [frames] frames on [c] channels. *)
Definition shaped (frames c : nat) (b : AudioBuffer) : Prop :=
  length b = frames
  /\ numberOfChannels b = c
  /\ forall k data, channels b !! k = Some data -> List.length data = frames.

End WebAudio.

(* ================================================================== *)
(** * src/App.tsx: the audio helpers                                   *)
(* ================================================================== *)

Module App.
Import JS WebAudio.

(** A [Blob] of bytes, and a [Uint8Array]. *)
Definition Blob : Type := list Z.

(** ** [decodeAudioData] *)

(** The elements of [new Int16Array (data.buffer)], on a little-endian
    host. *)
Fixpoint int16s (bytes : list Z) : list Z :=
  match bytes with
  | lo :: hi :: rest => wrap 16 (lo + 256 * hi) :: int16s rest
  | _ => []
  end.

(** [new Int16Array (data.buffer)] raises [RangeError] when the byte
    length of the buffer is not a multiple of 2. *)
Definition Int16Array (data : list Z) : result (list Z) :=
  if Nat.even (List.length data) then Ok (int16s data)
  else Throw (HostError RangeError).

(** [dataInt16[k] / 32768.0]; [dataInt16[k]] is [undefined] past the
    end, and the quotient is then [NaN]. *)
Definition decodeSample (dataInt16 : list Z) (k : nat) : number :=
  match dataInt16 !! k with
  | Some s => div (of_Z s) (Fin 32768)
  | None => NaN
  end.

(** The values of [i] in [for (let i = 0; i < frameCount; i++)]. *)
Definition indicesBelow (frameCount : number) : list nat :=
  match frameCount with
  | Fin q => seq 0 (Z.to_nat (Qceiling q))
  | _ => []
  end.

Definition decodeAudioData (data : list Z) (sampleRate : Q) (numChannels : nat)
  : result AudioBuffer :=
  let! dataInt16 := Int16Array data in
  let frameCount :=
    div (of_Z (Z.of_nat (List.length dataInt16))) (of_Z (Z.of_nat numChannels)) in
  let! buffer := createBuffer numChannels frameCount sampleRate in
  Ok (fold_left
        (fun buffer channel =>
           fold_left
             (fun buffer i =>
                setSample buffer channel i
                  (decodeSample dataInt16 (i * numChannels + channel)))
             (indicesBelow frameCount) buffer)
        (seq 0 numChannels) buffer).

(** ** [bufferToWav] *)

(** [view.setUint16 (pos, data, true)], [view.setUint32 (pos, data,
    true)] and [view.setInt16 (pos, sample, true)]: the little-endian
    bytes written at [pos], which then advances past them. *)
Definition setUint16 (data : Z) : list Z :=
  [data mod 256; (data / 2 ^ 8) mod 256].

Definition setUint32 (data : Z) : list Z :=
  [data mod 256; (data / 2 ^ 8) mod 256; (data / 2 ^ 16) mod 256;
   (data / 2 ^ 24) mod 256].

Definition setInt16 (sample : Z) : list Z := setUint16 sample.

(** Line 80: [Math.max (-1, Math.min (1, channels[i][offset]))]. *)
Definition clamp (x : number) : number :=
  Math_max (Fin (-1)) (Math_min (Fin 1) x).

(** Line 81:
    [(0.5 + sample < 0 ? sample * 32768 : sample * 32767) | 0]. *)
Definition scale (sample : number) : Z :=
  bitor0 (if ltb (add (Fin (1 # 2)) sample) (Fin 0)
          then mul sample (Fin 32768)
          else mul sample (Fin 32767)).

Definition encodeSample (x : number) : Z := scale (clamp x).

(** The interleaved 16-bit payload.  The loop [while (pos < length)]
    runs once per frame: [pos] is 44 after the header, each pass
    advances it by [2 * numOfChan], and [length] is
    [44 + buffer.length * numOfChan * 2]. *)
Definition payload (buffer : AudioBuffer) : list Z :=
  flat_map
    (fun offset =>
       flat_map (fun i => setInt16 (encodeSample (getSample buffer i offset)))
                (seq 0 (numberOfChannels buffer)))
    (seq 0 (WebAudio.length buffer)).

Definition bufferToWav (buffer : AudioBuffer) : Blob :=
  let numOfChan := Z.of_nat (numberOfChannels buffer) in
  let length := Z.of_nat (WebAudio.length buffer) * numOfChan * 2 + 44 in
  let rate := sampleRate buffer in
  setUint32 0x46464952
  ++ setUint32 (length - 8)
  ++ setUint32 0x45564157
  ++ setUint32 0x20746d66
  ++ setUint32 16
  ++ setUint16 1
  ++ setUint16 numOfChan
  ++ setUint32 (ToUint32 (Fin rate))
  ++ setUint32 (ToUint32 (Fin (rate * 2 * inject_Z numOfChan)))
  ++ setUint16 (numOfChan * 2)
  ++ setUint16 16
  ++ setUint32 0x61746164
  ++ setUint32 (length - 40 - 4)
  ++ payload buffer.

(** The scaling as section 4.3 of the specification words it, for
    comparison with [scale]: negative values by 32768, non-negative
    values by 32767, truncated toward zero. *)
Definition scale_by_sign (sample : number) : Z :=
  bitor0 (if ltb sample (Fin 0)
          then mul sample (Fin 32768)
          else mul sample (Fin 32767)).

(** The inverse of that scaling, on a 16-bit payload sample. *)
Definition unscale_by_sign (n : Z) : Q :=
  if n <? 0 then inject_Z n / 32768 else inject_Z n / 32767.

(** ** Application state *)

(** A [TimedChunk] of [src/types.ts]; the optional [gender] label is
    read by no handler and is left out. *)
Record TimedChunk : Type := {
  start : Q;
  end_ : Q;
  text : jsstring;
  speaker : jsstring
}.

(** The state variables of [App] that the two synthesis handlers read
    or write.  [customDialog], [speakerVoiceMap] and [mutedSegments]
    are objects used as maps; each field holds the properties that the
    object has of its own.  The keys of [customDialog] and
    [mutedSegments] are array indices, which no object inherits. *)
Record State : Type := {
  timedScript : list TimedChunk;
  customDialog : gmap nat jsstring;
  speakerVoiceMap : gmap jsstring jsstring;
  mutedSegments : gmap nat bool;
  isLoading : bool;
  isSegmentLoading : option nat;
  error : option jsstring;
  translationError : option jsstring;
  dubbedAudioUrl : option jsstring
}.

Definition setError (e : option jsstring) (s : State) : State :=
  {| timedScript := timedScript s; customDialog := customDialog s;
     speakerVoiceMap := speakerVoiceMap s; mutedSegments := mutedSegments s;
     isLoading := isLoading s; isSegmentLoading := isSegmentLoading s;
     error := e; translationError := translationError s;
     dubbedAudioUrl := dubbedAudioUrl s |}.

Definition setIsLoading (b : bool) (s : State) : State :=
  {| timedScript := timedScript s; customDialog := customDialog s;
     speakerVoiceMap := speakerVoiceMap s; mutedSegments := mutedSegments s;
     isLoading := b; isSegmentLoading := isSegmentLoading s;
     error := error s; translationError := translationError s;
     dubbedAudioUrl := dubbedAudioUrl s |}.

Definition setIsSegmentLoading (i : option nat) (s : State) : State :=
  {| timedScript := timedScript s; customDialog := customDialog s;
     speakerVoiceMap := speakerVoiceMap s; mutedSegments := mutedSegments s;
     isLoading := isLoading s; isSegmentLoading := i;
     error := error s; translationError := translationError s;
     dubbedAudioUrl := dubbedAudioUrl s |}.

Definition setTranslationError (e : option jsstring) (s : State) : State :=
  {| timedScript := timedScript s; customDialog := customDialog s;
     speakerVoiceMap := speakerVoiceMap s; mutedSegments := mutedSegments s;
     isLoading := isLoading s; isSegmentLoading := isSegmentLoading s;
     error := error s; translationError := e;
     dubbedAudioUrl := dubbedAudioUrl s |}.

Definition setDubbedAudioUrl (u : option jsstring) (s : State) : State :=
  {| timedScript := timedScript s; customDialog := customDialog s;
     speakerVoiceMap := speakerVoiceMap s; mutedSegments := mutedSegments s;
     isLoading := isLoading s; isSegmentLoading := isSegmentLoading s;
     error := error s; translationError := translationError s;
     dubbedAudioUrl := u |}.

(** [mutedSegments[index]], [undefined] being falsy. *)
Definition muted (s : State) (index : nat) : bool :=
  default false (mutedSegments s !! index).

(** [customDialog[index] || chunk.text]. *)
Definition textToGenerate (s : State) (index : nat) (chunk : TimedChunk) : jsstring :=
  match customDialog s !! index with
  | Some custom => if truthy custom then custom else text chunk
  | None => text chunk
  end.

(** [textToGenerate.trim () ? textToGenerate : "."]. *)
Definition finalText (textToGenerate : jsstring) : jsstring :=
  if truthy (trim textToGenerate) then textToGenerate else lit ".".

(** [speakerVoiceMap[speakerId]], with [None] when [!voiceId] holds:
    the value is [undefined] (no entry of its own and no inherited
    property of that name) or the empty string. *)
Definition voiceId (s : State) (speakerId : jsstring) : option property :=
  match get (speakerVoiceMap s !! speakerId) speakerId with
  | Some (Own v) => if truthy v then Some (Own v) else None
  | Some (Inherited key) => Some (Inherited key)
  | None => None
  end.

(** A call [generateSpeech (text, voice)]; the second argument is
    whatever [speakerVoiceMap[speakerId]] gave. *)
Record SpeechRequest : Type := { req_text : jsstring; req_voice : property }.

(** An element of the argument of [stitchAudio]. *)
Record Segment : Type := { audioB64 : jsstring; startTime : Q }.

Definition quote : jsstring := [34%N].

(** The template literal of line 308. *)
Definition noVoiceMessage (speakerId : jsstring) : jsstring :=
  lit "No voice selected for " ++ speakerId ++ lit ". Please select a voice.".

Section Host.

(** The host and the collaborators: [atob], the rendering of an
    offline context (the samples of each channel of the rendered
    buffer), the speech-synthesis service, [URL.createObjectURL]
    and the message text of the host's exceptions. *)
Variable atob : jsstring -> result jsstring.
Variable render : OfflineAudioContext -> nat -> list number.
Variable generateSpeech : jsstring -> property -> result (option jsstring).
Variable createObjectURL : Blob -> jsstring.
Variable hostMessage : errname -> jsstring.

(** [decode]: the code units of [atob (base64)] stored in a
    [Uint8Array]. *)
Definition decode (base64 : jsstring) : result (list Z) :=
  let! binaryString := atob base64 in
  Ok (List.map (fun c => Z.of_N c mod 256) binaryString).

(** [offlineCtx.startRendering ()]: a buffer of the length, rate and
    channel count of the context. *)
Definition startRendering (ctx : OfflineAudioContext) : AudioBuffer :=
  {| sampleRate := ctx_sampleRate ctx;
     length := ctx_length ctx;
     channels := List.map (render ctx) (seq 0 (ctx_numberOfChannels ctx)) |}.

(** [segment.startTime + audioBuffer.duration]. *)
Definition endTime (seg : AudioBuffer * Q) : number :=
  fadd (Fin (snd seg)) (duration (fst seg)).

(** The running maximum kept in [maxDuration]:
    [if (endTime > maxDuration) maxDuration = endTime]. *)
Definition maxEndTime (decodedSegments : list (AudioBuffer * Q)) : number :=
  fold_left
    (fun maxDuration seg =>
       if ltb maxDuration (endTime seg) then endTime seg else maxDuration)
    decodedSegments (Fin 0).

(** The argument of [Promise.all] in [stitchAudio].  Every callback of
    [segments.map] runs [decode] at once and [decodeAudioData] has no
    suspension point, so a failure of [decode] rejects [Promise.all]
    before a failure of [decodeAudioData], and each kind in the order of
    the segments. *)
Definition decodeSegments (segments : list Segment) : result (list (AudioBuffer * Q)) :=
  let! audioBytes := sequence (List.map (fun seg => decode (audioB64 seg)) segments) in
  let! buffers :=
    sequence (List.map (fun bytes => decodeAudioData bytes 24000 1) audioBytes) in
  Ok (combine buffers (List.map startTime segments)).

(** The rest of [stitchAudio] up to [finalBuffer]: the offline context
    of [Math.ceil (maxDuration * 24000)] frames, the sources started at
    their start times, and the rendering. *)
Definition renderSegments (decodedSegments : list (AudioBuffer * Q)) : result AudioBuffer :=
  let maxDuration := maxEndTime decodedSegments in
  let! offlineCtx :=
    newOfflineAudioContext 1 (Math_ceil (fmul maxDuration (Fin 24000))) 24000 in
  let! offlineCtx :=
    fold_left
      (fun ctx seg => let! c := ctx in startSource c (fst seg) (snd seg))
      decodedSegments (Ok offlineCtx) in
  Ok (startRendering offlineCtx).

Definition stitchAudio (segments : list Segment) : result Blob :=
  let! decodedSegments := decodeSegments segments in
  let! finalBuffer := renderSegments decodedSegments in
  Ok (bufferToWav finalBuffer).

(** ** [handleGenerateDub] *)

(** The callback of [segmentsToGenerate.map] up to its call of
    [generateSpeech]; this part runs without suspension. *)
Definition dubRequest (s : State) (index : nat) (chunk : TimedChunk)
  : result SpeechRequest :=
  let textToGenerate := textToGenerate s index chunk in
  let speakerId := speaker chunk in
  match voiceId s speakerId with
  | None =>
      Throw (Error (noVoiceMessage speakerId))
  | Some voiceId =>
      Ok {| req_text := finalText textToGenerate; req_voice := voiceId |}
  end.

(** The rest of the callback. *)
Definition synthesize (chunk : TimedChunk) (r : SpeechRequest) : result Segment :=
  let! base64Audio := generateSpeech (req_text r) (req_voice r) in
  match base64Audio with
  | Some audio =>
      if truthy audio then Ok {| audioB64 := audio; startTime := start chunk |}
      else Throw (Error (lit "Failed to generate audio for segment: "
                         ++ quote ++ req_text r ++ quote))
  | None =>
      Throw (Error (lit "Failed to generate audio for segment: "
                    ++ quote ++ req_text r ++ quote))
  end.

(** [timedScript.map ((chunk, index) => ({chunk, index})).filter
    (({index}) => !mutedSegments[index])]. *)
Definition segmentsToGenerate (s : State) : list (nat * TimedChunk) :=
  List.filter (fun ic => negb (muted s (fst ic)))
              (imap (fun index chunk => (index, chunk)) (timedScript s)).

(** The [try] block.  A callback that throws before its first
    [await] returns an already rejected promise, which settles
    [Promise.all] ahead of any rejection coming from
    [generateSpeech]; when several synthesis calls fail, the one
    reported is here the first in script order. *)
Definition generateDub (s : State) : result jsstring :=
  let! requests :=
    sequence (List.map (fun ic => dubRequest s (fst ic) (snd ic))
                       (segmentsToGenerate s)) in
  let! generatedSegments :=
    sequence (List.map (fun icr => synthesize (snd (fst icr)) (snd icr))
                       (combine (segmentsToGenerate s) requests)) in
  let! wavBlob := stitchAudio generatedSegments in
  Ok (createObjectURL wavBlob).

(** The [catch] block of [handleGenerateDub]. *)
Definition dubErrorMessage (err : exn) : jsstring :=
  match err with
  | Error message => message
  | HostError name => hostMessage name
  | Thrown true shown => lit "An unexpected error occurred: " ++ shown
  | Thrown false _ => lit "An unknown error occurred during dub generation."
  end.

Definition handleGenerateDub (s : State) : State :=
  if (List.length (timedScript s) =? 0)%nat
  then setError (Some (lit "Please provide a script to generate the dubbing.")) s
  else
    let s := setDubbedAudioUrl None
               (setTranslationError None (setError None (setIsLoading true s))) in
    match generateDub s with
    | Ok wavUrl => setIsLoading false (setDubbedAudioUrl (Some wavUrl) s)
    | Throw err => setIsLoading false (setError (Some (dubErrorMessage err)) s)
    end.

(** ** [handlePreviewSegment] *)

(** What the handler does besides updating the state (stopping a
    preview that is still playing is left out). *)
Inductive PreviewEffect : Type :=
| Alert (message : jsstring)
| Play (wavUrl : jsstring)
| NoEffect.

(** The [try] block up to the call of [generateSpeech];
    [timedScript[index]] is [undefined] past the end, and reading a
    property of it raises [TypeError].  The left case is the text of
    the alert that precedes the early return. *)
Definition previewRequest (s : State) (index : nat)
  : result (jsstring + SpeechRequest) :=
  match timedScript s !! index with
  | None => Throw (HostError TypeError)
  | Some chunk =>
      let textToGenerate := textToGenerate s index chunk in
      let speakerId := speaker chunk in
      match voiceId s speakerId with
      | None =>
          Ok (inl (lit "Please assign a voice to " ++ speakerId ++ lit " first."))
      | Some voiceId =>
          Ok (inr {| req_text := finalText textToGenerate; req_voice := voiceId |})
      end
  end.

Definition previewAudio (r : SpeechRequest) : result jsstring :=
  let! base64Audio := generateSpeech (req_text r) (req_voice r) in
  match base64Audio with
  | Some audio =>
      if truthy audio then
        let! audioBytes := decode audio in
        let! audioBuffer := decodeAudioData audioBytes 24000 1 in
        Ok (createObjectURL (bufferToWav audioBuffer))
      else Throw (Error (lit "Failed to generate preview audio."))
  | None => Throw (Error (lit "Failed to generate preview audio."))
  end.

(** The [catch] block of [handlePreviewSegment]: [err?.message] is
    tested for truthiness. *)
Definition previewErrorMessage (err : exn) : jsstring :=
  match err with
  | Error message =>
      if truthy message then message
      else lit "An unexpected error occurred during preview: {}"
  | HostError name => hostMessage name
  | Thrown _ shown =>
      lit "An unexpected error occurred during preview: " ++ shown
  end.

Definition handlePreviewSegment (s : State) (index : nat) : State * PreviewEffect :=
  let s := setError None (setIsSegmentLoading (Some index) s) in
  let outcome :=
    let! request := previewRequest s index in
    match request with
    | inl message => Ok (Alert message)
    | inr r => let! wavUrl := previewAudio r in Ok (Play wavUrl)
    end in
  match outcome with
  | Ok effect => (setIsSegmentLoading None s, effect)
  | Throw err =>
      (setIsSegmentLoading None (setError (Some (previewErrorMessage err)) s),
       NoEffect)
  end.

End Host.

End App.

(* ================================================================== *)
(** * A reference host                                                 *)
(* ================================================================== *)

(** Concrete collaborators on which the handlers can be run: [atob] as
    the forgiving base64 decoding of the HTML Standard, an offline
    renderer that adds every source into the output at the frame
    nearest to its start time, a synthesis service that answers every
    request with the same two-sample clip, and fixed texts for object
    URLs and exception messages. *)
Module Host.
Import JS WebAudio.

Definition base64Value (c : N) : option N :=
  if ((65 <=? c) && (c <=? 90))%N then Some (c - 65)%N
  else if ((97 <=? c) && (c <=? 122))%N then Some (c - 71)%N
  else if ((48 <=? c) && (c <=? 57))%N then Some (c + 4)%N
  else if (c =? 43)%N then Some 62%N
  else if (c =? 47)%N then Some 63%N
  else None.

Fixpoint base64Bytes (values : list N) : list N :=
  match values with
  | a :: b :: c :: d :: rest =>
      let n := (a * 262144 + b * 4096 + c * 64 + d)%N in
      (n / 65536)%N :: (n / 256 mod 256)%N :: (n mod 256)%N :: base64Bytes rest
  | [a; b; c] =>
      let n := (a * 262144 + b * 4096 + c * 64)%N in
      [(n / 65536)%N; (n / 256 mod 256)%N]
  | [a; b] => [((a * 262144 + b * 4096) / 65536)%N]
  | _ => []
  end.

Definition isAsciiWhitespace (c : N) : bool :=
  match c with
  | 0x9 | 0xA | 0xC | 0xD | 0x20 => true
  | _ => false
  end%N.

Definition stripPadding (s : jsstring) : jsstring :=
  if (List.length s mod 4 =? 0)%nat then
    match rev s with
    | 61%N :: 61%N :: r => rev r
    | 61%N :: r => rev r
    | _ => s
    end
  else s.

Definition atob (data : jsstring) : result jsstring :=
  let s := stripPadding (List.filter (fun c => negb (isAsciiWhitespace c)) data) in
  if (List.length s mod 4 =? 1)%nat then Throw (HostError InvalidCharacterError)
  else match mapM base64Value s with
       | Some values => Ok (base64Bytes values)
       | None => Throw (HostError InvalidCharacterError)
       end.

Definition finite (x : number) : Q :=
  match x with Fin q => q | _ => 0%Q end.

Definition sourceSample (rate : Q) (channel frame : nat) (source : AudioBuffer * Q) : Q :=
  let offset := Z.to_nat (Qfloor (snd source * rate + (1 # 2))) in
  if (frame <? offset)%nat then 0%Q
  else finite (getSample (fst source) channel (frame - offset)).

Definition render (ctx : OfflineAudioContext) (channel : nat) : list number :=
  List.map
    (fun frame =>
       Fin (fold_left Qplus
              (List.map (sourceSample (ctx_sampleRate ctx) channel frame)
                        (ctx_sources ctx))
              0%Q))
    (seq 0 (ctx_length ctx)).

Definition generateSpeech (text : jsstring) (voice : property)
  : result (option jsstring) :=
  Ok (Some (lit "AQD/fw==")).

(** The decoded segments of the scenario of section 8 of the
    specification: silent clips of 1.0 s, 1.0 s and 0.5 s at 24 kHz,
    placed at 0.0 s, 0.5 s and 2.0 s. *)
Definition silence (frames : nat) : AudioBuffer :=
  {| sampleRate := 24000; length := frames; channels := [repeat (Fin 0) frames] |}.

Definition scenario : list (AudioBuffer * Q) :=
  [(silence (Z.to_nat 24000), 0%Q);
   (silence (Z.to_nat 24000), (1 # 2)%Q);
   (silence (Z.to_nat 12000), 2%Q)].

Definition createObjectURL (blob : list Z) : jsstring := lit "blob:dubbed-audio".

Definition hostMessage (name : errname) : jsstring :=
  match name with
  | RangeError => lit "RangeError"
  | TypeError => lit "TypeError"
  | NotSupportedError => lit "NotSupportedError"
  | InvalidCharacterError => lit "InvalidCharacterError"
  end.

End Host.

(* ================================================================== *)
(** * The [DubbedVideoPlayer] component                                *)
(* ================================================================== *)

Module DubbedVideoPlayer.
Import JS.

(** The attributes of a media element that the component uses. *)
Record MediaElement : Type := {
  currentTime : Q;
  paused : bool
}.

Definition setCurrentTime (t : Q) (m : MediaElement) : MediaElement :=
  {| currentTime := t; paused := paused m |}.

Definition setPaused (b : bool) (m : MediaElement) : MediaElement :=
  {| currentTime := currentTime m; paused := b |}.

(** The component: its three refs, whether its listeners are
    registered on the video element, and the host's animation-frame
    scheduler (the handles whose callback is still to run, and the
    next handle the host hands out; handles start at 1). *)
Record Player : Type := {
  videoRef : option MediaElement;
  audioRef : option MediaElement;
  animationFrameId : option nat;
  listening : bool;
  scheduled : list nat;
  nextHandle : nat
}.

Definition setAudio (a : MediaElement) (p : Player) : Player :=
  {| videoRef := videoRef p; audioRef := Some a;
     animationFrameId := animationFrameId p; listening := listening p;
     scheduled := scheduled p; nextHandle := nextHandle p |}.

(** [animationFrameId.current = requestAnimationFrame (syncLoop)]. *)
Definition requestAnimationFrame (p : Player) : Player :=
  {| videoRef := videoRef p; audioRef := audioRef p;
     animationFrameId := Some (nextHandle p); listening := listening p;
     scheduled := scheduled p ++ [nextHandle p];
     nextHandle := S (nextHandle p) |}.

(** [cancelAnimationFrame (handle)]. *)
Definition cancelAnimationFrame (handle : nat) (p : Player) : Player :=
  {| videoRef := videoRef p; audioRef := audioRef p;
     animationFrameId := animationFrameId p; listening := listening p;
     scheduled := List.filter (fun h => negb (h =? handle)%nat) (scheduled p);
     nextHandle := nextHandle p |}.

(** [if (animationFrameId.current) cancelAnimationFrame
    (animationFrameId.current)]: [null] and [0] are falsy. *)
Definition cancelPending (p : Player) : Player :=
  match animationFrameId p with
  | Some (S h) => cancelAnimationFrame (S h) p
  | _ => p
  end.

(** [Math.abs (videoTime - audioTime) > 0.25], the difference being
    rounded to double precision. *)
Definition drifted (videoTime audioTime : Q) : bool :=
  ltb (Fin (1 # 4)) (Math_abs (fsub (Fin videoTime) (Fin audioTime))).

Definition syncLoop (p : Player) : Player :=
  match videoRef p, audioRef p with
  | Some video, Some audio =>
      if negb (paused video) then
        let videoTime := currentTime video in
        let audioTime := currentTime audio in
        let p := if drifted videoTime audioTime
                 then setAudio (setCurrentTime videoTime audio) p
                 else p in
        requestAnimationFrame p
      else p
  | _, _ => p
  end.

Definition handlePlay (p : Player) : Player :=
  match videoRef p, audioRef p with
  | Some video, Some audio =>
      let p := setAudio (setPaused false (setCurrentTime (currentTime video) audio)) p in
      requestAnimationFrame (cancelPending p)
  | _, _ => p
  end.

Definition handlePauseOrEnd (p : Player) : Player :=
  match audioRef p with
  | Some audio => cancelPending (setAudio (setPaused true audio) p)
  | None => p
  end.

Definition handleSeeked (p : Player) : Player :=
  match videoRef p, audioRef p with
  | Some video, Some audio => setAudio (setCurrentTime (currentTime video) audio) p
  | _, _ => p
  end.

(** The cleanup returned by the effect: the four listeners are
    removed and the pending frame is cancelled; the elements leave the
    document and the refs are cleared. *)
Definition cleanup (p : Player) : Player :=
  let p := cancelPending p in
  {| videoRef := None; audioRef := None;
     animationFrameId := animationFrameId p; listening := false;
     scheduled := scheduled p; nextHandle := nextHandle p |}.

(** The component after mounting: the effect has registered the
    listeners and nothing is scheduled. *)
Definition mounted (video audio : MediaElement) : Player :=
  {| videoRef := Some video; audioRef := Some audio;
     animationFrameId := None; listening := true;
     scheduled := []; nextHandle := 1 |}.

(** What can happen to a mounted player: the four events of the video
    element, the host running a scheduled frame callback, the
    transports moving on their own (playback, user actions on the
    video controls), another client of the host's scheduler taking a
    handle, and the component being unmounted. *)
Inductive event : Type :=
| Play
| Pause
| Ended
| Seeked
| Frame (handle : nat)
| Transport (video audio : MediaElement)
| OtherRequest
| Unmount.

(** The host takes the handle off its list before it runs the
    callback. *)
Definition runFrame (handle : nat) (p : Player) : Player :=
  syncLoop (cancelAnimationFrame handle p).

Definition setTransports (video audio : MediaElement) (p : Player) : Player :=
  {| videoRef := Some video; audioRef := Some audio;
     animationFrameId := animationFrameId p; listening := listening p;
     scheduled := scheduled p; nextHandle := nextHandle p |}.

(** A handle handed out to some other callback of the page. *)
Definition skipHandle (p : Player) : Player :=
  {| videoRef := videoRef p; audioRef := audioRef p;
     animationFrameId := animationFrameId p; listening := listening p;
     scheduled := scheduled p; nextHandle := S (nextHandle p) |}.

Inductive step : Player -> event -> Player -> Prop :=
| step_play p : listening p = true -> step p Play (handlePlay p)
| step_pause p : listening p = true -> step p Pause (handlePauseOrEnd p)
| step_ended p : listening p = true -> step p Ended (handlePauseOrEnd p)
| step_seeked p : listening p = true -> step p Seeked (handleSeeked p)
| step_frame p h : In h (scheduled p) -> step p (Frame h) (runFrame h p)
| step_transport p video audio :
    listening p = true -> step p (Transport video audio) (setTransports video audio p)
| step_other p : step p OtherRequest (skipHandle p)
| step_unmount p : listening p = true -> step p Unmount (cleanup p).

Inductive reachable : Player -> Prop :=
| reachable_mounted video audio : reachable (mounted video audio)
| reachable_step p e p' : reachable p -> step p e p' -> reachable p'.

(** At most one scheduled callback, and it is the one whose handle
    [animationFrameId.current] holds. *)
Definition single_token (p : Player) : Prop :=
  scheduled p = [] \/ exists h, animationFrameId p = Some (S h) /\ scheduled p = [S h].

(** While the listeners are registered both elements are attached. *)
Definition attached (p : Player) : Prop :=
  listening p = true -> is_Some (videoRef p) /\ is_Some (audioRef p).

Definition invariant (p : Player) : Prop :=
  single_token p /\ (1 <= nextHandle p)%nat /\ attached p.

End DubbedVideoPlayer.

(* ================================================================== *)
(** * String methods used by the service and by the speaker list       *)
(* ================================================================== *)

Module Str.
Import JS.

(** [s.startsWith (prefix)] and [s.endsWith (suffix)]. *)
Fixpoint startsWith (prefix s : jsstring) : bool :=
  match prefix, s with
  | [], _ => true
  | p :: prefix', c :: s' => (p =? c)%N && startsWith prefix' s'
  | _ :: _, [] => false
  end.

Definition endsWith (suffix s : jsstring) : bool :=
  startsWith (rev suffix) (rev s).

(** [s.substring (start)] and [s.substring (0, end)] for arguments that
    are not negative; both clamp at the length of [s]. *)
Definition substringFrom (start : nat) (s : jsstring) : jsstring := skipn start s.

Definition substringTo (finish : nat) (s : jsstring) : jsstring := firstn finish s.

(** [s.split (sep)] for a separator of one code unit. *)
Fixpoint split (sep : N) (s : jsstring) : list jsstring :=
  match s with
  | [] => [[]]
  | c :: s' =>
      if (c =? sep)%N then [] :: split sep s'
      else match split sep s' with
           | piece :: rest => (c :: piece) :: rest
           | [] => [[c]]
           end
  end.

(** [a < b] on strings: the order of the code units, a proper prefix
    coming first.  It is the order of [Array.prototype.sort] without a
    comparison function. *)
Fixpoint ltb (a b : jsstring) : bool :=
  match a, b with
  | _, [] => false
  | [], _ :: _ => true
  | x :: a', y :: b' =>
      if (x <? y)%N then true
      else if (y <? x)%N then false
      else ltb a' b'
  end.

(** The elements of [new Set (l)] in insertion order: the first
    occurrence of each string. *)
Fixpoint unique (l : list jsstring) : list jsstring :=
  match l with
  | [] => []
  | x :: l' => x :: List.filter (fun y => negb (bool_decide (y = x))) (unique l')
  end.

(** [l.sort ()]: the ascending arrangement of [l]. *)
Fixpoint insertSorted (x : jsstring) (l : list jsstring) : list jsstring :=
  match l with
  | [] => [x]
  | y :: l' => if ltb y x then y :: insertSorted x l' else x :: y :: l'
  end.

Definition sort (l : list jsstring) : list jsstring :=
  fold_right insertSorted [] l.

End Str.

(* ================================================================== *)
(** * src/services/geminiService.ts                                    *)
(* ================================================================== *)

Module GeminiService.
Import JS.

(** A [File]: its MIME type and its bytes. *)
Record File : Type := {
  file_type : jsstring;
  file_bytes : list Z
}.

Definition comma : N := 44%N.

Definition fence : jsstring := lit "```json".

Definition fenceEnd : jsstring := lit "```".

(** The cleaning of [response.text] in [transcribeAndTranslate]: the
    text is trimmed; when it starts with the fence, the seven code units
    of the fence are dropped and then, if the rest ends with three
    backquotes, those are dropped too. *)
Definition jsonText (responseText : jsstring) : jsstring :=
  let jsonText := trim responseText in
  if Str.startsWith fence jsonText then
    let jsonText := Str.substringFrom 7 jsonText in
    if Str.endsWith fenceEnd jsonText
    then Str.substringTo (List.length jsonText - 3) jsonText
    else jsonText
  else jsonText.

Section Collaborators.

(** The outside world of the service: what [FileReader.readAsDataURL]
    leaves in [reader.result] (or the event passed to [onerror]), the
    inline data found in the answer of the speech model, the text of the
    answer of the transcription model (the request is made of the MIME
    type and data of the file and of a prompt that depends on the target
    language only), and [JSON.parse] read at the type [TimedChunk[]].
    The voice and the target language are the values the callers read
    from [speakerVoiceMap] and [LANGUAGES]. *)
Variable readAsDataURL : File -> result jsstring.
Variable speechData : jsstring -> property -> result (option jsstring).
Variable transcriptText : jsstring -> jsstring -> property -> result (option jsstring).
Variable JSON_parse : jsstring -> result (list App.TimedChunk).

(** [generateSpeech]: the inline data when it is truthy, [null]
    otherwise; an error of the call is thrown again. *)
Definition generateSpeech (text : jsstring) (voice : property)
  : result (option jsstring) :=
  match speechData text voice with
  | Ok (Some base64Audio) =>
      if truthy base64Audio then Ok (Some base64Audio) else Ok None
  | Ok None => Ok None
  | Throw error => Throw error
  end.

(** [fileToBase64]: [result.split (',')[1]], rejected when it is
    [undefined] or empty. *)
Definition fileToBase64 (file : File) : result jsstring :=
  let! dataUrl := readAsDataURL file in
  match Str.split comma dataUrl with
  | _ :: base64 :: _ =>
      if truthy base64 then Ok base64
      else Throw (Error (lit "Failed to read Base64 from file."))
  | _ => Throw (Error (lit "Failed to read Base64 from file."))
  end.

(** [transcribeAndTranslate]; [response.text.trim ()] raises
    [TypeError] when the answer has no text. *)
Definition transcribeAndTranslate (file : File) (targetLanguage : property)
  : result (list App.TimedChunk) :=
  let! base64Data := fileToBase64 file in
  let! responseText := transcriptText (file_type file) base64Data targetLanguage in
  match responseText with
  | None => Throw (HostError TypeError)
  | Some responseText => JSON_parse (jsonText responseText)
  end.

End Collaborators.

End GeminiService.

(* ================================================================== *)
(** * src/App.tsx: editing handlers and the translation effect         *)
(* ================================================================== *)

Module Studio.
Import JS App.

(** [VOICES] of [src/types.ts]. *)
Record Voice : Type := {
  id : jsstring;
  name : jsstring;
  description : jsstring;
  language : jsstring
}.

Definition VOICES : list Voice :=
  [ {| id := lit "Kore"; name := lit "Kore";
       description := lit "(Female, Clear & Professional)"; language := lit "English" |};
    {| id := lit "Puck"; name := lit "Puck";
       description := lit "(Male, Warm & Engaging)"; language := lit "English" |};
    {| id := lit "Charon"; name := lit "Charon";
       description := lit "(Female, Sophisticated & Calm)"; language := lit "English" |};
    {| id := lit "Fenrir"; name := lit "Fenrir";
       description := lit "(Male, Deep & Authoritative)"; language := lit "English" |};
    {| id := lit "Zephyr"; name := lit "Zephyr";
       description := lit "(Neutral, Friendly & Upbeat)"; language := lit "English" |} ].

(** [LANGUAGES], an object used as a map. *)
Definition LANGUAGES : list (jsstring * jsstring) :=
  [ (lit "zh", lit "Chinese (Mandarin)"); (lit "en", lit "English");
    (lit "fr", lit "French"); (lit "de", lit "German"); (lit "hi", lit "Hindi");
    (lit "it", lit "Italian"); (lit "ja", lit "Japanese");
    (lit "ms", lit "Bahasa Malaysia"); (lit "pt", lit "Portuguese");
    (lit "ru", lit "Russian"); (lit "es", lit "Spanish") ].

Definition setTimedScript (script : list TimedChunk) (s : State) : State :=
  {| timedScript := script; customDialog := customDialog s;
     speakerVoiceMap := speakerVoiceMap s; mutedSegments := mutedSegments s;
     isLoading := isLoading s; isSegmentLoading := isSegmentLoading s;
     error := error s; translationError := translationError s;
     dubbedAudioUrl := dubbedAudioUrl s |}.

Definition setCustomDialog (dialog : gmap nat jsstring) (s : State) : State :=
  {| timedScript := timedScript s; customDialog := dialog;
     speakerVoiceMap := speakerVoiceMap s; mutedSegments := mutedSegments s;
     isLoading := isLoading s; isSegmentLoading := isSegmentLoading s;
     error := error s; translationError := translationError s;
     dubbedAudioUrl := dubbedAudioUrl s |}.

Definition setSpeakerVoiceMap (voices : gmap jsstring jsstring) (s : State) : State :=
  {| timedScript := timedScript s; customDialog := customDialog s;
     speakerVoiceMap := voices; mutedSegments := mutedSegments s;
     isLoading := isLoading s; isSegmentLoading := isSegmentLoading s;
     error := error s; translationError := translationError s;
     dubbedAudioUrl := dubbedAudioUrl s |}.

Definition setMutedSegments (flags : gmap nat bool) (s : State) : State :=
  {| timedScript := timedScript s; customDialog := customDialog s;
     speakerVoiceMap := speakerVoiceMap s; mutedSegments := flags;
     isLoading := isLoading s; isSegmentLoading := isSegmentLoading s;
     error := error s; translationError := translationError s;
     dubbedAudioUrl := dubbedAudioUrl s |}.

(** [uniqueSpeakers]:
    [Array.from (new Set (timedScript.map (chunk => chunk.speaker))).sort ()]. *)
Definition speakersOf (script : list TimedChunk) : list jsstring :=
  Str.sort (Str.unique (List.map speaker script)).

Definition uniqueSpeakers (s : State) : list jsstring := speakersOf (timedScript s).

(** [handleDialogChange]: [{ ...prev, [index]: newText }]. *)
Definition handleDialogChange (index : nat) (newText : jsstring) (s : State) : State :=
  setCustomDialog (<[index := newText]> (customDialog s)) s.

(** [handleMuteToggle]: [{ ...prev, [index]: !prev[index] }]. *)
Definition handleMuteToggle (index : nat) (s : State) : State :=
  setMutedSegments (<[index := negb (muted s index)]> (mutedSegments s)) s.

(** [handleVoiceForSpeakerChange]: [{ ...prev, [speakerId]: voiceId }]. *)
Definition handleVoiceForSpeakerChange (speakerId voice : jsstring) (s : State) : State :=
  setSpeakerVoiceMap (<[speakerId := voice]> (speakerVoiceMap s)) s.

Definition setSpeaker (speakerId : jsstring) (chunk : TimedChunk) : TimedChunk :=
  {| start := start chunk; end_ := end_ chunk; text := text chunk;
     speaker := speakerId |}.

(** [handleSpeakerChange]: [newScript[index].speaker = newSpeakerId] on
    a copy of the array; past the end [newScript[index]] is [undefined]
    and the assignment raises [TypeError] before any state is set.  The
    chunk object is shared with the previous array; only the state
    after the handler is modelled. *)
Definition handleSpeakerChange (index : nat) (newSpeakerId : jsstring) (s : State)
  : result State :=
  match timedScript s !! index with
  | Some _ => Ok (setTimedScript (alter (setSpeaker newSpeakerId) index (timedScript s)) s)
  | None => Throw (HostError TypeError)
  end.

(** The two [reduce] calls of the translation effect: [acc[index] =
    chunk.text], and [acc[speakerId] = VOICES[index % VOICES.length].id]
    over the sorted speakers; the accumulator of the second starts as
    [{}], on which the assignment to [__proto__] creates nothing. *)
Definition initialDialog (script : list TimedChunk) : gmap nat jsstring :=
  fold_left (fun acc ic => <[fst ic := text (snd ic)]> acc)
            (imap (fun index chunk => (index, chunk)) script) ∅.

Definition voiceAt (index : nat) : jsstring :=
  match VOICES !! (index mod List.length VOICES)%nat with
  | Some voice => id voice
  | None => []
  end.

Definition initialVoiceMap (speakers : list jsstring) : gmap jsstring jsstring :=
  fold_left (fun acc entry =>
               if assignable (snd entry)
               then <[snd entry := voiceAt (fst entry)]> acc
               else acc)
            (imap (fun index speakerId => (index, speakerId)) speakers) ∅.

(** The state of [App] that the translation effect reads or writes. *)
Record Studio : Type := {
  synthesis : State;
  isTranslating : bool;
  sourceFile : option GeminiService.File;
  targetLanguage : jsstring
}.

(** [targetLanguage === 'ms' ? 'Malay' : LANGUAGES[targetLanguage] ||
    'the selected language']. *)
Definition langName (targetLanguage : jsstring) : property :=
  if bool_decide (targetLanguage = lit "ms") then Own (lit "Malay")
  else
    let own :=
      snd <$> List.find (fun entry => bool_decide (fst entry = targetLanguage))
                        LANGUAGES in
    match get own targetLanguage with
    | Some (Own name) =>
        if truthy name then Own name else Own (lit "the selected language")
    | Some (Inherited key) => Inherited key
    | None => Own (lit "the selected language")
    end.

Section Translation.

Variable transcribeAndTranslate :
  GeminiService.File -> property -> result (list TimedChunk).
Variable hostMessage : errname -> jsstring.

(** The [catch] block of [autoTranslate]. *)
Definition translationErrorMessage (err : exn) : jsstring :=
  match err with
  | Error message => message
  | HostError name => hostMessage name
  | Thrown true shown =>
      lit "An unexpected error occurred during translation: " ++ shown
  | Thrown false _ => lit "Failed to translate. Please try again."
  end.

(** [autoTranslate], the body of the effect that runs when the source
    file or the target language changes (one run, from its start to its
    [finally]). *)
Definition autoTranslate (st : Studio) : Studio :=
  match sourceFile st with
  | None => st
  | Some file =>
      let s := setMutedSegments ∅
                 (setSpeakerVoiceMap ∅
                    (setCustomDialog ∅
                       (setTimedScript []
                          (setError None (setTranslationError None (synthesis st)))))) in
      let s :=
        match transcribeAndTranslate file (langName (targetLanguage st)) with
        | Ok translatedScript =>
            setSpeakerVoiceMap (initialVoiceMap (speakersOf translatedScript))
              (setCustomDialog (initialDialog translatedScript)
                 (setTimedScript translatedScript s))
        | Throw err => setTranslationError (Some (translationErrorMessage err)) s
        end in
      {| synthesis := s; isTranslating := false;
         sourceFile := sourceFile st; targetLanguage := targetLanguage st |}
  end.

End Translation.

End Studio.

(* ================================================================== *)
(** * Runs of the [DubbedVideoPlayer]                                  *)
(* ================================================================== *)

Module Runs.
Import DubbedVideoPlayer.

(** A sequence of steps. *)
Inductive steps : Player -> list event -> Player -> Prop :=
| steps_nil p : steps p [] p
| steps_cons p e p' es p'' : step p e p' -> steps p' es p'' -> steps p (e :: es) p''.

End Runs.

(* ================================================================== *)
(** * Properties of the sample encoder                                 *)
(* ================================================================== *)

Section SampleEncoder.
Import JS App.
Local Open Scope Q_scope.

Lemma Qltb_lt p q : Qltb p q = true <-> p < q.
Proof. unfold Qltb, Qlt. apply Z.ltb_lt. Qed.

Lemma Qltb_ge p q : Qltb p q = false <-> q <= p.
Proof. unfold Qltb, Qle. apply Z.ltb_ge. Qed.

Lemma truncate_nonneg q : 0 <= q -> truncate q = Qfloor q.
Proof.
  destruct q as [n d]. unfold Qle, truncate, Qfloor. simpl. intros H.
  apply Z.quot_div_nonneg; lia.
Qed.

Lemma truncate_nonpos q : q <= 0 -> truncate q = Qceiling q.
Proof.
  destruct q as [n d]. unfold Qle, truncate, Qceiling, Qfloor. simpl. intros H.
  replace n with (- - n)%Z at 1 by lia.
  rewrite Z.quot_opp_l by lia.
  f_equal. apply Z.quot_div_nonneg; lia.
Qed.

Lemma wrap32_small z : (- 2147483648 <= z < 2147483648)%Z -> wrap 32 z = z.
Proof.
  intros H. unfold wrap.
  change (2 ^ 32)%Z with 4294967296%Z. change (2 ^ (32 - 1))%Z with 2147483648%Z.
  pose proof (Z.mod_pos_bound z 4294967296 ltac:(lia)) as Hr.
  pose proof (Z.div_mod z 4294967296 ltac:(lia)) as Hz.
  destruct (Z.ltb_spec (z mod 4294967296) 2147483648); lia.
Qed.

(** The finite value left by the clamp of line 80. *)
Lemma clamp_Fin x c : clamp (Fin x) = Fin c -> -1 <= c <= 1.
Proof.
  unfold clamp, Math_min, Math_max, ltb.
  destruct (Qltb x 1) eqn:Hx.
  - destruct (Qltb (-1) x) eqn:Hy; intros [= <-].
    + apply Qltb_lt in Hx, Hy. split; apply Qlt_le_weak; assumption.
    + split; [apply Qle_refl | discriminate].
  - destruct (Qltb (-1) 1) eqn:Hy; intros [= <-]; split;
      try apply Qle_refl; discriminate.
Qed.

Lemma clamp_total x : exists c, clamp (Fin x) = Fin c.
Proof.
  unfold clamp, Math_min, Math_max, ltb.
  destruct (Qltb x 1); [destruct (Qltb (-1) x) | destruct (Qltb (-1) 1)]; eauto.
Qed.

(** Line 81 on a finite value: the branch is chosen by [c < -1/2]. *)
Lemma scale_Fin c :
  scale (Fin c) =
  if Qltb c (- (1 # 2)) then wrap 32 (truncate (c * 32768))
  else wrap 32 (truncate (c * 32767)).
Proof.
  unfold scale, bitor0, add, ltb, mul.
  assert (E : Qltb ((1 # 2) + c) 0 = Qltb c (- (1 # 2))).
  { destruct (Qltb c (- (1 # 2))) eqn:H.
    - apply Qltb_lt in H. apply Qltb_lt. lra.
    - apply Qltb_ge in H. apply Qltb_ge. lra. }
  rewrite E. destruct (Qltb c (- (1 # 2))); reflexivity.
Qed.

Lemma scale_nonneg c :
  0 <= c <= 1 ->
  scale (Fin c) = Qfloor (c * 32767) /\ (0 <= Qfloor (c * 32767) <= 32767)%Z.
Proof.
  intros [H0 H1]. rewrite scale_Fin.
  assert (E : Qltb c (- (1 # 2)) = false) by (apply Qltb_ge; lra).
  rewrite E, truncate_nonneg by lra.
  assert (B : (0 <= Qfloor (c * 32767) <= 32767)%Z).
  { split.
    - apply (Qfloor_resp_le 0 (c * 32767)). lra.
    - apply (Qfloor_resp_le (c * 32767) 32767). lra. }
  split; [apply wrap32_small; lia | exact B].
Qed.

Lemma scale_below_half c :
  -1 <= c < - (1 # 2) ->
  scale (Fin c) = Qceiling (c * 32768)
  /\ (-32768 <= Qceiling (c * 32768) <= -16384)%Z.
Proof.
  intros [H0 H1]. rewrite scale_Fin.
  assert (E : Qltb c (- (1 # 2)) = true) by (apply Qltb_lt; lra).
  rewrite E, truncate_nonpos by lra.
  assert (B : (-32768 <= Qceiling (c * 32768) <= -16384)%Z).
  { split.
    - apply (Qceiling_resp_le (-32768) (c * 32768)). lra.
    - apply (Qceiling_resp_le (c * 32768) (-16384)). lra. }
  split; [apply wrap32_small; lia | exact B].
Qed.

(** C1 (the code departs from the claim).  The claim scales every
    negative clamped sample by 32768.  Line 81 tests
    [0.5 + sample < 0], so only samples below -0.5 take that branch:
    the sample -0.25 is scaled by 32767 and written as -8191 (payload
    bytes 01 E0), where the scaling by sign that the claim states gives
    -8192. *)
Theorem encodeSample_minus_quarter :
  encodeSample (Fin (- (1 # 4))) = (-8191)%Z
  /\ scale_by_sign (clamp (Fin (- (1 # 4)))) = (-8192)%Z
  /\ payload {| WebAudio.sampleRate := 24000; WebAudio.length := 1;
                WebAudio.channels := [[Fin (- (1 # 4))]] |} = [1; 224]%Z.
Proof. repeat split; vm_compute; reflexivity. Qed.

(** Where [scale] and the scaling by sign agree: on non-negative
    samples and on samples below -0.5. *)
Lemma scale_by_sign_agrees c :
  0 <= c \/ c < - (1 # 2) -> scale (Fin c) = scale_by_sign (Fin c).
Proof.
  intros H. rewrite scale_Fin. unfold scale_by_sign, bitor0, ltb, mul, ToInt32.
  destruct H as [H | H].
  - assert (E1 : Qltb c (- (1 # 2)) = false) by (apply Qltb_ge; lra).
    assert (E2 : Qltb c 0 = false) by (apply Qltb_ge; lra).
    rewrite E1, E2. reflexivity.
  - assert (E1 : Qltb c (- (1 # 2)) = true) by (apply Qltb_lt; lra).
    assert (E2 : Qltb c 0 = true) by (apply Qltb_lt; lra).
    rewrite E1, E2. reflexivity.
Qed.

(** C5 (as amended).  Re-decoding the 16-bit sample that the encoder
    writes, with the inverse of the scaling by sign, gives back the
    clamped sample with an error below 1/32767 when the clamped sample
    is non-negative, and below 1/32768 when it is below -0.5; the
    decoded value is never further from zero than the sample. *)
Theorem encode_decode_error x c :
  clamp (Fin x) = Fin c ->
  (0 <= c ->
   0 <= c - unscale_by_sign (encodeSample (Fin x)) < 1 # 32767)
  /\ (c < - (1 # 2) ->
      0 <= unscale_by_sign (encodeSample (Fin x)) - c < 1 # 32768).
Proof.
  intros Hc. pose proof (clamp_Fin _ _ Hc) as [Hlo Hhi].
  unfold encodeSample. rewrite Hc. split; intros H.
  - destruct (scale_nonneg c (conj H Hhi)) as [-> [B0 B1]].
    unfold unscale_by_sign.
    destruct (Z.ltb_spec (Qfloor (c * 32767)) 0) as [Hn | _]; [lia |].
    pose proof (Qfloor_le (c * 32767)) as F1.
    pose proof (Qlt_floor (c * 32767)) as F2.
    rewrite inject_Z_plus in F2. change (inject_Z 1) with 1 in F2.
    generalize dependent (inject_Z (Qfloor (c * 32767))). intros t F1 F2.
    unfold Qdiv. change (/ 32767) with (1 # 32767).
    split; lra.
  - destruct (scale_below_half c (conj Hlo H)) as [-> [B0 B1]].
    unfold unscale_by_sign.
    destruct (Z.ltb_spec (Qceiling (c * 32768)) 0) as [_ | Hn]; [| lia].
    pose proof (Qle_ceiling (c * 32768)) as F1.
    pose proof (Qceiling_lt (c * 32768)) as F2.
    unfold Z.sub in F2. rewrite inject_Z_plus in F2.
    change (inject_Z (- (1))) with (-1) in F2.
    generalize dependent (inject_Z (Qceiling (c * 32768))). intros t F1 F2.
    unfold Qdiv. change (/ 32768) with (1 # 32768).
    split; lra.
Qed.

Lemma encode_decode_error_witness :
  (0 <= (3 # 4) - unscale_by_sign (encodeSample (Fin (3 # 4))) < 1 # 32767)
  /\ (0 <= unscale_by_sign (encodeSample (Fin (-2))) - (-1) < 1 # 32768).
Proof.
  split.
  - apply (encode_decode_error (3 # 4) (3 # 4)); [reflexivity | discriminate].
  - apply (encode_decode_error (-2) (-1)); reflexivity.
Defined.

(** C5 (counterexample).  The sample 65537/2^31, a little above
    1/32768, is written as the 16-bit sample 0, which decodes to 0
    under the inverse scaling and under the division by 32768 of
    [decodeAudioData] alike: the error is the sample itself, more than
    1/32768. *)
Lemma encode_decode_error_exceeds :
  clamp (Fin (65537 # 2147483648)) = Fin (65537 # 2147483648)
  /\ encodeSample (Fin (65537 # 2147483648)) = 0%Z
  /\ ~ (Qabs ((65537 # 2147483648)
              - unscale_by_sign (encodeSample (Fin (65537 # 2147483648))))
        <= 1 # 32768)
  /\ decodeSample [encodeSample (Fin (65537 # 2147483648))] 0 = Fin (0 / 32768).
Proof.
  split; [reflexivity |]. split; [reflexivity |]. split; [| reflexivity].
  vm_compute. intros H. apply H. reflexivity.
Qed.

End SampleEncoder.

(* ================================================================== *)
(** * Properties of the PCM decoder                                    *)
(* ================================================================== *)

Section Decoder.
Import JS App.

Lemma int16s_length (data : list Z) :
  List.length (int16s data) = Nat.div2 (List.length data).
Proof.
  enough (H : List.length (int16s data) = Nat.div2 (List.length data)
              /\ forall b, List.length (int16s (b :: data))
                           = Nat.div2 (S (List.length data))) by apply H.
  induction data as [| a data [IH1 IH2]]; [split; reflexivity |].
  split; [apply IH2 |]. intros b. simpl. f_equal. exact IH1.
Qed.

(** [dataInt16.length / numChannels] for at least one channel. *)
Lemma frameCount_Fin (n c : nat) :
  (1 <= c)%nat ->
  div (of_Z (Z.of_nat n)) (of_Z (Z.of_nat c))
  = Fin (inject_Z (Z.of_nat n) / inject_Z (Z.of_nat c)).
Proof.
  intros Hc. unfold div, of_Z, sign_of. simpl Qnum.
  destruct (Z.compare_spec (Z.of_nat c) 0); try reflexivity. lia.
Qed.

Lemma truncate_quotient (n c : nat) :
  (1 <= c)%nat ->
  truncate (inject_Z (Z.of_nat n) / inject_Z (Z.of_nat c))
  = Z.of_nat (n / c).
Proof.
  intros Hc. rewrite Nat2Z.inj_div.
  unfold truncate, Qdiv, Qmult, Qinv, inject_Z. simpl Qnum.
  destruct (Z.of_nat c) as [| pc | pc] eqn:E; try lia.
  simpl. rewrite Z.mul_1_r. apply Z.quot_div_nonneg; lia.
Qed.

Lemma ceiling_quotient (n c : nat) :
  (1 <= c)%nat ->
  (n / c <= Z.to_nat (Qceiling (inject_Z (Z.of_nat n) / inject_Z (Z.of_nat c))))%nat.
Proof.
  intros Hc.
  pose proof (truncate_quotient n c Hc) as T.
  rewrite truncate_nonneg in T.
  - pose proof (Qfloor_le (inject_Z (Z.of_nat n) / inject_Z (Z.of_nat c))) as F.
    pose proof (Qle_ceiling (inject_Z (Z.of_nat n) / inject_Z (Z.of_nat c))) as C.
    pose proof (Qle_trans _ _ _ F C) as L. rewrite <- Zle_Qle in L. lia.
  - apply Qle_shift_div_l.
    + change 0%Q with (inject_Z 0). rewrite <- Zlt_Qlt. lia.
    + rewrite Qmult_0_l. change 0%Q with (inject_Z 0). rewrite <- Zle_Qle. lia.
Qed.

Lemma createBuffer_shaped (c : nat) (len : number) (rate : Q) b :
  WebAudio.createBuffer c len rate = Ok b ->
  WebAudio.shaped (Z.to_nat (WebAudio.ToUint32 len)) c b /\ WebAudio.sampleRate b = rate.
Proof.
  unfold WebAudio.createBuffer.
  destruct (_ || _ || _); [discriminate |]. intros [= <-].
  unfold WebAudio.shaped, WebAudio.numberOfChannels. simpl.
  repeat split; [apply repeat_length |].
  intros k data Hk. apply list_elem_of_lookup_2, list_elem_of_In, repeat_spec in Hk.
  subst. apply repeat_length.
Qed.

Lemma setSample_shaped frames c b ch i v :
  WebAudio.shaped frames c b -> WebAudio.shaped frames c (WebAudio.setSample b ch i v).
Proof.
  intros (Hl & Hc & Hd). unfold WebAudio.shaped, WebAudio.numberOfChannels in *. simpl.
  repeat split; [assumption | rewrite length_alter; assumption |].
  intros k data. rewrite list_lookup_alter. case_decide as Hk.
  - subst k. destruct (WebAudio.channels b !! ch) as [old |] eqn:E;
      simpl; [| discriminate].
    intros [= <-]. rewrite length_insert. eauto.
  - apply Hd.
Qed.

Lemma setSample_rate b ch i v :
  WebAudio.sampleRate (WebAudio.setSample b ch i v) = WebAudio.sampleRate b.
Proof. reflexivity. Qed.

Lemma getSample_setSample_eq frames c b ch i v :
  WebAudio.shaped frames c b -> (ch < c)%nat -> (i < frames)%nat ->
  WebAudio.getSample (WebAudio.setSample b ch i v) ch i = v.
Proof.
  intros (Hl & Hc & Hd) Hch Hi. unfold WebAudio.getSample. simpl.
  rewrite list_lookup_alter_eq.
  unfold WebAudio.numberOfChannels in Hc.
  destruct (lookup_lt_is_Some_2 (WebAudio.channels b) ch ltac:(lia)) as [data E].
  rewrite E. simpl. rewrite list_lookup_insert_eq; [reflexivity |].
  rewrite (Hd _ _ E). assumption.
Qed.

Lemma getSample_setSample_ne b ch i v ch' i' :
  (ch, i) <> (ch', i') ->
  WebAudio.getSample (WebAudio.setSample b ch i v) ch' i' = WebAudio.getSample b ch' i'.
Proof.
  intros Hne. unfold WebAudio.getSample. simpl.
  rewrite list_lookup_alter. case_decide as Hk; [| reflexivity].
  subst ch'. destruct (WebAudio.channels b !! ch) as [data |]; [| reflexivity].
  simpl. rewrite list_lookup_insert_ne; [reflexivity | congruence].
Qed.

Section Writes.
(** The two nested loops of [decodeAudioData], for any value written
    at channel [ch] and frame [i]. *)
Variable F : nat -> nat -> number.
Variable frames c : nat.
Variable ls : list nat.

Let inner (ch : nat) (b : WebAudio.AudioBuffer) : WebAudio.AudioBuffer :=
  fold_left (fun buffer i => WebAudio.setSample buffer ch i (F ch i)) ls b.

Let outer (cs : list nat) (b : WebAudio.AudioBuffer) : WebAudio.AudioBuffer :=
  fold_left (fun buffer ch => inner ch buffer) cs b.

Lemma writes_shaped ch (js : list nat) b :
  WebAudio.shaped frames c b ->
  WebAudio.shaped frames c
    (fold_left (fun buffer i => WebAudio.setSample buffer ch i (F ch i)) js b).
Proof.
  revert b. induction js as [| j js IH]; intros b Hb; simpl; [assumption |].
  apply IH, setSample_shaped, Hb.
Qed.

Lemma writes_rate ch (js : list nat) b :
  WebAudio.sampleRate
    (fold_left (fun buffer i => WebAudio.setSample buffer ch i (F ch i)) js b)
  = WebAudio.sampleRate b.
Proof.
  revert b. induction js as [| j js IH]; intros b; simpl; [reflexivity |].
  rewrite IH. reflexivity.
Qed.

Lemma writes_keep ch (js : list nat) b ch' i' :
  (ch <> ch' \/ ~ In i' js) ->
  WebAudio.getSample
    (fold_left (fun buffer i => WebAudio.setSample buffer ch i (F ch i)) js b)
    ch' i'
  = WebAudio.getSample b ch' i'.
Proof.
  revert b. induction js as [| j js IH]; intros b H; simpl; [reflexivity |].
  rewrite IH.
  - apply getSample_setSample_ne. intros [= -> ->]. simpl in H. tauto.
  - simpl in H. tauto.
Qed.

Lemma writes_set ch (js : list nat) b i' :
  WebAudio.shaped frames c b -> (ch < c)%nat -> (i' < frames)%nat -> In i' js ->
  WebAudio.getSample
    (fold_left (fun buffer i => WebAudio.setSample buffer ch i (F ch i)) js b)
    ch i'
  = F ch i'.
Proof.
  revert b. induction js as [| j js IH]; intros b Hb Hch Hi Hin; [destruct Hin |].
  simpl. destruct (in_dec Nat.eq_dec i' js) as [Hjs | Hjs].
  - apply IH; auto using setSample_shaped.
  - destruct Hin as [-> | Hin]; [| contradiction].
    rewrite writes_keep by tauto.
    apply (getSample_setSample_eq frames c); assumption.
Qed.

Lemma channels_shaped (cs : list nat) b :
  WebAudio.shaped frames c b -> WebAudio.shaped frames c (outer cs b).
Proof.
  revert b. induction cs as [| a cs IH]; intros b Hb; simpl; [assumption |].
  apply IH. apply writes_shaped, Hb.
Qed.

Lemma channels_rate (cs : list nat) b :
  WebAudio.sampleRate (outer cs b) = WebAudio.sampleRate b.
Proof.
  revert b. induction cs as [| a cs IH]; intros b; simpl; [reflexivity |].
  unfold outer in IH. rewrite IH. apply writes_rate.
Qed.

Lemma channels_keep (cs : list nat) b ch' i' :
  ~ In ch' cs ->
  WebAudio.getSample (outer cs b) ch' i' = WebAudio.getSample b ch' i'.
Proof.
  revert b. induction cs as [| a cs IH]; intros b H; simpl; [reflexivity |].
  unfold outer in IH. rewrite IH by (simpl in H; tauto).
  apply writes_keep. left. simpl in H. tauto.
Qed.

Lemma channels_set (cs : list nat) b ch' i' :
  WebAudio.shaped frames c b -> (ch' < c)%nat -> (i' < frames)%nat ->
  In ch' cs -> In i' ls ->
  WebAudio.getSample (outer cs b) ch' i' = F ch' i'.
Proof.
  revert b. induction cs as [| a cs IH]; intros b Hb Hch Hi Hcs Hls; [destruct Hcs |].
  simpl. destruct (in_dec Nat.eq_dec ch' cs) as [Hin | Hin].
  - apply IH; auto. apply writes_shaped, Hb.
  - destruct Hcs as [-> | Hcs]; [| contradiction].
    pose proof (channels_keep cs) as K. unfold outer in K. rewrite K by assumption.
    apply writes_set; assumption.
Qed.

End Writes.

Lemma decodeSample_in_range (dataInt16 : list Z) (k : nat) s :
  dataInt16 !! k = Some s ->
  decodeSample dataInt16 k = Fin (inject_Z s / 32768).
Proof. intros H. unfold decodeSample. rewrite H. reflexivity. Qed.

(** C4 (as amended).  With one to 32 channels and a buffer below 2^33
    bytes: an odd byte length raises [RangeError]; an even length that
    holds less than one frame, the empty input included, raises
    [NotSupportedError]; otherwise the decoder returns a buffer of
    exactly floor (samples / channels) frames on every channel, frame
    [i] of channel [channel] being sample [i * channels + channel]
    divided by 32768, and a trailing partial frame is dropped. *)
Theorem decodeAudioData_frames (data : list Z) (numChannels : nat) :
  (1 <= numChannels <= 32)%nat ->
  (Z.of_nat (List.length data) < 2 ^ 33)%Z ->
  let samples := (List.length data / 2)%nat in
  let frames := (samples / numChannels)%nat in
  (Nat.even (List.length data) = false ->
   decodeAudioData data 24000 numChannels = Throw (HostError RangeError))
  /\ (Nat.even (List.length data) = true -> (samples < numChannels)%nat ->
      decodeAudioData data 24000 numChannels = Throw (HostError NotSupportedError))
  /\ (Nat.even (List.length data) = true -> (numChannels <= samples)%nat ->
      exists buffer,
        decodeAudioData data 24000 numChannels = Ok buffer
        /\ WebAudio.shaped frames numChannels buffer
        /\ WebAudio.sampleRate buffer = 24000%Q
        /\ forall channel i, (channel < numChannels)%nat -> (i < frames)%nat ->
             exists s, int16s data !! (i * numChannels + channel)%nat = Some s
                       /\ WebAudio.getSample buffer channel i
                          = Fin (inject_Z s / 32768)).
Proof.
  intros Hc Hlen samples frames.
  assert (Hs : List.length (int16s data) = samples).
  { rewrite int16s_length. apply Nat.div2_div. }
  assert (Hframes : Z.to_nat (WebAudio.ToUint32
            (div (of_Z (Z.of_nat (List.length (int16s data))))
                 (of_Z (Z.of_nat numChannels)))) = frames).
  { rewrite frameCount_Fin by lia. unfold WebAudio.ToUint32.
    rewrite truncate_quotient by lia. rewrite Hs. fold frames.
    rewrite Z.mod_small; [apply Nat2Z.id |].
    assert (frames <= samples)%nat by (apply Nat.Div0.div_le_upper_bound; nia).
    assert (samples <= List.length data)%nat
      by (apply Nat.Div0.div_le_upper_bound; lia).
    change (2 ^ 33)%Z with 8589934592%Z in Hlen.
    change (2 ^ 32)%Z with 4294967296%Z.
    assert (2 * samples <= List.length data)%nat
      by (unfold samples; apply Nat.Div0.mul_div_le).
    lia. }
  split; [| split].
  - intros Hodd. unfold decodeAudioData, Int16Array. rewrite Hodd. reflexivity.
  - intros Heven Hfew. unfold decodeAudioData, Int16Array. rewrite Heven. cbn [bind].
    unfold WebAudio.createBuffer. rewrite Hframes.
    assert (E : frames = 0%nat) by (apply Nat.div_small; assumption).
    rewrite E. simpl. rewrite orb_true_r. reflexivity.
  - intros Heven Hmany. unfold decodeAudioData, Int16Array. rewrite Heven. cbn [bind].
    assert (Hpos : (1 <= frames)%nat).
    { unfold frames. apply Nat.div_le_lower_bound; lia. }
    destruct (WebAudio.createBuffer numChannels
                (div (of_Z (Z.of_nat (List.length (int16s data))))
                     (of_Z (Z.of_nat numChannels))) 24000) as [b0 | e] eqn:Eb.
    + apply createBuffer_shaped in Eb as [Hb0 Hr0]. rewrite Hframes in Hb0.
      cbn [bind]. eexists. split; [reflexivity |].
      split; [apply channels_shaped, Hb0 |].
      split; [rewrite channels_rate; exact Hr0 |].
      intros channel i Hch Hi.
      assert (Hk : (i * numChannels + channel < List.length (int16s data))%nat).
      { rewrite Hs.
        assert (frames * numChannels <= samples)%nat
          by (unfold frames; rewrite Nat.mul_comm; apply Nat.Div0.mul_div_le).
        nia. }
      destruct (lookup_lt_is_Some_2 _ _ Hk) as [s Es].
      exists s. split; [exact Es |].
      rewrite (channels_set
                 (fun ch j => decodeSample (int16s data) (j * numChannels + ch))
                 frames numChannels).
      * apply decodeSample_in_range, Es.
      * exact Hb0.
      * exact Hch.
      * exact Hi.
      * apply in_seq. lia.
      * rewrite frameCount_Fin by lia. unfold indicesBelow. apply in_seq.
        rewrite Hs.
        pose proof (ceiling_quotient samples numChannels ltac:(lia)) as C.
        fold frames in C. lia.
    + exfalso. unfold WebAudio.createBuffer in Eb. rewrite Hframes in Eb.
      destruct (numChannels =? 0)%nat eqn:E1; [apply Nat.eqb_eq in E1; lia |].
      destruct (WebAudio.maxChannels <? numChannels)%nat eqn:E2;
        [apply Nat.ltb_lt in E2; unfold WebAudio.maxChannels in E2; lia |].
      destruct (frames =? 0)%nat eqn:E3; [apply Nat.eqb_eq in E3; lia |].
      discriminate.
Qed.

Lemma decodeAudioData_frames_witness :
  decodeAudioData [1; 0; 2] 24000 2 = Throw (HostError RangeError)
  /\ decodeAudioData [] 24000 1 = Throw (HostError NotSupportedError)
  /\ exists buffer,
       decodeAudioData [1; 0; 2; 0; 3; 0; 4; 0; 255; 255]%Z 24000 2 = Ok buffer
       /\ WebAudio.length buffer = 2%nat.
Proof.
  split; [| split].
  - apply (decodeAudioData_frames [1; 0; 2]%Z 2); [lia | reflexivity | reflexivity].
  - apply (decodeAudioData_frames [] 1);
      [lia | reflexivity | reflexivity | simpl; lia].
  - destruct (decodeAudioData_frames [1; 0; 2; 0; 3; 0; 4; 0; 255; 255]%Z 2
                ltac:(lia) ltac:(reflexivity)) as (_ & _ & H).
    destruct (H ltac:(reflexivity) ltac:(simpl; lia)) as (buffer & E & (L & _) & _).
    exists buffer. split; [exact E | exact L].
Defined.

(** C4 (counterexample).  A buffer of three bytes is not decoded with
    its trailing byte dropped: [new Int16Array] raises [RangeError]; and
    the empty buffer is not decoded to an empty segment: [createBuffer]
    raises [NotSupportedError]. *)
Lemma decodeAudioData_fails :
  decodeAudioData [1; 0; 2]%Z 24000 1 = Throw (HostError RangeError)
  /\ decodeAudioData [] 24000 1 = Throw (HostError NotSupportedError).
Proof. split; reflexivity. Qed.

End Decoder.

(* ================================================================== *)
(** * Properties of the rounding to double precision                   *)
(* ================================================================== *)

Section Binary64.
Import JS.
Local Open Scope Q_scope.

Lemma pow2_pos e : 0 < 2 ^ e.
Proof. apply Qpower_0_lt. reflexivity. Qed.

Lemma pow2_add a b : 2 ^ (a + b) == 2 ^ a * 2 ^ b.
Proof. apply Qpower_plus. discriminate. Qed.

Lemma pow2_mono a b : (a <= b)%Z -> 2 ^ a <= 2 ^ b.
Proof. intros H. apply Qpower_le_compat_l; [exact H | discriminate]. Qed.

Lemma pow2_Z x : (0 <= x)%Z -> inject_Z (2 ^ x) == 2 ^ x.
Proof. intros H. rewrite Zpower_Qpower by exact H. reflexivity. Qed.

(** Comparing a fraction with a power of two. *)
Lemma pow2_scaled (x y : Z) (n : Z) (d : positive) :
  (0 <= x)%Z -> (0 <= y)%Z ->
  2 ^ (x - y) * (inject_Z (2 ^ y) * inject_Z (Z.pos d)) == inject_Z (2 ^ x * Z.pos d)
  /\ (n # d) * (inject_Z (2 ^ y) * inject_Z (Z.pos d)) == inject_Z (n * 2 ^ y)
  /\ 0 < inject_Z (2 ^ y) * inject_Z (Z.pos d).
Proof.
  intros Hx Hy. split; [| split].
  - rewrite inject_Z_mult, Qmult_assoc, !pow2_Z by assumption.
    rewrite <- pow2_add. replace (x - y + y)%Z with x by lia. reflexivity.
  - rewrite <- inject_Z_mult. unfold Qeq, Qmult, inject_Z. cbn [Qnum Qden].
    rewrite Pos.mul_1_r. ring.
  - rewrite <- inject_Z_mult. change 0 with (inject_Z 0). rewrite <- Zlt_Qlt.
    pose proof (Z.pow_pos_nonneg 2 y ltac:(lia) Hy). nia.
Qed.

Lemma pow2_le_frac (x y n : Z) (d : positive) :
  (0 <= x)%Z -> (0 <= y)%Z ->
  (2 ^ (x - y) <= n # d <-> (2 ^ x * Z.pos d <= n * 2 ^ y)%Z).
Proof.
  intros Hx Hy. destruct (pow2_scaled x y n d Hx Hy) as (HP & HA & HK).
  rewrite <- (Qmult_le_r _ _ _ HK), HP, HA, <- Zle_Qle. reflexivity.
Qed.

Lemma frac_lt_pow2 (x y n : Z) (d : positive) :
  (0 <= x)%Z -> (0 <= y)%Z ->
  (n # d < 2 ^ (x - y) <-> (n * 2 ^ y < 2 ^ x * Z.pos d)%Z).
Proof.
  intros Hx Hy. destruct (pow2_scaled x y n d Hx Hy) as (HP & HA & HK).
  rewrite <- (Qmult_lt_r _ _ _ HK), HP, HA, <- Zlt_Qlt. reflexivity.
Qed.

(** [exponent a] is the binade of [a]. *)
Lemma exponent_spec (a : Q) :
  0 < a -> 2 ^ exponent a <= a /\ a < 2 ^ (exponent a + 1).
Proof.
  destruct a as [n d]. intros Ha.
  assert (Hn : (0 < n)%Z) by (unfold Qlt in Ha; simpl in Ha; lia).
  unfold exponent. cbn [Qnum Qden].
  pose proof (Z.log2_spec n Hn) as Ln.
  pose proof (Z.log2_spec (Z.pos d) ltac:(lia)) as Ld.
  pose proof (Z.log2_nonneg n) as Nn.
  pose proof (Z.log2_nonneg (Z.pos d)) as Nd.
  rewrite Z.pow_succ_r in Ln, Ld by assumption.
  set (ln := Z.log2 n) in *. set (ld := Z.log2 (Z.pos d)) in *.
  pose proof (Z.pow_pos_nonneg 2 ln ltac:(lia) Nn) as Pn.
  pose proof (Z.pow_pos_nonneg 2 ld ltac:(lia) Nd) as Pd.
  destruct (Z.leb_spec (2 ^ ln * Z.pos d) (n * 2 ^ ld)) as [T | T].
  - split.
    + apply pow2_le_frac; assumption.
    + replace (ln - ld + 1)%Z with (ln + 1 - ld)%Z by lia.
      apply frac_lt_pow2; [lia | assumption |].
      rewrite Z.pow_add_r by lia. change (2 ^ 1)%Z with 2%Z. nia.
  - split.
    + replace (ln - ld - 1)%Z with (ln - (ld + 1))%Z by lia.
      apply pow2_le_frac; [assumption | lia |].
      rewrite Z.pow_add_r by lia. change (2 ^ 1)%Z with 2%Z. nia.
    + replace (ln - ld - 1 + 1)%Z with (ln - ld)%Z by lia.
      apply frac_lt_pow2; assumption.
Qed.

Lemma nearestEven_ge (k : Z) (x : Q) :
  inject_Z k <= x -> (k <= nearestEven x)%Z.
Proof.
  intros H. apply Qfloor_resp_le in H. rewrite Qfloor_Z in H.
  unfold nearestEven.
  destruct (x - inject_Z (Qfloor x) ?= 1 # 2); [destruct (Z.even _) | |]; lia.
Qed.

Lemma nearestEven_le (k : Z) (x : Q) :
  x <= inject_Z k -> (nearestEven x <= k)%Z.
Proof.
  intros H. pose proof (Qfloor_resp_le _ _ H) as Hf. rewrite Qfloor_Z in Hf.
  pose proof (Qfloor_le x) as Hx. unfold nearestEven.
  destruct (Z.eq_dec (Qfloor x) k) as [E | E].
  - rewrite E in *. 
    assert (L : x - inject_Z k < 1 # 2).
    { generalize dependent (inject_Z k). intros. lra. }
    destruct (Qcompare_spec (x - inject_Z k) (1 # 2)) as [C | C | C];
      [| lia |]; exfalso; generalize dependent (inject_Z k); intros; lra.
  - destruct (x - inject_Z (Qfloor x) ?= 1 # 2); [destruct (Z.even _) | |]; lia.
Qed.

Lemma Qfloor_unique (k : Z) (x : Q) :
  inject_Z k <= x -> x < inject_Z (k + 1) -> Qfloor x = k.
Proof.
  intros L U. pose proof (Qfloor_resp_le _ _ L) as H1. rewrite Qfloor_Z in H1.
  pose proof (Qle_lt_trans _ _ _ (Qfloor_le x) U) as H2.
  rewrite <- Zlt_Qlt in H2. lia.
Qed.

(** Between an even integer and its successor, only what lies above
    the midpoint is rounded up. *)
Lemma nearestEven_above (k : Z) (x : Q) :
  Z.even k = true -> inject_Z k <= x ->
  ((k < nearestEven x)%Z <-> inject_Z k + (1 # 2) < x).
Proof.
  intros Hk L.
  destruct (Qlt_le_dec x (inject_Z (k + 1))) as [U | U].
  - unfold nearestEven. rewrite (Qfloor_unique k x L U), Hk.
    destruct (Qcompare_spec (x - inject_Z k) (1 # 2)) as [E | E | E];
      (split; [intros H; try lia | intros H]);
      generalize dependent (inject_Z k); intros; try lra; lia.
  - pose proof (nearestEven_ge _ _ U) as H. rewrite inject_Z_plus in U.
    change (inject_Z 1) with 1 in U.
    split; [intros _ | intros _; lia].
    generalize dependent (inject_Z k). intros. lra.
Qed.


Lemma roundMagnitude_eq (a : Q) :
  let e := Z.max (exponent a) (-1022) in
  let r := inject_Z (nearestEven (a / 2 ^ (e - 52))) * 2 ^ (e - 52) in
  roundMagnitude a = if Qle_bool (2 ^ 1024) r then None else Some (Qred r).
Proof. reflexivity. Qed.

Lemma rounded_nonneg (a : Q) (e : Z) :
  0 < a -> 0 <= inject_Z (nearestEven (a / 2 ^ (e - 52))) * 2 ^ (e - 52).
Proof.
  intros Ha. apply Qmult_le_0_compat; [| apply Qlt_le_weak, pow2_pos].
  change 0 with (inject_Z 0). rewrite <- Zle_Qle. apply nearestEven_ge.
  apply Qle_shift_div_l; [apply pow2_pos |].
  change (inject_Z 0) with 0. rewrite Qmult_0_l. apply Qlt_le_weak, Ha.
Qed.

(** The rounded value stays in the closed binade of its argument. *)
Lemma rounded_upper (a : Q) (e : Z) :
  a <= 2 ^ (e + 1) ->
  inject_Z (nearestEven (a / 2 ^ (e - 52))) * 2 ^ (e - 52) <= 2 ^ (e + 1).
Proof.
  intros U.
  assert (S : 2 ^ (e + 1) == inject_Z (2 ^ 53) * 2 ^ (e - 52)).
  { rewrite pow2_Z by lia. rewrite <- pow2_add.
    replace (53 + (e - 52))%Z with (e + 1)%Z by lia. reflexivity. }
  rewrite S. apply Qmult_le_compat_r; [| apply Qlt_le_weak, pow2_pos].
  rewrite <- Zle_Qle. apply nearestEven_le.
  apply Qle_shift_div_r; [apply pow2_pos |]. rewrite <- S. exact U.
Qed.

Lemma rounded_lower (a : Q) (e : Z) :
  2 ^ e <= a ->
  2 ^ e <= inject_Z (nearestEven (a / 2 ^ (e - 52))) * 2 ^ (e - 52).
Proof.
  intros L.
  assert (S : 2 ^ e == inject_Z (2 ^ 52) * 2 ^ (e - 52)).
  { rewrite pow2_Z by lia. rewrite <- pow2_add.
    replace (52 + (e - 52))%Z with e by lia. reflexivity. }
  rewrite S at 1. apply Qmult_le_compat_r; [| apply Qlt_le_weak, pow2_pos].
  rewrite <- Zle_Qle. apply nearestEven_ge.
  apply Qle_shift_div_l; [apply pow2_pos |]. rewrite <- S. exact L.
Qed.

(** Which magnitudes are rounded to more than a quarter: those above
    the midpoint of 1/4 and the next binary64 value, 1/4 + 2^-54. *)
Lemma roundMagnitude_quarter (a : Q) :
  0 < a ->
  match roundMagnitude a with
  | Some r => 1 # 4 < r <-> (1 # 4) + (1 # 36028797018963968) < a
  | None => (1 # 4) + (1 # 36028797018963968) < a
  end.
Proof.
  intros Ha. rewrite roundMagnitude_eq. cbv zeta.
  destruct (exponent_spec a Ha) as [L U].
  assert (Big : 1 <= 2 ^ 1024) by (apply (pow2_mono 0 1024); lia).
  destruct (Z_lt_le_dec (exponent a) (-2)%Z) as [Hlow | Hhigh].
  - (* below 1/4 *)
    set (e := Z.max (exponent a) (-1022)).
    assert (He : (e + 1 <= -2)%Z) by lia.
    assert (Ua : a <= 2 ^ (e + 1)).
    { eapply Qle_trans; [apply Qlt_le_weak, U | apply pow2_mono; lia]. }
    pose proof (rounded_upper a e Ua) as R.
    pose proof (pow2_mono _ _ He) as Q4. change (2 ^ (-2)) with (1 # 4) in Q4.
    set (r := inject_Z (nearestEven (a / 2 ^ (e - 52))) * 2 ^ (e - 52)) in *.
    destruct (Qle_bool (2 ^ 1024) r) eqn:O.
    + apply Qle_bool_iff in O. exfalso.
      generalize dependent (2 ^ 1024). generalize dependent (2 ^ (e + 1)).
      intros. lra.
    + rewrite Qred_correct.
      generalize dependent (2 ^ (e + 1)). intros. split; intros; lra.
  - destruct (Z.eq_dec (exponent a) (-2)%Z) as [E | E].
    + (* between 1/4 and 1/2 *)
      rewrite E in *. change (Z.max (-2) (-1022)) with (-2)%Z.
      change (2 ^ (-2 - 52)) with (1 # 18014398509481984).
      change (2 ^ (-2)) with (1 # 4) in L. change (2 ^ (-2 + 1)) with (1 # 2) in U.
      unfold Qdiv. change (/ (1 # 18014398509481984)) with (18014398509481984 # 1).
      pose proof (nearestEven_above 4503599627370496%Z (a * (18014398509481984 # 1))
                    eq_refl) as A.
      change (inject_Z 4503599627370496) with (4503599627370496 # 1) in A.
      assert (A0 : (4503599627370496 # 1) <= a * (18014398509481984 # 1)) by lra.
      specialize (A A0). rewrite Zlt_Qlt in A.
      change (inject_Z 4503599627370496) with (4503599627370496 # 1) in A.
      assert (Hm : inject_Z (nearestEven (a * (18014398509481984 # 1)))
                   <= inject_Z 9007199254740992).
      { rewrite <- Zle_Qle. apply nearestEven_le.
        change (inject_Z 9007199254740992) with (9007199254740992 # 1). lra. }
      change (inject_Z 9007199254740992) with (9007199254740992 # 1) in Hm.
      generalize dependent (inject_Z (nearestEven (a * (18014398509481984 # 1)))).
      intros m A Hm.
      destruct (Qle_bool (2 ^ 1024) (m * (1 # 18014398509481984))) eqn:O.
      * apply Qle_bool_iff in O. exfalso.
        generalize dependent (2 ^ 1024). intros. lra.
      * rewrite Qred_correct. split; intros H.
        -- assert (H' : (4503599627370496 # 1) < m) by lra.
           apply A in H'. lra.
        -- assert (H' : (4503599627370496 # 1) + (1 # 2) < a * (18014398509481984 # 1))
             by lra.
           apply A in H'. lra.
    + (* from 1/2 up *)
      assert (He : Z.max (exponent a) (-1022) = exponent a) by lia.
      rewrite He.
      pose proof (rounded_lower a (exponent a) L) as R.
      assert (H2 : 2 ^ (-1) <= 2 ^ exponent a) by (apply pow2_mono; lia).
      change (2 ^ (-1)) with (1 # 2) in H2.
      set (r := inject_Z (nearestEven (a / 2 ^ (exponent a - 52)))
                * 2 ^ (exponent a - 52)) in *.
      destruct (Qle_bool (2 ^ 1024) r).
      * generalize dependent (2 ^ exponent a). intros. lra.
      * rewrite Qred_correct.
        generalize dependent (2 ^ exponent a). intros. split; intros; lra.
Qed.

Lemma roundMagnitude_nonneg (a r : Q) :
  0 < a -> roundMagnitude a = Some r -> 0 <= r.
Proof.
  intros Ha. rewrite roundMagnitude_eq. cbv zeta.
  destruct (Qle_bool _ _); [discriminate |].
  match goal with |- Some (Qred ?x) = _ -> _ => pose proof (Qred_correct x) as C;
    generalize dependent (Qred x) end.
  intros r' C [= <-]. rewrite C. apply rounded_nonneg, Ha.
Qed.

Lemma round64_nonneg (q r : Q) : 0 <= q -> round64 q = Fin r -> 0 <= r.
Proof.
  intros Hq. unfold round64.
  destruct (Z.compare_spec (Qnum q) 0) as [E | E | E].
  - intros [= <-]. apply Qle_refl.
  - exfalso. unfold Qle in Hq. simpl in Hq. lia.
  - destruct (roundMagnitude q) as [r' |] eqn:R; [| discriminate].
    intros [= <-]. apply (roundMagnitude_nonneg q); [| exact R].
    unfold Qlt. simpl. lia.
Qed.

(** The rational that carries a rounded value is in lowest terms. *)
Lemma round64_canonical (q r : Q) : round64 q = Fin r -> Qred r = r.
Proof.
  unfold round64, roundMagnitude.
  destruct (Qnum q ?= 0)%Z.
  - intros [= <-]. reflexivity.
  - destruct (Qle_bool _ _); [discriminate |].
    match goal with |- Fin (- Qred ?x) = _ -> _ =>
      pose proof (Qred_complete _ _ (Qred_correct x)) as C;
      generalize dependent (Qred x) end.
    intros r' C [= <-]. rewrite Qred_opp, C. reflexivity.
  - destruct (Qle_bool _ _); [discriminate |].
    match goal with |- Fin (Qred ?x) = _ -> _ =>
      pose proof (Qred_complete _ _ (Qred_correct x)) as C;
      generalize dependent (Qred x) end.
    intros r' C [= <-]. exact C.
Qed.

End Binary64.

(* ================================================================== *)
(** * Properties of the compositor                                     *)
(* ================================================================== *)

Section Compositor.
Import JS App.
Local Open Scope Q_scope.

Variable atob : jsstring -> result jsstring.
Variable render : WebAudio.OfflineAudioContext -> nat -> list number.

(** A finite end time came out of a rounding: it is in lowest terms,
    and not negative when the start time is not. *)
Lemma endTime_canonical (seg : WebAudio.AudioBuffer * Q) (e : Q) :
  endTime seg = Fin e -> Qred e = e.
Proof.
  unfold endTime, fadd, rounded.
  destruct (add _ _) as [| s | q]; try discriminate. apply round64_canonical.
Qed.

Lemma duration_nonneg (b : WebAudio.AudioBuffer) (d : Q) :
  WebAudio.sampleRate b = 24000 -> WebAudio.duration b = Fin d -> 0 <= d.
Proof.
  intros Hr. unfold WebAudio.duration, fdiv, of_Z, div. rewrite Hr.
  change (sign_of 24000) with Gt. cbv iota. unfold rounded.
  apply round64_nonneg.
  apply Qle_shift_div_l; [reflexivity |]. rewrite Qmult_0_l.
  change 0 with (inject_Z 0). rewrite <- Zle_Qle. lia.
Qed.

Lemma endTime_nonneg (seg : WebAudio.AudioBuffer * Q) (e : Q) :
  WebAudio.sampleRate (fst seg) = 24000 -> 0 <= snd seg ->
  endTime seg = Fin e -> 0 <= e.
Proof.
  intros Hr Hs. unfold endTime, fadd.
  destruct (WebAudio.duration (fst seg)) as [| s | d] eqn:D;
    try (destruct s); try discriminate.
  pose proof (duration_nonneg _ _ Hr D) as Hd.
  cbn [add rounded]. apply round64_nonneg.
  generalize dependent (snd seg). intros. lra.
Qed.

Lemma maxEndTime_fold (ds : list (WebAudio.AudioBuffer * Q)) (init : Q) :
  (forall seg, In seg ds -> exists e, endTime seg = Fin e) ->
  exists r,
    fold_left
      (fun maxDuration seg =>
         if ltb maxDuration (endTime seg) then endTime seg else maxDuration)
      ds (Fin init) = Fin r
    /\ init <= r
    /\ (forall seg e, In seg ds -> endTime seg = Fin e -> e <= r)
    /\ (r = init \/ exists seg, In seg ds /\ endTime seg = Fin r).
Proof.
  revert init. induction ds as [| d ds IH]; intros init Hfin; simpl.
  - exists init. split; [reflexivity |]. split; [apply Qle_refl |].
    split; [intros ? ? [] | left; reflexivity].
  - destruct (Hfin d (or_introl eq_refl)) as [e0 He0]. rewrite He0. cbn [ltb].
    assert (Hfin' : forall seg, In seg ds -> exists e, endTime seg = Fin e)
      by (intros seg Hin; apply Hfin; right; exact Hin).
    destruct (Qltb init e0) eqn:E.
    + apply Qltb_lt in E. destruct (IH e0 Hfin') as (r & Hr & H1 & H2 & H3).
      exists r. split; [exact Hr |].
      split; [apply Qlt_le_weak; eapply Qlt_le_trans; eassumption |].
      split.
      * intros seg e [<- | Hin] He; [| apply (H2 seg e Hin He)].
        rewrite He0 in He. injection He as <-. exact H1.
      * right. destruct H3 as [-> | (seg & Hin & Hseg)]; [exists d | exists seg]; auto.
    + apply Qltb_ge in E. destruct (IH init Hfin') as (r & Hr & H1 & H2 & H3).
      exists r. split; [exact Hr |]. split; [exact H1 |]. split.
      * intros seg e [<- | Hin] He; [| apply (H2 seg e Hin He)].
        rewrite He0 in He. injection He as <-. eapply Qle_trans; eassumption.
      * destruct H3 as [-> | (seg & Hin & Hseg)]; [left; reflexivity | right; eauto].
Qed.

(** [maxDuration] is the largest end time. *)
Lemma maxEndTime_max (ds : list (WebAudio.AudioBuffer * Q)) (M : Q) :
  Forall (fun seg => WebAudio.sampleRate (fst seg) = 24000
                     /\ (1 <= WebAudio.length (fst seg))%nat
                     /\ 0 <= snd seg) ds ->
  (exists seg, In seg ds /\ endTime seg = Fin M) ->
  (forall seg, In seg ds -> exists e, endTime seg = Fin e /\ e <= M) ->
  maxEndTime ds = Fin M.
Proof.
  intros Hds (seg & Hin & Hseg) Hub.
  rewrite List.Forall_forall in Hds.
  destruct (maxEndTime_fold ds 0) as (r & Hr & H1 & H2 & H3).
  { intros seg' Hin'. destruct (Hub seg' Hin') as (e & He & _). eauto. }
  unfold maxEndTime. rewrite Hr. f_equal.
  pose proof (H2 seg M Hin Hseg) as HMr.
  pose proof (endTime_canonical _ _ Hseg) as CM.
  assert (Hrc : Qred r = r /\ r <= M).
  { destruct H3 as [-> | (seg' & Hin' & Hseg')].
    - split; [reflexivity |].
      destruct (Hds seg Hin) as (Hrate & _ & Hstart).
      apply (endTime_nonneg seg M Hrate Hstart Hseg).
    - split; [apply (endTime_canonical _ _ Hseg') |].
      destruct (Hub seg' Hin') as (e & He & Hle).
      rewrite Hseg' in He. injection He as <-. exact Hle. }
  destruct Hrc as [Cr HrM].
  rewrite <- Cr, <- CM. apply Qred_complete, Qle_antisym; assumption.
Qed.

Lemma truncate_inject_Z z : truncate (inject_Z z) = z.
Proof. unfold truncate, inject_Z. simpl. apply Z.quot_1_r. Qed.

Lemma ToUint32_range (x : number) : (0 <= WebAudio.ToUint32 x < 2 ^ 32)%Z.
Proof.
  destruct x as [| s | q]; cbn [WebAudio.ToUint32]; [lia | lia |].
  apply Z.mod_pos_bound. lia.
Qed.

(** The offline context: the length is converted as the interface
    prescribes, and a length of zero is rejected. *)
Lemma newOfflineAudioContext_frames (len : number) :
  WebAudio.newOfflineAudioContext 1 len 24000
  = if (WebAudio.ToUint32 len =? 0)%Z
    then Throw (HostError NotSupportedError)
    else Ok {| WebAudio.ctx_numberOfChannels := 1;
               WebAudio.ctx_length := Z.to_nat (WebAudio.ToUint32 len);
               WebAudio.ctx_sampleRate := 24000;
               WebAudio.ctx_sources := [] |}.
Proof.
  unfold WebAudio.newOfflineAudioContext. pose proof (ToUint32_range len) as R.
  destruct (Z.eqb_spec (WebAudio.ToUint32 len) 0) as [E | E].
  - rewrite E. reflexivity.
  - destruct (Z.to_nat (WebAudio.ToUint32 len) =? 0)%nat eqn:N;
      [apply Nat.eqb_eq in N; lia | reflexivity].
Qed.

(** Starting the sources keeps the size of the context, and succeeds
    when no start time is negative. *)
Lemma startSources_Ok (ds : list (WebAudio.AudioBuffer * Q)) ctx :
  Forall (fun seg => 0 <= snd seg) ds ->
  exists ctx',
    fold_left
      (fun c seg => let! c := c in WebAudio.startSource c (fst seg) (snd seg))
      ds (Ok ctx) = Ok ctx'
    /\ WebAudio.ctx_length ctx' = WebAudio.ctx_length ctx
    /\ WebAudio.ctx_numberOfChannels ctx' = WebAudio.ctx_numberOfChannels ctx
    /\ WebAudio.ctx_sampleRate ctx' = WebAudio.ctx_sampleRate ctx.
Proof.
  revert ctx. induction ds as [| d ds IH]; intros ctx Hds; simpl.
  - eauto.
  - apply Forall_cons_1 in Hds as [Hd Hds].
    assert (E : Qltb (snd d) 0 = false) by (apply Qltb_ge; exact Hd).
    cbn [bind]. unfold WebAudio.startSource at 2. rewrite E.
    match goal with
    | |- context [fold_left _ ds (Ok ?c)] =>
        destruct (IH c Hds) as (ctx' & -> & H1 & H2 & H3)
    end.
    exists ctx'. repeat split; assumption.
Qed.

(** The rendered track, for use in the facts about [stitchAudio]. *)
Lemma renderSegments_track (ds : list (WebAudio.AudioBuffer * Q)) (M : Q) :
  Forall (fun seg => WebAudio.sampleRate (fst seg) = 24000
                     /\ (1 <= WebAudio.length (fst seg))%nat
                     /\ 0 <= snd seg) ds ->
  (exists seg, In seg ds /\ endTime seg = Fin M) ->
  (forall seg, In seg ds -> exists e, endTime seg = Fin e /\ e <= M) ->
  let frames := WebAudio.ToUint32 (Math_ceil (fmul (Fin M) (Fin 24000))) in
  match renderSegments render ds with
  | Ok track =>
      frames <> 0%Z
      /\ Z.of_nat (WebAudio.length track) = frames
      /\ WebAudio.numberOfChannels track = 1%nat
      /\ WebAudio.sampleRate track = 24000
  | Throw e => frames = 0%Z /\ e = HostError NotSupportedError
  end.
Proof.
  intros Hds Hex Hub frames.
  unfold renderSegments. rewrite (maxEndTime_max ds M Hds Hex Hub).
  rewrite newOfflineAudioContext_frames. fold frames.
  pose proof (ToUint32_range (Math_ceil (fmul (Fin M) (Fin 24000)))) as R.
  fold frames in R.
  destruct (Z.eqb_spec frames 0) as [E | E].
  - cbn [bind]. split; [exact E | reflexivity].
  - cbn [bind].
    match goal with
    | |- context [fold_left _ ds (Ok ?c)] =>
        destruct (startSources_Ok ds c) as (ctx' & -> & H1 & H2 & H3)
    end.
    { eapply List.Forall_impl; [| exact Hds]. simpl. tauto. }
    cbn [bind]. unfold startRendering, WebAudio.numberOfChannels.
    cbn [WebAudio.length WebAudio.channels WebAudio.sampleRate].
    cbn [WebAudio.ctx_length WebAudio.ctx_numberOfChannels WebAudio.ctx_sampleRate]
      in H1, H2, H3.
    rewrite H1, H2, H3. rewrite length_map, length_seq.
    repeat split; [exact E | lia].
Qed.

(** C3 (as amended).  For decoded segments as [decodeAudioData] returns
    them (24 kHz, at least one frame) with start times that are not
    negative, let [M] be the largest of their end times, each the
    double-precision sum of the start time and of the duration.  The
    rendered track has [Math.ceil (M * 24000)] frames, the product taken
    in double precision and the count reduced modulo 2^32, on one channel
    at 24 kHz; when that count is 0 there is no track and the host's
    [NotSupportedError] is raised.  The list is not empty since [M] is
    the end time of one of its segments. *)
Theorem renderSegments_frameCount (ds : list (WebAudio.AudioBuffer * Q)) (M : Q) :
  Forall (fun seg => WebAudio.sampleRate (fst seg) = 24000
                     /\ (1 <= WebAudio.length (fst seg))%nat
                     /\ 0 <= snd seg) ds ->
  (exists seg, In seg ds /\ endTime seg = Fin M) ->
  (forall seg, In seg ds -> exists e, endTime seg = Fin e /\ e <= M) ->
  let frames := WebAudio.ToUint32 (Math_ceil (fmul (Fin M) (Fin 24000))) in
  match renderSegments render ds with
  | Ok track =>
      frames <> 0%Z
      /\ Z.of_nat (WebAudio.length track) = frames
      /\ WebAudio.numberOfChannels track = 1%nat
      /\ WebAudio.sampleRate track = 24000
  | Throw e => frames = 0%Z /\ e = HostError NotSupportedError
  end.
Proof. exact (renderSegments_track ds M). Qed.

(** What [decodeSegments] returns meets the conditions above on the
    buffers, and keeps the start times in order. *)
Lemma decodeAudioData_Ok (data : list Z) (rate : Q) (numChannels : nat) b :
  decodeAudioData data rate numChannels = Ok b ->
  WebAudio.sampleRate b = rate /\ (1 <= WebAudio.length b)%nat.
Proof.
  unfold decodeAudioData. cbv zeta.
  destruct (Int16Array data) as [d |]; [| discriminate].
  cbn [bind].
  destruct (WebAudio.createBuffer numChannels _ rate) as [b0 |] eqn:E; [| discriminate].
  cbn [bind]. intros [= <-].
  pose proof E as E'. apply createBuffer_shaped in E' as [Hs Hr].
  split.
  - rewrite channels_rate. exact Hr.
  - pose proof (channels_shaped
                  (fun ch j => decodeSample d (j * numChannels + ch)) _ _
                  (indicesBelow (div (of_Z (Z.of_nat (List.length d)))
                                     (of_Z (Z.of_nat numChannels))))
                  (seq 0 numChannels) b0 Hs) as (Hl & _).
    etransitivity; [| apply Nat.eq_le_incl; symmetry; exact Hl].
    unfold WebAudio.createBuffer in E.
    destruct (Z.to_nat _ =? 0)%nat eqn:E0 in E.
    + rewrite orb_true_r in E. discriminate.
    + apply Nat.eqb_neq in E0. lia.
Qed.

Lemma sequence_Ok_In {A} (rs : list (result A)) (l : list A) :
  sequence rs = Ok l -> forall a, In a l -> In (Ok a) rs.
Proof.
  revert l. induction rs as [| r rs IH]; intros l; simpl.
  - intros [= <-] a [].
  - destruct r as [a0 |]; [| discriminate]. cbn [bind].
    destruct (sequence rs) as [l' |]; [| discriminate]. cbn [bind].
    intros [= <-] a [<- | Hin]; [left; reflexivity | right; eapply IH; eauto].
Qed.

Lemma decodeSegments_Ok (segments : list Segment) ds :
  decodeSegments atob segments = Ok ds ->
  Forall (fun seg => 0 <= startTime seg) segments ->
  Forall (fun seg => WebAudio.sampleRate (fst seg) = 24000
                     /\ (1 <= WebAudio.length (fst seg))%nat
                     /\ 0 <= snd seg) ds.
Proof.
  unfold decodeSegments.
  destruct (sequence (List.map _ segments)) as [audioBytes |]; [| discriminate].
  cbn [bind].
  destruct (sequence (List.map _ audioBytes)) as [buffers |] eqn:E; [| discriminate].
  cbn [bind]. intros [= <-] Hstart.
  apply List.Forall_forall. intros [b t] Hin. simpl.
  pose proof (in_combine_l _ _ _ _ Hin) as Hb.
  pose proof (in_combine_r _ _ _ _ Hin) as Ht.
  apply (sequence_Ok_In _ _ E) in Hb. apply in_map_iff in Hb as (bytes & Hdec & _).
  apply decodeAudioData_Ok in Hdec as [Hr Hl].
  apply in_map_iff in Ht as (seg & <- & Hseg).
  rewrite List.Forall_forall in Hstart. auto.
Qed.

(** The frame count through the whole of [stitchAudio]. *)
Lemma stitchAudio_frameCount (segments : list Segment) ds (M : Q) :
  decodeSegments atob segments = Ok ds ->
  Forall (fun seg => 0 <= startTime seg) segments ->
  (exists seg, In seg ds /\ endTime seg = Fin M) ->
  (forall seg, In seg ds -> exists e, endTime seg = Fin e /\ e <= M) ->
  WebAudio.ToUint32 (Math_ceil (fmul (Fin M) (Fin 24000))) <> 0%Z ->
  exists track,
    stitchAudio atob render segments = Ok (bufferToWav track)
    /\ Z.of_nat (WebAudio.length track)
       = WebAudio.ToUint32 (Math_ceil (fmul (Fin M) (Fin 24000)))
    /\ WebAudio.numberOfChannels track = 1%nat.
Proof.
  intros Hdec Hstart Hex Hub Hframes.
  pose proof (renderSegments_track ds M (decodeSegments_Ok _ _ Hdec Hstart) Hex Hub)
    as H.
  cbv zeta in H. unfold stitchAudio. rewrite Hdec. cbn [bind].
  destruct (renderSegments render ds) as [track | e].
  - destruct H as (_ & Hl & Hn & _). exists track. cbn [bind]. auto.
  - destruct H as [H0 _]. contradiction.
Qed.

(** C2 (as amended).  Stitching the empty list of segments fails, on
    every host: [maxDuration] stays 0, the offline context is asked for
    [Math.ceil (0 * 24000) = 0] frames, and the host rejects that length
    with [NotSupportedError]. *)
Theorem stitchAudio_empty :
  stitchAudio atob render [] = Throw (HostError NotSupportedError).
Proof. reflexivity. Qed.

End Compositor.

Lemma renderSegments_frameCount_witness :
  exists track,
    App.renderSegments Host.render Host.scenario = JS.Ok track
    /\ Z.of_nat (WebAudio.length track) = 60000%Z
    /\ WebAudio.numberOfChannels track = 1%nat
    /\ WebAudio.sampleRate track = 24000%Q.
Proof.
  assert (H1 : Forall (fun seg => WebAudio.sampleRate (fst seg) = 24000%Q
                                  /\ (1 <= WebAudio.length (fst seg))%nat
                                  /\ (0 <= snd seg)%Q) Host.scenario).
  { unfold Host.scenario, Host.silence.
    repeat (apply List.Forall_cons;
            [split; [reflexivity
                    | split; [apply Nat.leb_le; vm_compute; reflexivity
                             | vm_compute; discriminate]] |]).
    apply List.Forall_nil. }
  assert (H2 : exists seg, In seg Host.scenario
                           /\ App.endTime seg = JS.Fin (5 # 2)).
  { eexists. split; [right; right; left; reflexivity | vm_compute; reflexivity]. }
  assert (H3 : forall seg, In seg Host.scenario ->
                           exists e, App.endTime seg = JS.Fin e /\ (e <= 5 # 2)%Q).
  { intros seg [<- | [<- | [<- | []]]]; eexists;
      (split; [vm_compute; reflexivity | vm_compute; discriminate]). }
  pose proof (renderSegments_frameCount Host.render Host.scenario (5 # 2) H1 H2 H3)
    as H.
  cbv zeta in H.
  assert (F : WebAudio.ToUint32 (JS.Math_ceil (JS.fmul (JS.Fin (5 # 2)) (JS.Fin 24000)))
              = 60000%Z) by (vm_compute; reflexivity).
  rewrite F in H.
  destruct (App.renderSegments Host.render Host.scenario) as [track | e].
  - exists track. destruct H as (_ & Hl & Hn & Hr). auto.
  - destruct H as [H0 _]. discriminate H0.
Defined.

(** C3 (counterexample).  One clip of 1200 frames placed at 0.5 s ends
    at 0.55 s and [ceil (24000 * 0.55)] is 13200, but neither 0.05 nor
    0.55 is a binary64 value and the rounded product is just above 13200:
    the track has 13201 frames. *)
Lemma renderSegments_frameCount_rounded :
  exists track,
    App.renderSegments Host.render [(Host.silence 1200, (1 # 2)%Q)] = JS.Ok track
    /\ Z.of_nat (WebAudio.length track) = 13201%Z
    /\ Z.of_nat (WebAudio.length track)
       <> Qceiling (24000 * ((1 # 2) + (1200 # 24000))).
Proof.
  set (ds := [(Host.silence 1200, (1 # 2)%Q)]).
  set (M := (2476979795053773 # 4503599627370496)%Q).
  assert (H1 : Forall (fun seg => WebAudio.sampleRate (fst seg) = 24000%Q
                                  /\ (1 <= WebAudio.length (fst seg))%nat
                                  /\ (0 <= snd seg)%Q) ds).
  { apply List.Forall_cons; [| apply List.Forall_nil].
    split; [reflexivity |].
    split; [apply Nat.leb_le; vm_compute; reflexivity | vm_compute; discriminate]. }
  assert (H2 : exists seg, In seg ds /\ App.endTime seg = JS.Fin M).
  { eexists. split; [left; reflexivity | vm_compute; reflexivity]. }
  assert (H3 : forall seg, In seg ds ->
                           exists e, App.endTime seg = JS.Fin e /\ (e <= M)%Q).
  { intros seg [<- | []]. eexists.
    split; [vm_compute; reflexivity | vm_compute; discriminate]. }
  pose proof (renderSegments_track Host.render ds M H1 H2 H3) as H.
  cbv zeta in H.
  assert (F : WebAudio.ToUint32 (JS.Math_ceil (JS.fmul (JS.Fin M) (JS.Fin 24000)))
              = 13201%Z) by (vm_compute; reflexivity).
  rewrite F in H.
  destruct (App.renderSegments Host.render ds) as [track | e].
  - exists track. destruct H as (_ & Hl & _).
    split; [reflexivity |]. split; [exact Hl |].
    rewrite Hl. vm_compute. discriminate.
  - destruct H as [H0 _]. discriminate H0.
Qed.

(** C2 (counterexample).  On the reference host, stitching no segment
    yields no asset. *)
Lemma stitchAudio_empty_no_asset :
  ~ exists blob, App.stitchAudio Host.atob Host.render [] = JS.Ok blob.
Proof. intros [blob H]. discriminate H. Qed.

(* ================================================================== *)
(** * Properties of the sync controller                                *)
(* ================================================================== *)

Section SyncController.
Import JS DubbedVideoPlayer.
Local Open Scope Q_scope.

(** The drift test in terms of the exact drift: the rounded difference
    exceeds 0.25 exactly when the exact one exceeds 0.25 + 2^-55, the
    midpoint of 0.25 and the next binary64 value. *)
Lemma drifted_spec videoTime audioTime :
  drifted videoTime audioTime = true
  <-> (1 # 4) + (1 # 36028797018963968) < Qabs (videoTime - audioTime).
Proof.
  unfold drifted, fsub. cbn [neg add rounded]. unfold Qminus.
  generalize (videoTime + - audioTime). intros x. unfold round64.
  destruct (Z.compare_spec (Qnum x) 0) as [E | E | E].
  - destruct x as [n d]. simpl in E. subst n.
    split; [discriminate |]. unfold Qlt. simpl. lia.
  - assert (Hx : 0 < - x) by (unfold Qlt; simpl; lia).
    assert (Ax : Qabs x == - x).
    { apply Qabs_neg. unfold Qle. simpl. lia. }
    pose proof (roundMagnitude_quarter (- x) Hx) as Q4.
    pose proof (roundMagnitude_nonneg (- x)) as N.
    destruct (roundMagnitude (- x)) as [r |].
    + specialize (N r Hx eq_refl). cbn [Math_abs ltb].
      rewrite Qltb_lt, Qabs_opp, (Qabs_pos r N), Ax. exact Q4.
    + cbn [Math_abs ltb]. rewrite Ax. tauto.
  - assert (Hx : 0 < x) by (unfold Qlt; simpl; lia).
    assert (Ax : Qabs x == x) by (apply Qabs_pos, Qlt_le_weak, Hx).
    pose proof (roundMagnitude_quarter x Hx) as Q4.
    pose proof (roundMagnitude_nonneg x) as N.
    destruct (roundMagnitude x) as [r |].
    + specialize (N r Hx eq_refl). cbn [Math_abs ltb].
      rewrite Qltb_lt, (Qabs_pos r N), Ax. exact Q4.
    + cbn [Math_abs ltb]. rewrite Ax. tauto.
Qed.

Lemma drifted_true videoTime audioTime :
  drifted videoTime audioTime = true
  <-> (1 # 4) + (1 # 36028797018963968) < Qabs (videoTime - audioTime).
Proof. apply drifted_spec. Qed.

Lemma drifted_false videoTime audioTime :
  drifted videoTime audioTime = false
  <-> Qabs (videoTime - audioTime) <= (1 # 4) + (1 # 36028797018963968).
Proof.
  pose proof (drifted_spec videoTime audioTime) as H.
  destruct (drifted videoTime audioTime).
  - split; [discriminate |]. intros L. exfalso.
    apply (Qlt_not_le _ _ (proj1 H eq_refl) L).
  - split; [intros _ | reflexivity].
    apply Qnot_lt_le. intros L. apply H in L. discriminate L.
Qed.

(** C6 (as amended).  On a check that finds both elements attached and
    the video not paused, the drift is the double-precision difference
    of the two positions.  A drift of at most 0.25 s, and any drift
    whose rounded value is 0.25 (an exact drift of at most
    0.25 + 2^-55 s), leaves the audio element as it is; a larger drift
    sets the audio position to the video position; either way the video
    element is untouched and the next check is scheduled. *)
Theorem syncLoop_correction (p : Player) (video audio : MediaElement) :
  videoRef p = Some video -> audioRef p = Some audio -> paused video = false ->
  (Qabs (currentTime video - currentTime audio) <= (1 # 4) + (1 # 36028797018963968) ->
   audioRef (syncLoop p) = Some audio)
  /\ ((1 # 4) + (1 # 36028797018963968) < Qabs (currentTime video - currentTime audio) ->
      audioRef (syncLoop p) = Some (setCurrentTime (currentTime video) audio))
  /\ videoRef (syncLoop p) = Some video
  /\ scheduled (syncLoop p) = scheduled p ++ [nextHandle p].
Proof.
  intros Hv Ha Hp. unfold syncLoop. rewrite Hv, Ha, Hp. simpl negb. cbv iota.
  destruct (drifted (currentTime video) (currentTime audio)) eqn:E.
  - apply drifted_true in E. repeat split; simpl; auto.
    intros H. exfalso. apply (Qlt_not_le _ _ E H).
  - apply drifted_false in E. repeat split; simpl; auto.
    intros H. exfalso. apply (Qlt_not_le _ _ H E).
Qed.

Lemma syncLoop_correction_witness :
  audioRef (syncLoop (handlePlay (mounted {| currentTime := 10; paused := false |}
                                          {| currentTime := 3; paused := true |})))
  = Some {| currentTime := 10; paused := false |}
  /\ audioRef (syncLoop
                 (setTransports {| currentTime := 10; paused := false |}
                                {| currentTime := 39 # 4; paused := false |}
                    (mounted {| currentTime := 0; paused := true |}
                             {| currentTime := 0; paused := true |})))
     = Some {| currentTime := 39 # 4; paused := false |}
  /\ audioRef (syncLoop
                 (setTransports {| currentTime := 10; paused := false |}
                                {| currentTime := 19 # 2; paused := false |}
                    (mounted {| currentTime := 0; paused := true |}
                             {| currentTime := 0; paused := true |})))
     = Some {| currentTime := 10; paused := false |}.
Proof.
  split; [| split].
  - match goal with
    | |- audioRef (syncLoop ?p) = _ =>
        apply (proj1 (syncLoop_correction p {| currentTime := 10; paused := false |}
                        {| currentTime := 10; paused := false |}
                        eq_refl eq_refl eq_refl))
    end.
    vm_compute. discriminate.
  - match goal with
    | |- audioRef (syncLoop ?p) = _ =>
        apply (proj1 (syncLoop_correction p {| currentTime := 10; paused := false |}
                        {| currentTime := 39 # 4; paused := false |}
                        eq_refl eq_refl eq_refl))
    end.
    vm_compute. discriminate.
  - match goal with
    | |- audioRef (syncLoop ?p) = _ =>
        apply (proj1 (proj2 (syncLoop_correction p
                               {| currentTime := 10; paused := false |}
                               {| currentTime := 19 # 2; paused := false |}
                               eq_refl eq_refl eq_refl)))
    end.
    reflexivity.
Defined.

(** C6 (counterexample).  With the video at 0.25 + 2^-54 s and the audio
    at 2^-55 + 2^-60 s, both binary64 values, the drift exceeds 0.25 s,
    but the difference is rounded to 0.25 and the check leaves the audio
    position where it is. *)
Lemma syncLoop_correction_margin :
  let video := {| currentTime := 4503599627370497 # 18014398509481984;
                  paused := false |} in
  let audio := {| currentTime := 33 # 1152921504606846976; paused := false |} in
  let p := setTransports video audio
             (mounted {| currentTime := 0; paused := true |}
                      {| currentTime := 0; paused := true |}) in
  1 # 4 < Qabs (currentTime video - currentTime audio)
  /\ audioRef (syncLoop p) = Some audio
  /\ audioRef (syncLoop p) <> Some (setCurrentTime (currentTime video) audio).
Proof.
  intros video audio p.
  split; [reflexivity |].
  assert (E : audioRef (syncLoop p) = Some audio) by (vm_compute; reflexivity).
  split; [exact E |]. rewrite E. intros H. injection H as H. discriminate H.
Qed.

(** C7.  The [seeked] handler sets the audio position to the video
    position whenever both elements are attached; the drift is not
    looked at, and nothing else changes. *)
Theorem handleSeeked_resync (p : Player) (video audio : MediaElement) :
  videoRef p = Some video -> audioRef p = Some audio ->
  handleSeeked p = setAudio (setCurrentTime (currentTime video) audio) p
  /\ audioRef (handleSeeked p)
     = Some {| currentTime := currentTime video; paused := paused audio |}
  /\ videoRef (handleSeeked p) = Some video.
Proof.
  intros Hv Ha. unfold handleSeeked. rewrite Hv, Ha.
  repeat split. simpl. exact Hv.
Qed.

Lemma handleSeeked_resync_witness :
  audioRef (handleSeeked
              (mounted {| currentTime := 5; paused := true |}
                       {| currentTime := 501 # 100; paused := true |}))
  = Some {| currentTime := 5; paused := true |}.
Proof.
  match goal with
  | |- audioRef (handleSeeked ?p) = _ =>
      apply (proj1 (proj2 (handleSeeked_resync p {| currentTime := 5; paused := true |}
                             {| currentTime := 501 # 100; paused := true |}
                             eq_refl eq_refl)))
  end.
Defined.

(** ** The scheduling invariant *)

Lemma cancelPending_single (p : Player) :
  single_token p -> scheduled (cancelPending p) = [].
Proof.
  intros [H | (h & Hid & Hs)]; unfold cancelPending.
  - destruct (animationFrameId p) as [[| h] |]; simpl; rewrite ?H; reflexivity.
  - rewrite Hid. simpl. rewrite Hs. simpl. rewrite Nat.eqb_refl. reflexivity.
Qed.

Lemma cancelPending_fields (p : Player) :
  videoRef (cancelPending p) = videoRef p
  /\ audioRef (cancelPending p) = audioRef p
  /\ listening (cancelPending p) = listening p
  /\ nextHandle (cancelPending p) = nextHandle p.
Proof.
  unfold cancelPending. destruct (animationFrameId p) as [[| h] |]; repeat split.
Qed.

Lemma requestAnimationFrame_single (p : Player) :
  scheduled p = [] -> (1 <= nextHandle p)%nat ->
  single_token (requestAnimationFrame p).
Proof.
  intros Hs Hn. right. destruct (nextHandle p) as [| h] eqn:E; [lia |].
  exists h. unfold requestAnimationFrame. simpl. rewrite Hs, E. split; reflexivity.
Qed.

Lemma handlePlay_invariant (p : Player) : invariant p -> invariant (handlePlay p).
Proof.
  intros (Hs & Hn & Ha). unfold handlePlay.
  destruct (videoRef p) as [video |] eqn:Ev; [| exact (conj Hs (conj Hn Ha))].
  destruct (audioRef p) as [audio |] eqn:Ea; [| exact (conj Hs (conj Hn Ha))].
  set (q := setAudio _ p).
  assert (Hq : single_token q) by exact Hs.
  destruct (cancelPending_fields q) as (F1 & F2 & F3 & F4).
  split; [| split].
  - apply requestAnimationFrame_single;
      [apply cancelPending_single, Hq | rewrite F4; exact Hn].
  - simpl. rewrite F4. simpl. lia.
  - intros _. simpl. rewrite F1, F2. simpl. rewrite Ev. split; eauto.
Qed.

Lemma handlePauseOrEnd_invariant (p : Player) :
  invariant p -> invariant (handlePauseOrEnd p).
Proof.
  intros (Hs & Hn & Ha). unfold handlePauseOrEnd.
  destruct (audioRef p) as [audio |] eqn:Ea; [| exact (conj Hs (conj Hn Ha))].
  set (q := setAudio _ p).
  assert (Hq : single_token q) by exact Hs.
  destruct (cancelPending_fields q) as (F1 & F2 & F3 & F4).
  split; [| split].
  - left. apply cancelPending_single, Hq.
  - rewrite F4. exact Hn.
  - intros L. rewrite F3 in L. rewrite F1, F2. simpl.
    destruct (Ha L) as [Hv _]. split; eauto.
Qed.

Lemma handleSeeked_invariant (p : Player) : invariant p -> invariant (handleSeeked p).
Proof.
  intros (Hs & Hn & Ha). unfold handleSeeked.
  destruct (videoRef p) as [video |] eqn:Ev; [| exact (conj Hs (conj Hn Ha))].
  destruct (audioRef p) as [audio |] eqn:Ea; [| exact (conj Hs (conj Hn Ha))].
  split; [exact Hs | split; [exact Hn |]].
  intros _. simpl. rewrite Ev. split; eauto.
Qed.

Lemma syncLoop_invariant (p : Player) :
  scheduled p = [] -> (1 <= nextHandle p)%nat -> attached p -> invariant (syncLoop p).
Proof.
  intros Hs Hn Ha. unfold syncLoop.
  destruct (videoRef p) as [video |] eqn:Ev;
    [| split; [left; exact Hs | split; assumption]].
  destruct (audioRef p) as [audio |] eqn:Ea;
    [| split; [left; exact Hs | split; assumption]].
  destruct (negb (paused video)); [| split; [left; exact Hs | split; assumption]].
  destruct (drifted _ _).
  - split; [apply requestAnimationFrame_single; assumption |].
    split; [simpl; lia |]. intros _. simpl. rewrite Ev. split; eauto.
  - split; [apply requestAnimationFrame_single; assumption |].
    split; [simpl; lia |]. intros _. simpl. rewrite Ev, Ea. split; eauto.
Qed.

Lemma runFrame_invariant (p : Player) (h : nat) :
  invariant p -> In h (scheduled p) -> invariant (runFrame h p).
Proof.
  intros (Hs & Hn & Ha) Hin. unfold runFrame. apply syncLoop_invariant.
  - destruct Hs as [Hs | (h' & _ & Hs)]; [rewrite Hs in Hin; destruct Hin |].
    rewrite Hs in Hin. destruct Hin as [<- | []].
    simpl. rewrite Hs. simpl. rewrite Nat.eqb_refl. reflexivity.
  - exact Hn.
  - exact Ha.
Qed.

Lemma cleanup_invariant (p : Player) : invariant p -> invariant (cleanup p).
Proof.
  intros (Hs & Hn & Ha). unfold cleanup.
  destruct (cancelPending_fields p) as (F1 & F2 & F3 & F4).
  split; [| split].
  - left. simpl. apply cancelPending_single, Hs.
  - simpl. rewrite F4. exact Hn.
  - intros L. discriminate L.
Qed.

Lemma step_invariant (p p' : Player) (e : event) :
  invariant p -> step p e p' -> invariant p'.
Proof.
  intros Hp Hstep. destruct Hstep.
  - apply handlePlay_invariant, Hp.
  - apply handlePauseOrEnd_invariant, Hp.
  - apply handlePauseOrEnd_invariant, Hp.
  - apply handleSeeked_invariant, Hp.
  - apply runFrame_invariant; assumption.
  - destruct Hp as (Hs & Hn & Ha). split; [exact Hs | split; [exact Hn |]].
    intros _. simpl. split; eauto.
  - destruct Hp as (Hs & Hn & Ha). split; [exact Hs | split; [simpl; lia | exact Ha]].
  - apply cleanup_invariant, Hp.
Qed.

Lemma reachable_invariant (p : Player) : reachable p -> invariant p.
Proof.
  induction 1 as [video audio | p e p' _ IH Hstep].
  - split; [left; reflexivity | split; [simpl; lia |]].
    intros _. simpl. split; eauto.
  - eapply step_invariant; eassumption.
Qed.

(** C8.  In every state the player can reach, at most one frame
    callback is scheduled.  From such a state the [play] handler leaves
    exactly the callback it has just requested, and the [pause] and
    [ended] handler and the cleanup of the effect leave none. *)
Theorem single_scheduled_check (p : Player) :
  reachable p ->
  (List.length (scheduled p) <= 1)%nat
  /\ (listening p = true ->
      scheduled (handlePlay p) = [nextHandle p]
      /\ scheduled (handlePauseOrEnd p) = [])
  /\ scheduled (cleanup p) = [].
Proof.
  intros Hr. destruct (reachable_invariant p Hr) as (Hs & Hn & Ha).
  split; [| split].
  - destruct Hs as [-> | (h & _ & ->)]; simpl; lia.
  - intros L. destruct (Ha L) as [[video Ev] [audio Ea]]. split.
    + unfold handlePlay. rewrite Ev, Ea.
      set (q := setAudio _ p).
      assert (Hq : single_token q) by exact Hs.
      destruct (cancelPending_fields q) as (_ & _ & _ & F4).
      simpl. rewrite (cancelPending_single q Hq), F4. reflexivity.
    + unfold handlePauseOrEnd. rewrite Ea.
      apply cancelPending_single. exact Hs.
  - simpl. apply cancelPending_single, Hs.
Qed.

End SyncController.

Lemma single_scheduled_check_witness :
  let video := {| DubbedVideoPlayer.currentTime := 0%Q; DubbedVideoPlayer.paused := false |} in
  let audio := {| DubbedVideoPlayer.currentTime := 0%Q; DubbedVideoPlayer.paused := true |} in
  let p := DubbedVideoPlayer.runFrame 1
             (DubbedVideoPlayer.handlePlay (DubbedVideoPlayer.mounted video audio)) in
  DubbedVideoPlayer.scheduled p = [2%nat]
  /\ (List.length (DubbedVideoPlayer.scheduled p) <= 1)%nat
  /\ (DubbedVideoPlayer.listening p = true ->
      DubbedVideoPlayer.scheduled (DubbedVideoPlayer.handlePlay p)
      = [DubbedVideoPlayer.nextHandle p]
      /\ DubbedVideoPlayer.scheduled (DubbedVideoPlayer.handlePauseOrEnd p) = [])
  /\ DubbedVideoPlayer.scheduled (DubbedVideoPlayer.cleanup p) = [].
Proof.
  intros video audio p. split; [reflexivity |].
  apply (single_scheduled_check p).
  eapply DubbedVideoPlayer.reachable_step
    with (e := DubbedVideoPlayer.Frame 1).
  - eapply DubbedVideoPlayer.reachable_step
      with (e := DubbedVideoPlayer.Play).
    + apply (DubbedVideoPlayer.reachable_mounted video audio).
    + apply DubbedVideoPlayer.step_play. reflexivity.
  - apply DubbedVideoPlayer.step_frame. simpl. left. reflexivity.
Defined.

(* ================================================================== *)
(** * Properties of the synthesis handlers                             *)
(* ================================================================== *)

Section Handlers.
Import JS App.

Variable atob : jsstring -> result jsstring.
Variable render : WebAudio.OfflineAudioContext -> nat -> list number.
Variable generateSpeech : jsstring -> property -> result (option jsstring).
Variable createObjectURL : Blob -> jsstring.
Variable hostMessage : errname -> jsstring.

(** ** [trim] and the placeholder *)

Lemma trimStart_nil (t : jsstring) :
  trimStart t = [] <-> forallb isWhiteSpace t = true.
Proof.
  induction t as [| c t IH]; simpl; [tauto |].
  destruct (isWhiteSpace c); simpl; [exact IH |]. split; discriminate.
Qed.

Lemma trimStart_keeps (t : jsstring) :
  forallb isWhiteSpace t = false -> forallb isWhiteSpace (trimStart t) = false.
Proof.
  induction t as [| c t IH]; simpl; [discriminate |].
  destruct (isWhiteSpace c) eqn:E; simpl; [exact IH |].
  intros _. rewrite E. reflexivity.
Qed.

Lemma forallb_rev (f : N -> bool) (t : jsstring) : forallb f (rev t) = forallb f t.
Proof.
  induction t as [| c t IH]; simpl; [reflexivity |].
  rewrite forallb_app, IH. simpl. rewrite andb_true_r. apply andb_comm.
Qed.

(** [t.trim ()] is truthy exactly when [t] has a code unit that is not
    white space. *)
Lemma truthy_trim (t : jsstring) :
  truthy (trim t) = negb (forallb isWhiteSpace t).
Proof.
  unfold trim. destruct (forallb isWhiteSpace t) eqn:E.
  - apply trimStart_nil in E. rewrite E. reflexivity.
  - apply trimStart_keeps in E. rewrite <- forallb_rev in E.
    apply trimStart_keeps in E. rewrite <- forallb_rev in E.
    destruct (rev (trimStart (rev (trimStart t)))); [discriminate | reflexivity].
Qed.

Lemma finalText_spec (t : jsstring) :
  finalText t = if forallb isWhiteSpace t then lit "." else t.
Proof.
  unfold finalText. rewrite truthy_trim.
  destruct (forallb isWhiteSpace t); reflexivity.
Qed.

(** C10.  For a segment whose speaker has a voice, the text that
    [handleGenerateDub] and [handlePreviewSegment] pass to
    [generateSpeech] is built from the custom dialog of the segment when
    that is a non-empty string, and from the transcript text of the
    segment when there is no custom dialog or it is the empty string;
    the text so chosen is sent as it is unless it is empty or made of
    white space only, in which case "." is sent. *)
Theorem synthesized_text (s : State) (index : nat) (chunk : TimedChunk)
        (voice : property) (chosen : jsstring) :
  timedScript s !! index = Some chunk ->
  voiceId s (speaker chunk) = Some voice ->
  (exists custom : jsstring,
      customDialog s !! index = Some custom /\ custom <> [] /\ chosen = custom)
  \/ ((customDialog s !! index = None \/ customDialog s !! index = Some ([] : jsstring))
      /\ chosen = text chunk) ->
  let sent := if forallb isWhiteSpace chosen then lit "." else chosen in
  dubRequest s index chunk = Ok {| req_text := sent; req_voice := voice |}
  /\ previewRequest s index = Ok (inr {| req_text := sent; req_voice := voice |}).
Proof.
  intros Hchunk Hvoice Hchosen sent.
  assert (Ht : textToGenerate s index chunk = chosen).
  { unfold textToGenerate.
    destruct Hchosen as [(custom & Hc & Hne & ->) | [[Hc | Hc] ->]];
      rewrite Hc; try reflexivity.
    destruct custom; [contradiction | reflexivity]. }
  unfold dubRequest, previewRequest.
  rewrite Hchunk, Hvoice, Ht, finalText_spec. split; reflexivity.
Qed.

(** ** A speaker without a voice *)

Lemma dubRequest_Throw (s : State) (index : nat) (chunk : TimedChunk) e :
  dubRequest s index chunk = Throw e <->
  voiceId s (speaker chunk) = None /\ e = Error (noVoiceMessage (speaker chunk)).
Proof.
  unfold dubRequest, noVoiceMessage. destruct (voiceId s (speaker chunk)).
  - split; [discriminate | intros [H _]; discriminate H].
  - split; [intros [= <-]; split; reflexivity | intros [_ ->]; reflexivity].
Qed.

(** [Promise.all] over callbacks of which one has thrown at once: the
    rejection is that of the first such callback in order. *)
Lemma sequence_first_Throw {A B} (f : A -> result B) (l : list A) :
  (exists x e, In x l /\ f x = Throw e) ->
  exists x e, In x l /\ f x = Throw e /\ sequence (List.map f l) = Throw e.
Proof.
  induction l as [| a l IH]; intros (x & e & Hin & Hx); [destruct Hin |].
  simpl. destruct (f a) as [b | e'] eqn:Ea.
  - destruct Hin as [-> | Hin]; [congruence |].
    destruct (IH (ex_intro _ x (ex_intro _ e (conj Hin Hx)))) as (y & e2 & Hy & Hfy & Hs).
    exists y, e2. cbn [bind]. rewrite Hs. auto.
  - exists a, e'. auto.
Qed.

Lemma segmentsToGenerate_In (s : State) (index : nat) (chunk : TimedChunk) :
  In (index, chunk) (segmentsToGenerate s) <->
  timedScript s !! index = Some chunk /\ muted s index = false.
Proof.
  unfold segmentsToGenerate. rewrite filter_In. simpl.
  rewrite <- list_elem_of_In, elem_of_lookup_imap, negb_true_iff.
  split.
  - intros [(i & c & [= -> ->] & H) Hm]. auto.
  - intros [H Hm]. eauto.
Qed.

(** The fields that the handlers only read. *)
Lemma generateDub_missing_voice (s : State) :
  (exists index chunk, timedScript s !! index = Some chunk
                       /\ muted s index = false
                       /\ voiceId s (speaker chunk) = None) ->
  exists index chunk, timedScript s !! index = Some chunk
                      /\ muted s index = false
                      /\ voiceId s (speaker chunk) = None
                      /\ generateDub atob render generateSpeech createObjectURL s
                         = Throw (Error (noVoiceMessage (speaker chunk))).
Proof.
  intros (index & chunk & Hc & Hm & Hv).
  destruct (sequence_first_Throw (fun ic => dubRequest s (fst ic) (snd ic))
              (segmentsToGenerate s)) as ([i c] & e & Hin & Hthrow & Hseq).
  { exists (index, chunk), (Error (noVoiceMessage (speaker chunk))).
    split; [apply segmentsToGenerate_In; auto |].
    apply dubRequest_Throw. auto. }
  simpl in Hthrow. apply dubRequest_Throw in Hthrow as [Hv' ->].
  apply segmentsToGenerate_In in Hin as [Hc' Hm'].
  exists i, c. repeat split; try assumption.
  unfold generateDub. rewrite Hseq. reflexivity.
Qed.

(** When the voice test [!voiceId] holds for the speaker of some
    segment that is not muted (the lookup gave [undefined] or the empty
    string), [handleGenerateDub] ends with the dubbed-audio URL unset,
    the loading flag cleared, and the error message of the first such
    segment of the script, which names its speaker. *)
Lemma handleGenerateDub_missing_voice (s : State) (index : nat) (chunk : TimedChunk) :
  timedScript s !! index = Some chunk ->
  muted s index = false ->
  voiceId s (speaker chunk) = None ->
  let s' := handleGenerateDub atob render generateSpeech createObjectURL hostMessage s in
  dubbedAudioUrl s' = None
  /\ isLoading s' = false
  /\ exists index' chunk',
       timedScript s !! index' = Some chunk'
       /\ muted s index' = false
       /\ voiceId s (speaker chunk') = None
       /\ error s' = Some (lit "No voice selected for " ++ speaker chunk'
                           ++ lit ". Please select a voice.").
Proof.
  intros Hc Hm Hv s'. subst s'. unfold handleGenerateDub.
  destruct (timedScript s) as [| c0 script] eqn:Escript; [discriminate Hc |].
  cbn [List.length Nat.eqb]. rewrite <- Escript in *.
  set (s1 := setDubbedAudioUrl None _).
  destruct (generateDub_missing_voice s1) as (i & c & Hc' & Hm' & Hv' & ->).
  { exists index, chunk. auto. }
  split; [reflexivity |]. split; [reflexivity |].
  exists i, c. auto.
Qed.

(** A script whose segments are all muted reaches [stitchAudio] with
    no segment: the handler ends with the host's message for
    [NotSupportedError] and no dubbed audio. *)
Lemma handleGenerateDub_all_muted (s : State) :
  timedScript s <> [] ->
  segmentsToGenerate s = [] ->
  let s' := handleGenerateDub atob render generateSpeech createObjectURL hostMessage s in
  error s' = Some (hostMessage NotSupportedError) /\ dubbedAudioUrl s' = None.
Proof.
  intros Hne Hnone s'. subst s'. unfold handleGenerateDub.
  destruct (timedScript s) as [| c0 script] eqn:Escript; [contradiction |].
  cbn [List.length Nat.eqb]. rewrite <- Escript in *.
  set (s1 := setDubbedAudioUrl None _).
  assert (E : generateDub atob render generateSpeech createObjectURL s1
              = Throw (HostError NotSupportedError)).
  { unfold generateDub.
    change (segmentsToGenerate s1) with (segmentsToGenerate s).
    rewrite Hnone. reflexivity. }
  rewrite E. split; reflexivity.
Qed.

End Handlers.

Lemma synthesized_text_witness :
  let chunk := {| App.start := 0; App.end_ := 1;
                  App.text := JS.lit "Hello"; App.speaker := JS.lit "SPEAKER_01" |} in
  let s := {| App.timedScript := [chunk];
              App.customDialog := {[ 0%nat := ([] : JS.jsstring) ]};
              App.speakerVoiceMap := {[ JS.lit "SPEAKER_01" := JS.lit "Kore" ]};
              App.mutedSegments := ∅;
              App.isLoading := false; App.isSegmentLoading := None;
              App.error := None; App.translationError := None;
              App.dubbedAudioUrl := None |} in
  App.dubRequest s 0 chunk
  = JS.Ok {| App.req_text := JS.lit "Hello";
             App.req_voice := JS.Own (JS.lit "Kore") |}
  /\ App.previewRequest s 0
     = JS.Ok (inr {| App.req_text := JS.lit "Hello";
                     App.req_voice := JS.Own (JS.lit "Kore") |}).
Proof.
  intros chunk s.
  apply (synthesized_text s 0 chunk (JS.Own (JS.lit "Kore")) (JS.lit "Hello")).
  - reflexivity.
  - vm_compute. reflexivity.
  - right. split; [right; vm_compute; reflexivity | reflexivity].
Defined.

Lemma handleGenerateDub_missing_voice_witness :
  let first := {| App.start := 0; App.end_ := 1;
                  App.text := JS.lit "Hello"; App.speaker := JS.lit "SPEAKER_01" |} in
  let second := {| App.start := 1; App.end_ := 2;
                   App.text := JS.lit "Bye"; App.speaker := JS.lit "SPEAKER_02" |} in
  let s := {| App.timedScript := [first; second];
              App.customDialog := ∅;
              App.speakerVoiceMap := {[ JS.lit "SPEAKER_01" := JS.lit "Kore" ]};
              App.mutedSegments := ∅;
              App.isLoading := false; App.isSegmentLoading := None;
              App.error := None; App.translationError := None;
              App.dubbedAudioUrl := Some (JS.lit "blob:previous") |} in
  let s' := App.handleGenerateDub Host.atob Host.render Host.generateSpeech
              Host.createObjectURL Host.hostMessage s in
  App.error s' = Some (JS.lit "No voice selected for SPEAKER_02. Please select a voice.")
  /\ App.dubbedAudioUrl s' = None
  /\ App.isLoading s' = false.
Proof.
  intros first second s s'.
  destruct (handleGenerateDub_missing_voice Host.atob Host.render Host.generateSpeech
              Host.createObjectURL Host.hostMessage s 1 second)
    as (Hurl & Hload & _);
    [reflexivity | reflexivity | vm_compute; reflexivity |].
  split; [vm_compute; reflexivity | split; [exact Hurl | exact Hload]].
Defined.

(** C9 (defect).  A speaker without a voice whose name is a property
    of [Object.prototype] is not detected.  A transcript whose speaker is
    named [__proto__] gets no voice from the translation effect (the
    assignment on the fresh object creates no property), and
    [speakerVoiceMap["__proto__"]] is then the prototype object, which is
    truthy: [handleGenerateDub] raises no error, calls the synthesis
    service with that object as the voice, and produces a dubbed asset.
    So does a run on a script whose speaker is named [constructor] with
    an empty voice map. *)
Theorem handleGenerateDub_inherited_voice :
  let chunk name := {| App.start := 0; App.end_ := 1; App.text := JS.lit "Hello";
                       App.speaker := JS.lit name |} in
  let blank script := {| App.timedScript := script; App.customDialog := ∅;
                         App.speakerVoiceMap := ∅; App.mutedSegments := ∅;
                         App.isLoading := false; App.isSegmentLoading := None;
                         App.error := None; App.translationError := None;
                         App.dubbedAudioUrl := None |} in
  let st := {| Studio.synthesis := blank [];
               Studio.isTranslating := false;
               Studio.sourceFile :=
                 Some {| GeminiService.file_type := JS.lit "video/mp4";
                         GeminiService.file_bytes := [] |};
               Studio.targetLanguage := JS.lit "en" |} in
  let s := Studio.synthesis
             (Studio.autoTranslate (fun _ _ => JS.Ok [chunk "__proto__"%string])
                                   Host.hostMessage st) in
  let run s := App.handleGenerateDub Host.atob Host.render Host.generateSpeech
                 Host.createObjectURL Host.hostMessage s in
  (App.timedScript s = [chunk "__proto__"%string]
   /\ App.muted s 0 = false
   /\ App.speakerVoiceMap s !! JS.lit "__proto__" = None
   /\ App.dubRequest s 0 (chunk "__proto__"%string)
      = JS.Ok {| App.req_text := JS.lit "Hello";
                 App.req_voice := JS.Inherited (JS.lit "__proto__") |}
   /\ App.error (run s) = None
   /\ App.dubbedAudioUrl (run s) = Some (JS.lit "blob:dubbed-audio"))
  /\ (App.dubRequest (blank [chunk "constructor"%string]) 0 (chunk "constructor"%string)
      = JS.Ok {| App.req_text := JS.lit "Hello";
                 App.req_voice := JS.Inherited (JS.lit "constructor") |}
      /\ App.error (run (blank [chunk "constructor"%string])) = None
      /\ App.dubbedAudioUrl (run (blank [chunk "constructor"%string]))
         = Some (JS.lit "blob:dubbed-audio")).
Proof. vm_compute. repeat split. Qed.

(* ================================================================== *)
(** * Further properties of the encoder and of the decoder             *)
(* ================================================================== *)

Section EncoderFacts.
Import JS App.
Local Open Scope Q_scope.

Lemma truncate_mono p q : p <= q -> (truncate p <= truncate q)%Z.
Proof.
  intros Hpq.
  destruct (Qlt_le_dec p 0) as [Hp | Hp]; destruct (Qlt_le_dec q 0) as [Hq | Hq].
  - rewrite !truncate_nonpos by lra. apply Qceiling_resp_le, Hpq.
  - rewrite (truncate_nonpos p), (truncate_nonneg q) by lra.
    transitivity 0%Z.
    + apply (Qceiling_resp_le p 0). lra.
    + apply (Qfloor_resp_le 0 q). lra.
  - lra.
  - rewrite !truncate_nonneg by lra. apply Qfloor_resp_le, Hpq.
Qed.

Lemma scale_mid c :
  - (1 # 2) <= c <= 1 ->
  scale (Fin c) = truncate (c * 32767)
  /\ (-16383 <= truncate (c * 32767) <= 32767)%Z.
Proof.
  intros [H0 H1]. rewrite scale_Fin.
  assert (E : Qltb c (- (1 # 2)) = false) by (apply Qltb_ge; lra).
  rewrite E.
  assert (B : (-16383 <= truncate (c * 32767) <= 32767)%Z).
  { split.
    - apply (truncate_mono (- (1 # 2) * 32767) (c * 32767)). lra.
    - apply (truncate_mono (c * 32767) (1 * 32767)). lra. }
  split; [apply wrap32_small; lia | exact B].
Qed.

Lemma clamp_mono x y cx cy :
  x <= y -> clamp (Fin x) = Fin cx -> clamp (Fin y) = Fin cy -> cx <= cy.
Proof.
  unfold clamp, Math_min, Math_max, ltb. intros Hxy.
  destruct (Qltb x 1) eqn:X1; destruct (Qltb y 1) eqn:Y1;
    rewrite ?Qltb_lt, ?Qltb_ge in *.
  - destruct (Qltb (-1) x) eqn:X2; destruct (Qltb (-1) y) eqn:Y2;
      rewrite ?Qltb_lt, ?Qltb_ge in *; intros [= <-] [= <-]; lra.
  - destruct (Qltb (-1) x) eqn:X2; rewrite ?Qltb_lt, ?Qltb_ge in *;
      simpl; intros [= <-] [= <-]; lra.
  - lra.
  - simpl. intros [= <-] [= <-]. lra.
Qed.

Lemma encodeSample_bounds (x : number) :
  (-32768 <= encodeSample x <= 32767)%Z.
Proof.
  destruct x as [| [|] | x];
    [vm_compute; split; discriminate | vm_compute; split; discriminate
     | vm_compute; split; discriminate |].
  destruct (clamp_total x) as [c Hc]. pose proof (clamp_Fin _ _ Hc) as [Hlo Hhi].
  unfold encodeSample. rewrite Hc.
  destruct (Qlt_le_dec c (- (1 # 2))) as [H | H].
  - destruct (scale_below_half c (conj Hlo H)) as [-> B]. lia.
  - destruct (scale_mid c (conj H Hhi)) as [-> B]. lia.
Qed.

(** X1.  Whatever the sample (finite, infinite or [NaN]), the value
    handed to [setInt16] is a 16-bit signed integer: the write never
    wraps around. *)
Theorem encodeSample_int16 (x : number) :
  (-32768 <= encodeSample x <= 32767)%Z.
Proof. exact (encodeSample_bounds x). Qed.

(** X2.  The encoder keeps the order of finite samples: a larger sample
    is never written as a smaller integer, also across the switch of
    scale at -0.5 and across the clamp. *)
Theorem encodeSample_monotone (x y : Q) :
  x <= y -> (encodeSample (Fin x) <= encodeSample (Fin y))%Z.
Proof.
  intros Hxy.
  destruct (clamp_total x) as [cx Hx]. destruct (clamp_total y) as [cy Hy].
  pose proof (clamp_Fin _ _ Hx) as [Hxl Hxh].
  pose proof (clamp_Fin _ _ Hy) as [Hyl Hyh].
  pose proof (clamp_mono _ _ _ _ Hxy Hx Hy) as Hc.
  unfold encodeSample. rewrite Hx, Hy.
  destruct (Qlt_le_dec cx (- (1 # 2))) as [X | X];
    destruct (Qlt_le_dec cy (- (1 # 2))) as [Y | Y].
  - destruct (scale_below_half cx (conj Hxl X)) as [-> _].
    destruct (scale_below_half cy (conj Hyl Y)) as [-> _].
    apply Qceiling_resp_le. lra.
  - destruct (scale_below_half cx (conj Hxl X)) as [-> B].
    destruct (scale_mid cy (conj Y Hyh)) as [-> B']. lia.
  - lra.
  - destruct (scale_mid cx (conj X Hxh)) as [-> _].
    destruct (scale_mid cy (conj Y Hyh)) as [-> _].
    apply truncate_mono. lra.
Qed.

Lemma encodeSample_monotone_witness :
  (encodeSample (Fin (- (3 # 4))) <= encodeSample (Fin (- (1 # 4))))%Z.
Proof. apply (encodeSample_monotone (- (3 # 4)) (- (1 # 4))). discriminate. Defined.

Lemma flat_map_length_const {A B} (f : A -> list B) (k : nat) (l : list A) :
  (forall a, List.length (f a) = k) -> List.length (flat_map f l) = (k * List.length l)%nat.
Proof.
  intros Hf. induction l as [| a l IH]; simpl; [lia |].
  rewrite length_app, Hf, IH. lia.
Qed.

Lemma payload_length (buffer : WebAudio.AudioBuffer) :
  List.length (payload buffer)
  = (2 * WebAudio.numberOfChannels buffer * WebAudio.length buffer)%nat.
Proof.
  unfold payload.
  rewrite (flat_map_length_const _ (2 * WebAudio.numberOfChannels buffer)).
  - rewrite length_seq. reflexivity.
  - intros offset. rewrite (flat_map_length_const _ 2).
    + rewrite length_seq. reflexivity.
    + reflexivity.
Qed.

Lemma byte_mod z : (0 <= z mod 256 < 256)%Z.
Proof. apply Z.mod_pos_bound. lia. Qed.

Lemma setUint16_bytes z : Forall (fun b => (0 <= b < 256)%Z) (setUint16 z).
Proof. repeat constructor; apply byte_mod. Qed.

Lemma setUint32_bytes z : Forall (fun b => (0 <= b < 256)%Z) (setUint32 z).
Proof. repeat constructor; apply byte_mod. Qed.

Lemma Forall_flat_map {A B} (P : B -> Prop) (f : A -> list B) (l : list A) :
  (forall a, Forall P (f a)) -> Forall P (flat_map f l).
Proof.
  intros Hf. induction l as [| a l IH]; simpl; [constructor |].
  apply Forall_app. split; [apply Hf | exact IH].
Qed.

(** X3.  The layout of the WAV file: 44 header bytes followed by two
    bytes per sample, every element a byte; the RIFF size field holds the
    file length less 8 and the data size field the payload length, as
    [setUint32] writes them. *)
Theorem bufferToWav_layout (buffer : WebAudio.AudioBuffer) :
  let bytes :=
    (2 * WebAudio.numberOfChannels buffer * WebAudio.length buffer)%nat in
  List.length (bufferToWav buffer) = (44 + bytes)%nat
  /\ skipn 44 (bufferToWav buffer) = payload buffer
  /\ firstn 4 (skipn 4 (bufferToWav buffer)) = setUint32 (Z.of_nat (36 + bytes))
  /\ firstn 4 (skipn 40 (bufferToWav buffer)) = setUint32 (Z.of_nat bytes)
  /\ Forall (fun b => (0 <= b < 256)%Z) (bufferToWav buffer).
Proof.
  intros bytes.
  assert (E1 : (Z.of_nat (WebAudio.length buffer)
                * Z.of_nat (WebAudio.numberOfChannels buffer) * 2 + 44 - 8
                = Z.of_nat (36 + bytes))%Z) by (unfold bytes; lia).
  assert (E2 : (Z.of_nat (WebAudio.length buffer)
                * Z.of_nat (WebAudio.numberOfChannels buffer) * 2 + 44 - 40 - 4
                = Z.of_nat bytes)%Z) by (unfold bytes; lia).
  split; [| split; [| split; [| split]]].
  - unfold bufferToWav. rewrite !length_app, payload_length. reflexivity.
  - unfold bufferToWav, setUint32, setUint16. reflexivity.
  - unfold bufferToWav. cbv zeta. rewrite E1.
    unfold setUint32 at 1. reflexivity.
  - unfold bufferToWav. cbv zeta. rewrite E2.
    unfold setUint32 at 1 2 3 4 5 6 7 8, setUint16. reflexivity.
  - unfold bufferToWav.
    repeat (apply Forall_app; split);
      try apply setUint32_bytes; try apply setUint16_bytes.
    unfold payload. apply Forall_flat_map. intros offset.
    apply Forall_flat_map. intros i. apply setUint16_bytes.
Qed.

Lemma wrap16_bytes (n : Z) :
  (-32768 <= n <= 32767)%Z ->
  wrap 16 (n mod 256 + 256 * ((n / 2 ^ 8) mod 256)) = n.
Proof.
  intros Hn. unfold wrap.
  change (2 ^ 8)%Z with 256%Z. change (2 ^ 16)%Z with 65536%Z.
  change (2 ^ (16 - 1))%Z with 32768%Z.
  assert (E : (n mod 256 + 256 * ((n / 256) mod 256) = n mod 65536)%Z).
  { pose proof (Z.div_mod n 256 ltac:(lia)).
    pose proof (Z.div_mod (n / 256) 256 ltac:(lia)).
    pose proof (Z.mod_pos_bound n 256 ltac:(lia)).
    pose proof (Z.mod_pos_bound (n / 256) 256 ltac:(lia)).
    apply (Z.mod_unique n 65536 (n / 256 / 256)); lia. }
  rewrite E.
  pose proof (Z.mod_pos_bound n 65536 ltac:(lia)) as Hr.
  pose proof (Z.div_mod n 65536 ltac:(lia)) as Hz.
  rewrite (Z.mod_small (n mod 65536) 65536) by lia.
  destruct (Z.ltb_spec (n mod 65536) 32768); lia.
Qed.

Lemma Int16Array_flat_setInt16 (samples : list Z) :
  Forall (fun n => (-32768 <= n <= 32767)%Z) samples ->
  Int16Array (flat_map setInt16 samples) = Ok samples.
Proof.
  intros Hs.
  assert (Hlen : List.length (flat_map setInt16 samples)
                 = (2 * List.length samples)%nat)
    by (apply flat_map_length_const; reflexivity).
  unfold Int16Array. rewrite Hlen.
  replace (Nat.even (2 * List.length samples)) with true
    by (symmetry; apply Nat.even_spec; exists (List.length samples); lia).
  f_equal. clear Hlen.
  induction Hs as [| n samples Hn _ IH]; [reflexivity |].
  simpl. rewrite IH. f_equal. apply wrap16_bytes, Hn.
Qed.

(** X4.  Byte round trip: the 16-bit samples that [setInt16] writes in
    little-endian order are the elements that [new Int16Array] reads
    back from those bytes. *)
Theorem int16s_setInt16 (samples : list Z) :
  Forall (fun n => (-32768 <= n <= 32767)%Z) samples ->
  Int16Array (flat_map setInt16 samples) = Ok samples.
Proof. exact (Int16Array_flat_setInt16 samples). Qed.

Lemma int16s_setInt16_witness :
  Int16Array (flat_map setInt16 [-8191; 32767; -32768; 0]%Z)
  = Ok [-8191; 32767; -32768; 0]%Z.
Proof.
  apply (int16s_setInt16 [-8191; 32767; -32768; 0]%Z).
  repeat constructor; lia.
Defined.

(** Inside the open interval the clamp of line 80 returns its argument. *)
Lemma clamp_inside q : -1 < q -> q < 1 -> clamp (Fin q) = Fin q.
Proof.
  intros Hlo Hhi. unfold clamp, Math_min, Math_max, ltb.
  rewrite (proj2 (Qltb_lt q 1) Hhi), (proj2 (Qltb_lt (-1) q) Hlo). reflexivity.
Qed.

Lemma decoded_times_32768 (n : Z) : inject_Z n / 32768 * 32768 == inject_Z n.
Proof. unfold Qeq, Qdiv, Qmult, Qinv, inject_Z. simpl. lia. Qed.

Lemma decoded_times_32767 (n : Z) :
  inject_Z n / 32768 * 32767 == (n * 32767) # 32768.
Proof. unfold Qeq, Qdiv, Qmult, Qinv, inject_Z. simpl. lia. Qed.

(** The 16-bit sample that re-encoding a decoded sample gives. *)
Lemma reencode_value (n : Z) :
  (-32768 <= n <= 32767)%Z ->
  encodeSample (decodeSample [n] 0)
  = (if n <? -16384 then n
     else if n =? 0 then 0
          else if 0 <? n then n - 1 else n + 1)%Z.
Proof.
  intros Hn.
  destruct (Z.eq_dec n (-32768)%Z) as [-> | Hmin]; [vm_compute; reflexivity |].
  rewrite (decodeSample_in_range [n] 0 n eq_refl).
  assert (Hlo : -1 < inject_Z n / 32768)
    by (unfold Qlt, Qdiv, Qmult, Qinv, inject_Z; simpl; lia).
  assert (Hhi : inject_Z n / 32768 < 1)
    by (unfold Qlt, Qdiv, Qmult, Qinv, inject_Z; simpl; lia).
  unfold encodeSample. rewrite clamp_inside by assumption.
  destruct (Z.ltb_spec n (-16384)%Z) as [Hhalf | Hhalf].
  - destruct (scale_below_half (inject_Z n / 32768)) as [-> _].
    { split; [apply Qlt_le_weak, Hlo |].
      unfold Qlt, Qdiv, Qmult, Qinv, inject_Z; simpl; lia. }
    transitivity (Qceiling (inject_Z n));
      [apply Qceiling_comp, decoded_times_32768 | apply Qceiling_Z].
  - destruct (scale_mid (inject_Z n / 32768)) as [-> _].
    { split; [| apply Qlt_le_weak, Hhi].
      unfold Qle, Qdiv, Qmult, Qinv, inject_Z; simpl; lia. }
    destruct (Z.eqb_spec n 0%Z) as [-> | Hz]; [reflexivity |].
    destruct (Z.ltb_spec 0%Z n) as [Hpos | Hneg].
    + rewrite truncate_nonneg
        by (unfold Qle, Qdiv, Qmult, Qinv, inject_Z; simpl; lia).
      transitivity (Qfloor ((n * 32767) # 32768));
        [apply Qfloor_comp, decoded_times_32767 |].
      unfold Qfloor. symmetry.
      apply (Z.div_unique _ _ _ (32768 - n)%Z); lia.
    + rewrite truncate_nonpos
        by (unfold Qle, Qdiv, Qmult, Qinv, inject_Z; simpl; lia).
      transitivity (Qceiling ((n * 32767) # 32768));
        [apply Qceiling_comp, decoded_times_32767 |].
      unfold Qceiling, Qfloor, Qopp. cbn [Qnum Qden].
      assert (E : (- (n * 32767) / 32768 = - n - 1)%Z)
        by (symmetry; apply (Z.div_unique _ _ _ (32768 + n)%Z); lia).
      rewrite E. lia.
Qed.

(** X5.  Decoding a 16-bit sample and encoding it again does not give
    the sample back in general: samples below -16384 and the sample 0
    are kept, every other sample comes out one step closer to zero. *)
Theorem reencode_sample (n : Z) :
  (-32768 <= n <= 32767)%Z ->
  encodeSample (decodeSample [n] 0)
  = (if n <? -16384 then n
     else if n =? 0 then 0
          else if 0 <? n then n - 1 else n + 1)%Z.
Proof. exact (reencode_value n). Qed.

Lemma reencode_sample_witness :
  encodeSample (decodeSample [1000%Z] 0) = 999%Z
  /\ encodeSample (decodeSample [(-1000)%Z] 0) = (-999)%Z
  /\ encodeSample (decodeSample [(-20000)%Z] 0) = (-20000)%Z.
Proof.
  split; [| split].
  - apply (reencode_sample 1000). lia.
  - apply (reencode_sample (-1000)). lia.
  - apply (reencode_sample (-20000)). lia.
Defined.

End EncoderFacts.

Section DecoderFacts.
Import JS App.
Local Open Scope Q_scope.

Lemma wrap16_range z : (-32768 <= wrap 16 z <= 32767)%Z.
Proof.
  unfold wrap. change (2 ^ 16)%Z with 65536%Z. change (2 ^ (16 - 1))%Z with 32768%Z.
  pose proof (Z.mod_pos_bound z 65536 ltac:(lia)).
  destruct (Z.ltb_spec (z mod 65536) 32768); lia.
Qed.

Lemma int16s_range (data : list Z) :
  Forall (fun n => (-32768 <= n <= 32767)%Z) (int16s data).
Proof.
  enough (H : Forall (fun n => (-32768 <= n <= 32767)%Z) (int16s data)
              /\ forall b, Forall (fun n => (-32768 <= n <= 32767)%Z)
                                  (int16s (b :: data))) by apply H.
  induction data as [| a data [IH1 IH2]].
  - split; [constructor | intros b; constructor].
  - split; [apply IH2 |]. intros b. simpl. constructor; [apply wrap16_range | exact IH1].
Qed.

(** What a successful call of [decodeAudioData] has returned. *)
Lemma decodeAudioData_inv (data : list Z) (rate : Q) (numChannels : nat) b :
  (Z.of_nat (List.length data) < 2 ^ 33)%Z ->
  decodeAudioData data rate numChannels = Ok b ->
  let frames := (List.length data / 2 / numChannels)%nat in
  Nat.even (List.length data) = true
  /\ (1 <= numChannels <= 32)%nat
  /\ (1 <= frames)%nat
  /\ WebAudio.shaped frames numChannels b
  /\ WebAudio.sampleRate b = rate
  /\ forall channel i, (channel < numChannels)%nat -> (i < frames)%nat ->
       exists s, int16s data !! (i * numChannels + channel)%nat = Some s
                 /\ WebAudio.getSample b channel i = Fin (inject_Z s / 32768).
Proof.
  intros Hlen Hdec frames.
  set (FC := div (of_Z (Z.of_nat (List.length (int16s data))))
                 (of_Z (Z.of_nat numChannels))).
  assert (Hd : decodeAudioData data rate numChannels
               = if Nat.even (List.length data)
                 then match WebAudio.createBuffer numChannels FC rate with
                      | Ok buffer =>
                          Ok (fold_left
                                (fun buffer channel =>
                                   fold_left
                                     (fun buffer i =>
                                        WebAudio.setSample buffer channel i
                                          (decodeSample (int16s data)
                                             (i * numChannels + channel)))
                                     (indicesBelow FC) buffer)
                                (seq 0 numChannels) buffer)
                      | Throw e => Throw e
                      end
                 else Throw (HostError RangeError)).
  { unfold decodeAudioData, Int16Array.
    destruct (Nat.even (List.length data)); reflexivity. }
  rewrite Hd in Hdec. clear Hd.
  destruct (Nat.even (List.length data)) eqn:Heven; [| discriminate].
  destruct (WebAudio.createBuffer numChannels FC rate) as [b0 |] eqn:Eb;
    [| discriminate].
  injection Hdec as <-.
  assert (Hc : (1 <= numChannels <= 32)%nat).
  { unfold WebAudio.createBuffer in Eb.
    destruct (numChannels =? 0)%nat eqn:E1; [discriminate |].
    destruct (WebAudio.maxChannels <? numChannels)%nat eqn:E2; [discriminate |].
    apply Nat.eqb_neq in E1. apply Nat.ltb_ge in E2.
    unfold WebAudio.maxChannels in E2. lia. }
  assert (Hs : List.length (int16s data) = (List.length data / 2)%nat).
  { rewrite int16s_length. apply Nat.div2_div. }
  assert (Hframes : Z.to_nat (WebAudio.ToUint32 FC) = frames).
  { unfold FC. rewrite frameCount_Fin by lia. unfold WebAudio.ToUint32.
    rewrite truncate_quotient by lia. rewrite Hs. fold frames.
    rewrite Z.mod_small; [apply Nat2Z.id |].
    assert (frames <= List.length data / 2)%nat
      by (apply Nat.Div0.div_le_upper_bound; nia).
    assert (2 * (List.length data / 2) <= List.length data)%nat
      by (apply Nat.Div0.mul_div_le).
    change (2 ^ 33)%Z with 8589934592%Z in Hlen.
    change (2 ^ 32)%Z with 4294967296%Z. lia. }
  assert (Hpos : (1 <= frames)%nat).
  { unfold WebAudio.createBuffer in Eb. rewrite Hframes in Eb.
    destruct (frames =? 0)%nat eqn:E3;
      [rewrite !orb_true_r in Eb; discriminate |].
    apply Nat.eqb_neq in E3. lia. }
  apply createBuffer_shaped in Eb as [Hb0 Hr0]. rewrite Hframes in Hb0.
  split; [reflexivity |]. split; [exact Hc |]. split; [exact Hpos |].
  split; [apply channels_shaped, Hb0 |].
  split; [rewrite channels_rate; exact Hr0 |].
  intros channel i Hch Hi.
  assert (Hk : (i * numChannels + channel < List.length (int16s data))%nat).
  { rewrite Hs.
    assert (frames * numChannels <= List.length data / 2)%nat
      by (unfold frames; rewrite Nat.mul_comm; apply Nat.Div0.mul_div_le).
    nia. }
  destruct (lookup_lt_is_Some_2 _ _ Hk) as [s Es].
  exists s. split; [exact Es |].
  rewrite (channels_set
             (fun ch j => decodeSample (int16s data) (j * numChannels + ch))
             frames numChannels).
  - apply decodeSample_in_range, Es.
  - exact Hb0.
  - exact Hch.
  - exact Hi.
  - apply in_seq. lia.
  - unfold FC. rewrite frameCount_Fin by lia. unfold indicesBelow. apply in_seq.
    rewrite Hs.
    pose proof (ceiling_quotient (List.length data / 2) numChannels ltac:(lia)) as C.
    fold frames in C. lia.
Qed.

(** X6.  Every sample of a decoded buffer is a finite number of
    [-1, 1): the decoder writes neither [NaN] nor a value that the
    encoder would have to clamp. *)
Theorem decodeAudioData_normalized (data : list Z) (rate : Q) (numChannels : nat) b :
  (Z.of_nat (List.length data) < 2 ^ 33)%Z ->
  decodeAudioData data rate numChannels = Ok b ->
  forall channel i,
    (channel < WebAudio.numberOfChannels b)%nat -> (i < WebAudio.length b)%nat ->
    exists q, WebAudio.getSample b channel i = Fin q /\ -1 <= q < 1.
Proof.
  intros Hlen Hdec channel i Hch Hi.
  destruct (decodeAudioData_inv _ _ _ _ Hlen Hdec)
    as (_ & _ & _ & (Hl & Hn & _) & _ & Hsamples).
  rewrite Hn in Hch. rewrite Hl in Hi.
  destruct (Hsamples channel i Hch Hi) as (s & Hs & ->).
  eexists. split; [reflexivity |].
  pose proof (int16s_range data) as Hr. rewrite List.Forall_forall in Hr.
  assert (Hin : In s (int16s data))
    by (apply list_elem_of_In; eapply list_elem_of_lookup_2; exact Hs).
  specialize (Hr s Hin).
  assert (L : inject_Z (-32768) <= inject_Z s) by (rewrite <- Zle_Qle; lia).
  assert (U : inject_Z s <= inject_Z 32767) by (rewrite <- Zle_Qle; lia).
  change (inject_Z (-32768)) with (-32768) in L.
  change (inject_Z 32767) with 32767 in U.
  generalize dependent (inject_Z s). intros t L U.
  unfold Qdiv. change (/ 32768) with (1 # 32768). split; lra.
Qed.

Lemma decodeAudioData_normalized_witness :
  exists b, decodeAudioData [0; 128; 255; 127]%Z 24000 1 = Ok b
            /\ exists q, WebAudio.getSample b 0 0 = Fin q /\ -1 <= q < 1.
Proof.
  eexists. split; [reflexivity |].
  apply (decodeAudioData_normalized [0; 128; 255; 127]%Z 24000 1 _
           ltac:(reflexivity) eq_refl 0%nat 0%nat); vm_compute; lia.
Defined.

Lemma flat_map_seq_lookup {A B} (l : list A) (f : nat -> list B) (g : A -> list B)
      (k : nat) :
  (forall i a, l !! i = Some a -> f (k + i)%nat = g a) ->
  flat_map f (seq k (List.length l)) = flat_map g l.
Proof.
  revert k. induction l as [| a l IH]; intros k Hf; [reflexivity |].
  simpl. f_equal.
  - rewrite <- (Hf 0%nat a eq_refl). f_equal. lia.
  - apply IH. intros i a' Hi. rewrite <- (Hf (S i) a' Hi). f_equal. lia.
Qed.

Lemma flat_map_of_map {A B C} (h : A -> B) (g : B -> list C) (l : list A) :
  flat_map (fun a => g (h a)) l = flat_map g (List.map h l).
Proof. induction l as [| a l IH]; simpl; [reflexivity | rewrite IH; reflexivity]. Qed.

(** X7.  The preview path, [decodeAudioData] of a mono clip followed by
    [bufferToWav]: the file has 44 bytes more than the clip, and its
    payload read as 16-bit samples is the clip with every sample from
    -16384 upwards, 0 apart, moved one step toward zero. *)
Theorem decode_then_encode (data : list Z) b :
  (Z.of_nat (List.length data) < 2 ^ 33)%Z ->
  decodeAudioData data 24000 1 = Ok b ->
  List.length (bufferToWav b) = (44 + List.length data)%nat
  /\ Int16Array (skipn 44 (bufferToWav b))
     = Ok (List.map
             (fun n => if n <? -16384 then n
                       else if n =? 0 then 0
                            else if 0 <? n then n - 1 else n + 1)%Z
             (int16s data)).
Proof.
  intros Hlen Hdec.
  destruct (decodeAudioData_inv _ _ _ _ Hlen Hdec)
    as (Heven & _ & _ & (Hl & Hn & _) & _ & Hsamples).
  rewrite Nat.div_1_r in Hl, Hsamples.
  assert (Hs : List.length (int16s data) = (List.length data / 2)%nat).
  { rewrite int16s_length. apply Nat.div2_div. }
  assert (Hdata : List.length data = (2 * (List.length data / 2))%nat).
  { apply Nat.even_spec in Heven as [k Hk]. rewrite Hk.
    rewrite Nat.mul_comm, Nat.div_mul by lia. lia. }
  assert (Hpayload : payload b
                     = flat_map setInt16
                         (List.map (fun n => encodeSample (decodeSample [n] 0))
                                   (int16s data))).
  { unfold payload. rewrite Hn, Hl, <- Hs.
    rewrite <- flat_map_of_map.
    apply (flat_map_seq_lookup (int16s data) _ _ 0).
    intros i n Hi. cbn [Nat.add].
    change (seq 0 1) with [0%nat]. cbn [flat_map]. rewrite app_nil_r.
    assert (Hi' : (i < List.length data / 2)%nat).
    { rewrite <- Hs. apply lookup_lt_is_Some_1. eauto. }
    destruct (Hsamples 0%nat i ltac:(lia) Hi') as (s & Hs' & ->).
    rewrite Nat.mul_1_r, Nat.add_0_r, Hi in Hs'. injection Hs' as <-.
    reflexivity. }
  split.
  - unfold bufferToWav. rewrite !length_app, payload_length, Hn, Hl.
    unfold setUint32, setUint16. cbn [List.length].
    generalize dependent (List.length data / 2)%nat. intros. lia.
  - replace (skipn 44 (bufferToWav b)) with (payload b)
      by (unfold bufferToWav, setUint32, setUint16; reflexivity).
    rewrite Hpayload, Int16Array_flat_setInt16.
    + f_equal. apply map_ext_in. intros n Hin. apply reencode_value.
      pose proof (int16s_range data) as Hr. rewrite List.Forall_forall in Hr. auto.
    + apply List.Forall_forall. intros m Hm.
      apply in_map_iff in Hm as (n & <- & _). apply encodeSample_bounds.
Qed.

Lemma decode_then_encode_witness :
  exists b, decodeAudioData [232; 3; 24; 252; 224; 177; 0; 0]%Z 24000 1 = Ok b
            /\ List.length (bufferToWav b) = 52%nat
            /\ Int16Array (skipn 44 (bufferToWav b))
               = Ok [999; -999; -20000; 0]%Z.
Proof.
  eexists. split; [reflexivity |].
  apply (decode_then_encode [232; 3; 24; 252; 224; 177; 0; 0]%Z _
           ltac:(reflexivity) eq_refl).
Defined.

End DecoderFacts.

(* ================================================================== *)
(** * Further properties of the compositor                             *)
(* ================================================================== *)

Section CompositorFacts.
Import JS App.
Local Open Scope Q_scope.

Variable atob : jsstring -> result jsstring.
Variable render : WebAudio.OfflineAudioContext -> nat -> list number.

Lemma sequence_map_Ok {A B} (f : A -> result B) (l : list A) (l' : list B) :
  sequence (List.map f l) = Ok l' ->
  List.length l' = List.length l
  /\ forall a, In a l -> exists b, In b l' /\ f a = Ok b.
Proof.
  revert l'. induction l as [| a l IH]; intros l'; simpl.
  - intros [= <-]. split; [reflexivity | intros ? []].
  - destruct (f a) as [b |] eqn:Ea; [| discriminate]. cbn [bind].
    destruct (sequence (List.map f l)) as [l0 |]; [| discriminate]. cbn [bind].
    intros [= <-]. destruct (IH l0 eq_refl) as [Hlen Hin].
    split; [simpl; congruence |].
    intros a' [<- | Ha'].
    + exists b. split; [left; reflexivity | exact Ea].
    + destruct (Hin a' Ha') as (b' & Hb' & Hf). exists b'. split; [right |]; assumption.
Qed.

Lemma in_combine_snd {A B} (l1 : list A) (l2 : list B) (y : B) :
  List.length l1 = List.length l2 -> In y l2 -> exists x, In (x, y) (combine l1 l2).
Proof.
  revert l2. induction l1 as [| x l1 IH]; intros [| y' l2] Hlen Hy;
    simpl in *; try discriminate; try contradiction.
  destruct Hy as [-> | Hy].
  - exists x. left. reflexivity.
  - destruct (IH l2 ltac:(congruence) Hy) as [x' Hx']. exists x'. right. exact Hx'.
Qed.

Lemma startSources_Throw (ds : list (WebAudio.AudioBuffer * Q)) e :
  fold_left
    (fun c seg => let! c := c in WebAudio.startSource c (fst seg) (snd seg))
    ds (Throw e) = Throw e.
Proof. induction ds as [| d ds IH]; simpl; [reflexivity | exact IH]. Qed.

Lemma startSources_inv (ds : list (WebAudio.AudioBuffer * Q)) ctx ctx' :
  fold_left
    (fun c seg => let! c := c in WebAudio.startSource c (fst seg) (snd seg))
    ds (Ok ctx) = Ok ctx' ->
  Forall (fun seg => 0 <= snd seg) ds.
Proof.
  revert ctx. induction ds as [| d ds IH]; intros ctx; simpl; [constructor |].
  cbn [bind]. unfold WebAudio.startSource at 2.
  destruct (Qltb (snd d) 0) eqn:E.
  - rewrite startSources_Throw. discriminate.
  - intros H. constructor; [apply Qltb_ge, E | eapply IH, H].
Qed.

(** X8.  [stitchAudio] gives an asset only for a list that is not
    empty, whose segments all start at a time that is not negative and
    hold base64 text that [atob] accepts and that decodes to a whole,
    non-zero number of 16-bit samples. *)
Theorem stitchAudio_Ok_inv (segments : list Segment) (blob : Blob) :
  stitchAudio atob render segments = Ok blob ->
  segments <> []
  /\ Forall (fun seg => 0 <= startTime seg
                        /\ exists binary, atob (audioB64 seg) = Ok binary
                                          /\ Nat.even (List.length binary) = true
                                          /\ binary <> [])
            segments.
Proof.
  intros Hok. split; [intros ->; discriminate Hok |].
  unfold stitchAudio in Hok.
  destruct (decodeSegments atob segments) as [ds |] eqn:Hds; [| discriminate].
  cbn [bind] in Hok.
  destruct (renderSegments render ds) as [track |] eqn:Hr; [| discriminate].
  unfold decodeSegments in Hds.
  destruct (sequence (List.map _ segments)) as [audioBytes |] eqn:E1; [| discriminate].
  cbn [bind] in Hds.
  destruct (sequence (List.map _ audioBytes)) as [buffers |] eqn:E2; [| discriminate].
  cbn [bind] in Hds. injection Hds as <-.
  apply sequence_map_Ok in E1 as [L1 H1]. apply sequence_map_Ok in E2 as [L2 H2].
  assert (Hstart : Forall (fun seg => 0 <= snd seg)
                          (combine buffers (List.map startTime segments))).
  { unfold renderSegments in Hr.
    destruct (WebAudio.newOfflineAudioContext 1 _ 24000) as [ctx |]; [| discriminate].
    cbn [bind] in Hr.
    destruct (fold_left _ _ (Ok ctx)) as [ctx' |] eqn:Ef; [| discriminate].
    eapply startSources_inv, Ef. }
  rewrite List.Forall_forall in Hstart.
  apply List.Forall_forall. intros seg Hseg. split.
  - destruct (in_combine_snd buffers (List.map startTime segments) (startTime seg))
      as [b Hb].
    + rewrite length_map. congruence.
    + apply in_map. exact Hseg.
    + apply (Hstart _ Hb).
  - destruct (H1 seg Hseg) as (bytes & Hbytes & Hdecode).
    destruct (H2 bytes Hbytes) as (b & _ & Hb).
    unfold decode in Hdecode.
    destruct (atob (audioB64 seg)) as [binary |]; [| discriminate].
    cbn [bind] in Hdecode. injection Hdecode as <-.
    exists binary. split; [reflexivity |].
    unfold decodeAudioData, Int16Array in Hb. rewrite length_map in Hb.
    destruct (Nat.even (List.length binary)) eqn:Heven; [| discriminate].
    split; [reflexivity |]. intros ->. discriminate Hb.
Qed.

(** X9.  The size of the stitched asset: 44 header bytes and two bytes
    for each frame of the track.  The frames number
    [Math.ceil (M * 24000)], the product taken in double precision and
    the count reduced modulo 2^32 (and not 0), where [M] is the largest
    end time of the decoded segments, each the double-precision sum of a
    start time and a duration. *)
Theorem stitchAudio_size (segments : list Segment) ds (M : Q) :
  decodeSegments atob segments = Ok ds ->
  Forall (fun seg => 0 <= startTime seg) segments ->
  (exists seg, In seg ds /\ endTime seg = Fin M) ->
  (forall seg, In seg ds -> exists e, endTime seg = Fin e /\ e <= M) ->
  let frames := WebAudio.ToUint32 (Math_ceil (fmul (Fin M) (Fin 24000))) in
  frames <> 0%Z ->
  exists blob,
    stitchAudio atob render segments = Ok blob
    /\ Z.of_nat (List.length blob) = (44 + 2 * frames)%Z.
Proof.
  intros Hdec Hstart Hex Hub frames Hframes.
  destruct (stitchAudio_frameCount atob render segments ds M Hdec Hstart Hex Hub Hframes)
    as (track & Hs & Hl & Hn).
  fold frames in Hl. eexists. split; [exact Hs |].
  unfold bufferToWav. rewrite !length_app, payload_length, Hn.
  unfold setUint32, setUint16. cbn [List.length]. lia.
Qed.

End CompositorFacts.

Lemma stitchAudio_Ok_inv_witness :
  let segments := [ {| App.audioB64 := JS.lit "AQD/fw=="; App.startTime := 0 |};
                    {| App.audioB64 := JS.lit "AQD/fw=="; App.startTime := 1 # 24000 |} ] in
  segments <> []
  /\ Forall (fun seg => (0 <= App.startTime seg)%Q
                        /\ exists binary, Host.atob (App.audioB64 seg) = JS.Ok binary
                                          /\ Nat.even (List.length binary) = true
                                          /\ binary <> [])
            segments.
Proof.
  intros segments.
  destruct (App.stitchAudio Host.atob Host.render segments) as [blob |] eqn:E;
    [| vm_compute in E; discriminate E].
  exact (stitchAudio_Ok_inv Host.atob Host.render segments blob E).
Defined.

Lemma stitchAudio_size_witness :
  exists blob,
    App.stitchAudio Host.atob Host.render
      [ {| App.audioB64 := JS.lit "AQD/fw=="; App.startTime := 0 |};
        {| App.audioB64 := JS.lit "AQD/fw=="; App.startTime := 1 # 16384 |} ]
    = JS.Ok blob
    /\ Z.of_nat (List.length blob) = 52%Z.
Proof.
  set (M := (2663128579651753 # 18446744073709551616)%Q).
  assert (Hdec : exists ds,
             App.decodeSegments Host.atob
               [ {| App.audioB64 := JS.lit "AQD/fw=="; App.startTime := 0 |};
                 {| App.audioB64 := JS.lit "AQD/fw=="; App.startTime := 1 # 16384 |} ]
             = JS.Ok ds
             /\ (exists seg, In seg ds /\ App.endTime seg = JS.Fin M)
             /\ (forall seg, In seg ds ->
                             exists e, App.endTime seg = JS.Fin e /\ (e <= M)%Q)).
  { eexists. split; [vm_compute; reflexivity |]. split.
    - eexists. split; [right; left; reflexivity | vm_compute; reflexivity].
    - intros seg [<- | [<- | []]]; eexists;
        (split; [vm_compute; reflexivity | vm_compute; discriminate]). }
  destruct Hdec as (ds & Hdec & Hex & Hub).
  apply (stitchAudio_size Host.atob Host.render _ ds M Hdec).
  - repeat constructor; vm_compute; discriminate.
  - exact Hex.
  - exact Hub.
  - vm_compute. discriminate.
Defined.

(* ================================================================== *)
(** * Further properties of the synthesis handlers                     *)
(* ================================================================== *)

Section HandlerFacts.
Import JS App.

Variable atob : jsstring -> result jsstring.
Variable render : WebAudio.OfflineAudioContext -> nat -> list number.
Variable generateSpeech : jsstring -> property -> result (option jsstring).
Variable createObjectURL : Blob -> jsstring.
Variable hostMessage : errname -> jsstring.

(** X10.  A run of [handleGenerateDub] on a script that is not empty
    leaves the script, the custom dialog, the voices and the mute flags
    as they were, clears the loading flag and the translation error, and
    ends in exactly one of two ways: a dubbed-audio URL and no error, or
    an error message and no dubbed-audio URL. *)
Theorem handleGenerateDub_outcome (s : State) :
  timedScript s <> [] ->
  let s' := handleGenerateDub atob render generateSpeech createObjectURL hostMessage s in
  timedScript s' = timedScript s
  /\ customDialog s' = customDialog s
  /\ speakerVoiceMap s' = speakerVoiceMap s
  /\ mutedSegments s' = mutedSegments s
  /\ isLoading s' = false
  /\ translationError s' = None
  /\ ((error s' = None /\ exists url, dubbedAudioUrl s' = Some url)
      \/ (dubbedAudioUrl s' = None /\ exists message, error s' = Some message)).
Proof.
  intros Hne s'. subst s'. unfold handleGenerateDub.
  destruct (timedScript s) as [| c0 script] eqn:Escript; [contradiction |].
  cbn [List.length Nat.eqb]. rewrite <- Escript.
  destruct (generateDub _ _ _ _ _) as [url | err]; cbn.
  - repeat split; try reflexivity. left. split; [reflexivity | eauto].
  - repeat split; try reflexivity. right. split; [reflexivity | eauto].
Qed.

(** X11.  When every segment of a script is muted, the handler still
    reaches [stitchAudio], with no segment: the run ends with the host's
    message for [NotSupportedError] as the error and no dubbed audio. *)
Theorem handleGenerateDub_every_segment_muted (s : State) :
  timedScript s <> [] ->
  (forall index, (index < List.length (timedScript s))%nat -> muted s index = true) ->
  let s' := handleGenerateDub atob render generateSpeech createObjectURL hostMessage s in
  error s' = Some (hostMessage NotSupportedError) /\ dubbedAudioUrl s' = None.
Proof.
  intros Hne Hmuted.
  apply handleGenerateDub_all_muted; [exact Hne |].
  destruct (segmentsToGenerate s) as [| [i c] rest] eqn:E; [reflexivity |].
  assert (Hin : In (i, c) (segmentsToGenerate s)) by (rewrite E; left; reflexivity).
  apply segmentsToGenerate_In in Hin as [Hc Hm].
  rewrite Hmuted in Hm; [discriminate |].
  apply lookup_lt_is_Some_1. eauto.
Qed.

Lemma imap_shift {A B} (f : nat -> A -> B) (l : list A) :
  imap (f ∘ S) l = imap (fun i => f (S i)) l.
Proof. reflexivity. Qed.

Lemma indexed_filter (P : nat -> bool) (script : list TimedChunk) (k : nat) :
  List.map fst
    (List.filter (fun ic => P (fst ic))
                 (imap (fun index chunk => ((k + index)%nat, chunk)) script))
  = List.filter P (seq k (List.length script)).
Proof.
  revert k. induction script as [| c script IH]; intros k; [reflexivity |].
  cbn [imap List.length seq List.filter fst].
  rewrite Nat.add_0_r.
  assert (E : imap ((fun index chunk => ((k + index)%nat, chunk)) ∘ S) script
              = imap (fun index chunk => ((S k + index)%nat, chunk)) script).
  { apply imap_ext. intros i x _. simpl. f_equal. lia. }
  rewrite E. destruct (P k); cbn [List.map fst]; rewrite IH; reflexivity.
Qed.

(** X12.  The segments that are synthesized are the segments that are
    not muted, in script order, each with the index it has in the whole
    script: muting a segment does not shift the custom dialog or the
    start time of the segments after it. *)
Theorem segmentsToGenerate_indices (s : State) :
  List.map fst (segmentsToGenerate s)
  = List.filter (fun index => negb (muted s index))
                (seq 0 (List.length (timedScript s)))
  /\ forall index chunk, In (index, chunk) (segmentsToGenerate s) ->
                         timedScript s !! index = Some chunk.
Proof.
  split.
  - unfold segmentsToGenerate.
    exact (indexed_filter (fun index => negb (muted s index)) (timedScript s) 0).
  - intros index chunk Hin. apply segmentsToGenerate_In in Hin. tauto.
Qed.

(** X13.  Every run of [handlePreviewSegment] clears the segment
    loading flag, leaves the script, the maps, the loading flag and the
    dubbed-audio URL as they were, and ends either with an alert or a
    playing preview and no error, or with nothing played and an error
    message. *)
Theorem handlePreviewSegment_outcome (s : State) (index : nat) :
  let r := handlePreviewSegment atob generateSpeech createObjectURL hostMessage s index in
  isSegmentLoading (fst r) = None
  /\ timedScript (fst r) = timedScript s
  /\ customDialog (fst r) = customDialog s
  /\ speakerVoiceMap (fst r) = speakerVoiceMap s
  /\ mutedSegments (fst r) = mutedSegments s
  /\ isLoading (fst r) = isLoading s
  /\ dubbedAudioUrl (fst r) = dubbedAudioUrl s
  /\ match snd r with
     | NoEffect => exists message, error (fst r) = Some message
     | _ => error (fst r) = None
     end.
Proof.
  intros r. subst r. unfold handlePreviewSegment.
  destruct (previewRequest _ index) as [[message | request] | err]; cbn [bind].
  - cbn. repeat split.
  - destruct (previewAudio _ _ _ _) as [wavUrl | err]; cbn.
    + repeat split.
    + repeat split. eauto.
  - cbn. repeat split. eauto.
Qed.

(** X14.  Previewing a segment for whose speaker the voice test
    [!voiceId] holds (the lookup in [speakerVoiceMap] gave [undefined]
    or the empty string) sets no error: the handler alerts, naming the
    speaker, and returns, whatever the synthesis service would
    answer. *)
Theorem handlePreviewSegment_missing_voice (s : State) (index : nat) (chunk : TimedChunk) :
  timedScript s !! index = Some chunk ->
  voiceId s (speaker chunk) = None ->
  let r := handlePreviewSegment atob generateSpeech createObjectURL hostMessage s index in
  snd r = Alert (lit "Please assign a voice to " ++ speaker chunk ++ lit " first.")
  /\ error (fst r) = None
  /\ isSegmentLoading (fst r) = None.
Proof.
  intros Hc Hv r. subst r. unfold handlePreviewSegment, previewRequest.
  cbn [timedScript setError setIsSegmentLoading].
  rewrite Hc.
  change (voiceId (setError None (setIsSegmentLoading (Some index) s)) (speaker chunk))
    with (voiceId s (speaker chunk)).
  rewrite Hv. cbn. repeat split.
Qed.

End HandlerFacts.

Lemma handleGenerateDub_outcome_witness :
  let chunk := {| App.start := 0; App.end_ := 1;
                  App.text := JS.lit "Hello"; App.speaker := JS.lit "SPEAKER_01" |} in
  let s := {| App.timedScript := [chunk];
              App.customDialog := ∅;
              App.speakerVoiceMap := {[ JS.lit "SPEAKER_01" := JS.lit "Kore" ]};
              App.mutedSegments := ∅;
              App.isLoading := false; App.isSegmentLoading := None;
              App.error := Some (JS.lit "old"); App.translationError := None;
              App.dubbedAudioUrl := None |} in
  let s' := App.handleGenerateDub Host.atob Host.render Host.generateSpeech
              Host.createObjectURL Host.hostMessage s in
  App.dubbedAudioUrl s' = Some (JS.lit "blob:dubbed-audio")
  /\ App.isLoading s' = false
  /\ ((App.error s' = None /\ exists url, App.dubbedAudioUrl s' = Some url)
      \/ (App.dubbedAudioUrl s' = None /\ exists message, App.error s' = Some message)).
Proof.
  intros chunk s s'.
  destruct (handleGenerateDub_outcome Host.atob Host.render Host.generateSpeech
              Host.createObjectURL Host.hostMessage s ltac:(discriminate))
    as (_ & _ & _ & _ & Hload & _ & Hout).
  split; [vm_compute; reflexivity | split; [exact Hload | exact Hout]].
Defined.

Lemma handleGenerateDub_every_segment_muted_witness :
  let chunk := {| App.start := 0; App.end_ := 1;
                  App.text := JS.lit "Hello"; App.speaker := JS.lit "SPEAKER_01" |} in
  let s := {| App.timedScript := [chunk];
              App.customDialog := ∅;
              App.speakerVoiceMap := {[ JS.lit "SPEAKER_01" := JS.lit "Kore" ]};
              App.mutedSegments := {[ 0%nat := true ]};
              App.isLoading := false; App.isSegmentLoading := None;
              App.error := None; App.translationError := None;
              App.dubbedAudioUrl := None |} in
  let s' := App.handleGenerateDub Host.atob Host.render Host.generateSpeech
              Host.createObjectURL Host.hostMessage s in
  App.error s' = Some (JS.lit "NotSupportedError") /\ App.dubbedAudioUrl s' = None.
Proof.
  intros chunk s s'.
  apply (handleGenerateDub_every_segment_muted Host.atob Host.render
           Host.generateSpeech Host.createObjectURL Host.hostMessage s).
  - discriminate.
  - intros index Hi. simpl in Hi. assert (index = 0%nat) as -> by lia.
    vm_compute. reflexivity.
Defined.

Lemma handlePreviewSegment_missing_voice_witness :
  let chunk := {| App.start := 0; App.end_ := 1;
                  App.text := JS.lit "Hello"; App.speaker := JS.lit "SPEAKER_02" |} in
  let s := {| App.timedScript := [chunk];
              App.customDialog := ∅;
              App.speakerVoiceMap := {[ JS.lit "SPEAKER_01" := JS.lit "Kore" ]};
              App.mutedSegments := ∅;
              App.isLoading := false; App.isSegmentLoading := None;
              App.error := None; App.translationError := None;
              App.dubbedAudioUrl := None |} in
  let r := App.handlePreviewSegment Host.atob Host.generateSpeech
             Host.createObjectURL Host.hostMessage s 0 in
  snd r = App.Alert (JS.lit "Please assign a voice to SPEAKER_02 first.")
  /\ App.error (fst r) = None
  /\ App.isSegmentLoading (fst r) = None.
Proof.
  intros chunk s r.
  apply (handlePreviewSegment_missing_voice Host.atob Host.generateSpeech
           Host.createObjectURL Host.hostMessage s 0 chunk).
  - reflexivity.
  - vm_compute. reflexivity.
Defined.

(* ================================================================== *)
(** * Properties of the editing handlers and of the translation effect *)
(* ================================================================== *)

Section EditingFacts.
Import JS App Studio.

Lemma muted_toggle (s : State) (index j : nat) :
  muted (handleMuteToggle index s) j
  = if (j =? index)%nat then negb (muted s j) else muted s j.
Proof.
  unfold muted at 1, handleMuteToggle. cbn [mutedSegments setMutedSegments].
  destruct (Nat.eqb_spec j index) as [-> | Hne].
  - rewrite lookup_insert_eq. reflexivity.
  - rewrite lookup_insert_ne by congruence. reflexivity.
Qed.

(** X15.  [handleMuteToggle] flips the mute flag of its segment and of
    no other; toggling twice gives back the same flags, hence the same
    segments to synthesize. *)
Theorem handleMuteToggle_flips (s : State) (index : nat) :
  (forall j, muted (handleMuteToggle index s) j
             = if (j =? index)%nat then negb (muted s j) else muted s j)
  /\ (forall j, muted (handleMuteToggle index (handleMuteToggle index s)) j
                = muted s j)
  /\ segmentsToGenerate (handleMuteToggle index (handleMuteToggle index s))
     = segmentsToGenerate s.
Proof.
  assert (H2 : forall j, muted (handleMuteToggle index (handleMuteToggle index s)) j
                         = muted s j).
  { intros j. rewrite !muted_toggle.
    destruct (j =? index)%nat; [apply negb_involutive | reflexivity]. }
  split; [apply muted_toggle | split; [exact H2 |]].
  unfold segmentsToGenerate. cbn [timedScript handleMuteToggle setMutedSegments].
  apply filter_ext. intros [i c]. cbn [fst]. f_equal. apply H2.
Qed.

(** X16.  After [handleDialogChange (index, newText)] the text taken
    for segment [index] is [newText], unless [newText] is empty, in
    which case it is the transcript text again; the text taken for any
    other segment, the voices and the mute flags are unchanged. *)
Theorem handleDialogChange_text (s : State) (index : nat) (newText : jsstring) :
  (forall j chunk,
      textToGenerate (handleDialogChange index newText s) j chunk
      = if (j =? index)%nat
        then (if truthy newText then newText else text chunk)
        else textToGenerate s j chunk)
  /\ (forall speakerId, voiceId (handleDialogChange index newText s) speakerId
                        = voiceId s speakerId)
  /\ (forall j, muted (handleDialogChange index newText s) j = muted s j)
  /\ timedScript (handleDialogChange index newText s) = timedScript s.
Proof.
  split; [| repeat split].
  intros j chunk. unfold textToGenerate, handleDialogChange.
  cbn [customDialog setCustomDialog].
  destruct (Nat.eqb_spec j index) as [-> | Hne].
  - rewrite lookup_insert_eq. reflexivity.
  - rewrite lookup_insert_ne by congruence. reflexivity.
Qed.

Lemma voiceId_change (s : State) (speakerId voice sp : jsstring) :
  voiceId (handleVoiceForSpeakerChange speakerId voice s) sp
  = if bool_decide (sp = speakerId)
    then (if truthy voice then Some (Own voice) else None)
    else voiceId s sp.
Proof.
  unfold voiceId, handleVoiceForSpeakerChange.
  cbn [speakerVoiceMap setSpeakerVoiceMap].
  case_bool_decide as Hsp.
  - subst sp. rewrite lookup_insert_eq. reflexivity.
  - rewrite lookup_insert_ne by congruence. reflexivity.
Qed.

(** X17.  After [handleVoiceForSpeakerChange (speakerId, voice)] with a
    voice that is not the empty string, every segment of that speaker
    passes the voice check of [handleGenerateDub] and is requested with
    that voice and with the text it had; the voice of every other
    speaker is unchanged. *)
Theorem handleVoiceForSpeakerChange_applies (s : State) (speakerId voice : jsstring) :
  voice <> [] ->
  (forall index chunk,
      speaker chunk = speakerId ->
      dubRequest (handleVoiceForSpeakerChange speakerId voice s) index chunk
      = Ok {| req_text := finalText (textToGenerate s index chunk);
              req_voice := Own voice |})
  /\ (forall sp, sp <> speakerId ->
                 voiceId (handleVoiceForSpeakerChange speakerId voice s) sp
                 = voiceId s sp).
Proof.
  intros Hv. split.
  - intros index chunk Hsp. unfold dubRequest. rewrite voiceId_change, Hsp.
    rewrite bool_decide_eq_true_2 by reflexivity.
    destruct voice; [contradiction | reflexivity].
  - intros sp Hsp. rewrite voiceId_change.
    rewrite bool_decide_eq_false_2 by exact Hsp. reflexivity.
Qed.

(** X18.  [handleSpeakerChange] on a segment of the script replaces the
    speaker of that segment and nothing else: texts, times, the other
    speakers, the custom dialog and the mute flags stay; past the end of
    the script it raises [TypeError]. *)
Theorem handleSpeakerChange_only_speaker (s : State) (index : nat) (newSpeakerId : jsstring) :
  match timedScript s !! index with
  | None => handleSpeakerChange index newSpeakerId s = Throw (HostError TypeError)
  | Some chunk =>
      exists s',
        handleSpeakerChange index newSpeakerId s = Ok s'
        /\ timedScript s' !! index
           = Some {| start := start chunk; end_ := end_ chunk; text := text chunk;
                     speaker := newSpeakerId |}
        /\ (forall j, j <> index -> timedScript s' !! j = timedScript s !! j)
        /\ List.length (timedScript s') = List.length (timedScript s)
        /\ customDialog s' = customDialog s
        /\ mutedSegments s' = mutedSegments s
        /\ speakerVoiceMap s' = speakerVoiceMap s
  end.
Proof.
  unfold handleSpeakerChange.
  destruct (timedScript s !! index) as [chunk |] eqn:E; [| reflexivity].
  eexists. split; [reflexivity |]. cbn [timedScript setTimedScript].
  split; [rewrite list_lookup_alter_eq, E; reflexivity |].
  split; [intros j Hj; apply list_lookup_alter_ne; congruence |].
  split; [apply length_alter |]. repeat split.
Qed.

End EditingFacts.

Lemma handleVoiceForSpeakerChange_applies_witness :
  let chunk := {| App.start := 0; App.end_ := 1;
                  App.text := JS.lit "Hello"; App.speaker := JS.lit "SPEAKER_02" |} in
  let s := {| App.timedScript := [chunk];
              App.customDialog := ∅;
              App.speakerVoiceMap := ∅;
              App.mutedSegments := ∅;
              App.isLoading := false; App.isSegmentLoading := None;
              App.error := None; App.translationError := None;
              App.dubbedAudioUrl := None |} in
  App.dubRequest
    (Studio.handleVoiceForSpeakerChange (JS.lit "SPEAKER_02") (JS.lit "Puck") s) 0 chunk
  = JS.Ok {| App.req_text := JS.lit "Hello";
             App.req_voice := JS.Own (JS.lit "Puck") |}.
Proof.
  intros chunk s.
  apply (proj1 (handleVoiceForSpeakerChange_applies s (JS.lit "SPEAKER_02")
                  (JS.lit "Puck") ltac:(discriminate)) 0%nat chunk eq_refl).
Defined.

Section SpeakerFacts.
Import JS App Studio.

(** ** The order of strings and the sorted list of speakers *)

Lemma ltb_asym (a b : jsstring) : Str.ltb a b = true -> Str.ltb b a = false.
Proof.
  revert b. induction a as [| x a IH]; intros [| y b]; simpl; try congruence.
  destruct (N.ltb_spec x y) as [Hxy | Hxy]; destruct (N.ltb_spec y x) as [Hyx | Hyx];
    try congruence; try lia.
  apply IH.
Qed.

Lemma ltb_irrefl (a : jsstring) : Str.ltb a a = false.
Proof.
  induction a as [| x a IH]; simpl; [reflexivity |].
  rewrite N.ltb_irrefl. exact IH.
Qed.

Lemma ltb_total (a b : jsstring) :
  Str.ltb a b = false -> Str.ltb b a = false -> a = b.
Proof.
  revert b. induction a as [| x a IH]; intros [| y b]; simpl; try congruence.
  destruct (N.ltb_spec x y) as [Hxy | Hxy]; destruct (N.ltb_spec y x) as [Hyx | Hyx];
    try congruence; try lia.
  intros H1 H2. f_equal; [lia | apply IH; assumption].
Qed.

Lemma ltb_cons (x y : N) (a b : jsstring) :
  Str.ltb (x :: a) (y :: b) = true <-> (x < y)%N \/ (x = y /\ Str.ltb a b = true).
Proof.
  simpl. destruct (N.ltb_spec x y) as [Hxy | Hxy].
  - split; [left; exact Hxy | reflexivity].
  - destruct (N.ltb_spec y x) as [Hyx | Hyx].
    + split; [discriminate | intros [H | [H _]]; lia].
    + assert (x = y) by lia. subst. split; [right; split; [reflexivity | assumption] |].
      intros [H | [_ H]]; [lia | exact H].
Qed.

Lemma ltb_trans (a b c : jsstring) :
  Str.ltb a b = true -> Str.ltb b c = true -> Str.ltb a c = true.
Proof.
  revert b c. induction a as [| x a IH]; intros [| y b] [| z c]; try (simpl; congruence).
  rewrite !ltb_cons. intros [H1 | [-> H1]] [H2 | [-> H2]].
  - left. lia.
  - left. exact H1.
  - left. exact H2.
  - right. split; [reflexivity | eapply IH; eassumption].
Qed.

Lemma insertSorted_In (x y : jsstring) (l : list jsstring) :
  In y (Str.insertSorted x l) <-> y = x \/ In y l.
Proof.
  induction l as [| z l IH]; simpl; [intuition congruence |].
  destruct (Str.ltb z x); simpl; [rewrite IH |]; intuition congruence.
Qed.

Lemma sort_In (y : jsstring) (l : list jsstring) : In y (Str.sort l) <-> In y l.
Proof.
  induction l as [| x l IH]; simpl; [tauto |].
  rewrite insertSorted_In, IH. intuition congruence.
Qed.

Lemma insertSorted_NoDup (x : jsstring) (l : list jsstring) :
  ~ In x l -> List.NoDup l -> List.NoDup (Str.insertSorted x l).
Proof.
  induction l as [| z l IH]; intros Hx Hl; simpl.
  - constructor; [intros [] | constructor].
  - inversion Hl as [| ? ? Hz Hl']; subst. destruct (Str.ltb z x).
    + constructor.
      * rewrite insertSorted_In. intros [-> | Hin]; [apply Hx; left; reflexivity | auto].
      * apply IH; [intros H; apply Hx; right; exact H | exact Hl'].
    + constructor; [exact Hx | exact Hl].
Qed.

Lemma sort_NoDup (l : list jsstring) : List.NoDup l -> List.NoDup (Str.sort l).
Proof.
  induction 1 as [| x l Hx Hl IH]; simpl; [constructor |].
  apply insertSorted_NoDup; [rewrite sort_In; exact Hx | exact IH].
Qed.

(** [a] comes before [b], or is [b]. *)
Let before (a b : jsstring) : Prop := Str.ltb b a = false.

Lemma insertSorted_Sorted (x : jsstring) (l : list jsstring) :
  Sorted before l -> Sorted before (Str.insertSorted x l).
Proof.
  induction l as [| z l IH]; intros Hl; simpl.
  - repeat constructor.
  - inversion Hl as [| ? ? Hl' Hhd]; subst.
    destruct (Str.ltb z x) eqn:E.
    + constructor; [apply IH, Hl' |].
      destruct l as [| w l]; simpl.
      * constructor. apply ltb_asym, E.
      * destruct (Str.ltb w x); constructor.
        -- inversion Hhd; assumption.
        -- apply ltb_asym, E.
    + constructor; [exact Hl |]. constructor. exact E.
Qed.

Lemma sort_Sorted (l : list jsstring) : Sorted before (Str.sort l).
Proof.
  induction l as [| x l IH]; simpl; [constructor | apply insertSorted_Sorted, IH].
Qed.

Lemma unique_In (y : jsstring) (l : list jsstring) : In y (Str.unique l) <-> In y l.
Proof.
  induction l as [| x l IH]; simpl; [tauto |].
  rewrite filter_In, IH, negb_true_iff, bool_decide_eq_false.
  destruct (decide (y = x)) as [-> | Hne]; intuition congruence.
Qed.

Lemma unique_NoDup (l : list jsstring) : List.NoDup (Str.unique l).
Proof.
  induction l as [| x l IH]; simpl; constructor.
  - rewrite filter_In, negb_true_iff, bool_decide_eq_false. tauto.
  - apply List.NoDup_filter, IH.
Qed.

Lemma speakersOf_In (script : list TimedChunk) (sp : jsstring) :
  In sp (speakersOf script) <-> exists chunk, In chunk script /\ speaker chunk = sp.
Proof.
  unfold speakersOf. rewrite sort_In, unique_In, in_map_iff.
  split; intros (c & H1 & H2); eauto.
Qed.

Lemma speakersOf_NoDup (script : list TimedChunk) : List.NoDup (speakersOf script).
Proof. apply sort_NoDup, unique_NoDup. Qed.

(** X19.  [uniqueSpeakers] lists exactly the speakers of the script,
    each once, in ascending order of their code units. *)
Theorem uniqueSpeakers_sorted_set (s : State) :
  (forall sp, In sp (uniqueSpeakers s)
              <-> exists chunk, In chunk (timedScript s) /\ speaker chunk = sp)
  /\ List.NoDup (uniqueSpeakers s)
  /\ Sorted (fun a b => Str.ltb b a = false) (uniqueSpeakers s)
  /\ forall i j a b, (i < j)%nat -> uniqueSpeakers s !! i = Some a ->
                     uniqueSpeakers s !! j = Some b -> Str.ltb a b = true.
Proof.
  split; [intros sp; apply speakersOf_In |].
  split; [apply speakersOf_NoDup |].
  split; [apply sort_Sorted |].
  intros i j a b Hij Ha Hb.
  pose proof (sort_Sorted (Str.unique (List.map speaker (timedScript s)))) as HS.
  apply Sorted_StronglySorted in HS.
  - fold (speakersOf (timedScript s)) in HS. fold (uniqueSpeakers s) in HS.
    pose proof (speakersOf_NoDup (timedScript s)) as HN. fold (uniqueSpeakers s) in HN.
    revert i j Hij Ha Hb HN.
    induction HS as [| x l _ IH Hall]; intros i j Hij Ha Hb HN; [destruct i; discriminate |].
    inversion HN as [| ? ? Hx HN']; subst.
    destruct j as [| j]; [lia |]. destruct i as [| i].
    + injection Ha as ->. simpl in Hb.
      assert (Hin : In b l) by (apply list_elem_of_In; eapply list_elem_of_lookup_2; exact Hb).
      rewrite List.Forall_forall in Hall. specialize (Hall b Hin). unfold before in Hall.
      destruct (Str.ltb a b) eqn:E; [reflexivity |].
      exfalso. apply Hx. rewrite (ltb_total a b E Hall). exact Hin.
    + simpl in Ha, Hb. apply (IH i j); [lia | assumption | assumption | assumption].
  - intros a1 a2 a3 H12 H23. unfold before in *.
    destruct (Str.ltb a3 a1) eqn:E; [| reflexivity].
    exfalso. destruct (Str.ltb a1 a2) eqn:E12.
    + pose proof (ltb_trans _ _ _ E E12). congruence.
    + pose proof (ltb_total _ _ E12 H12). subst. congruence.
Qed.

End SpeakerFacts.

Section TranslationFacts.
Import JS App Studio.

Variable transcribeAndTranslate :
  GeminiService.File -> property -> result (list TimedChunk).
Variable hostMessage : errname -> jsstring.

Lemma initialDialog_fold (l : list TimedChunk) (k : nat) (acc : gmap nat jsstring)
      (j : nat) :
  fold_left (fun acc ic => <[fst ic := text (snd ic)]> acc)
            (imap (fun index chunk => ((k + index)%nat, chunk)) l) acc !! j
  = if decide (k <= j < k + List.length l)%nat
    then text <$> l !! (j - k)%nat
    else acc !! j.
Proof.
  revert k acc. induction l as [| c l IH]; intros k acc.
  - simpl. case_decide; [lia | reflexivity].
  - cbn [imap fold_left fst snd List.length].
    assert (E : imap ((fun index chunk => ((k + index)%nat, chunk)) ∘ S) l
                = imap (fun index chunk => ((S k + index)%nat, chunk)) l).
    { apply imap_ext. intros i x _. simpl. f_equal. lia. }
    rewrite E, IH, Nat.add_0_r.
    destruct (decide (j = k)) as [-> | Hjk].
    + rewrite decide_False by lia. rewrite decide_True by lia.
      rewrite lookup_insert_eq, Nat.sub_diag. reflexivity.
    + case_decide as H1; case_decide as H2; try lia.
      * replace (j - k)%nat with (S (j - S k)) by lia. reflexivity.
      * rewrite lookup_insert_ne by congruence. reflexivity.
Qed.

Lemma initialDialog_lookup (script : list TimedChunk) (index : nat) :
  initialDialog script !! index = text <$> script !! index.
Proof.
  unfold initialDialog.
  rewrite (initialDialog_fold script 0 ∅ index). simpl.
  rewrite Nat.sub_0_r. case_decide as H; [reflexivity |].
  rewrite lookup_empty. symmetry.
  rewrite (lookup_ge_None_2 script index) by lia. reflexivity.
Qed.

Lemma assignable_spec (key : jsstring) :
  assignable key = true <-> key <> lit "__proto__".
Proof.
  unfold assignable. case_bool_decide as H; simpl; split; congruence.
Qed.

Lemma initialVoiceMap_keep (l : list jsstring) (k : nat) (acc : gmap jsstring jsstring)
      (sp : jsstring) :
  ~ In sp l \/ assignable sp = false ->
  fold_left (fun acc entry =>
               if assignable (snd entry)
               then <[snd entry := voiceAt (fst entry)]> acc
               else acc)
            (imap (fun index speakerId => ((k + index)%nat, speakerId)) l) acc !! sp
  = acc !! sp.
Proof.
  revert k acc. induction l as [| x l IH]; intros k acc Hsp; [reflexivity |].
  cbn [imap fold_left fst snd].
  assert (E : imap ((fun index speakerId => ((k + index)%nat, speakerId)) ∘ S) l
              = imap (fun index speakerId => ((S k + index)%nat, speakerId)) l).
  { apply imap_ext. intros i y _. simpl. f_equal. lia. }
  rewrite E, IH by (destruct Hsp as [Hsp | Hsp]; [left; intros H; apply Hsp; right; exact H
                                                  | right; exact Hsp]).
  destruct (assignable x) eqn:Ax; [| reflexivity].
  apply lookup_insert_ne. intros ->.
  destruct Hsp as [Hsp | Hsp]; [apply Hsp; left; reflexivity | congruence].
Qed.

Lemma initialVoiceMap_fold (l : list jsstring) (k : nat) (acc : gmap jsstring jsstring)
      (i : nat) (sp : jsstring) :
  List.NoDup l -> l !! i = Some sp -> assignable sp = true ->
  fold_left (fun acc entry =>
               if assignable (snd entry)
               then <[snd entry := voiceAt (fst entry)]> acc
               else acc)
            (imap (fun index speakerId => ((k + index)%nat, speakerId)) l) acc !! sp
  = Some (voiceAt (k + i)).
Proof.
  revert k acc i. induction l as [| x l IH]; intros k acc i Hnd Hi Ha; [discriminate |].
  inversion Hnd as [| ? ? Hx Hnd']; subst.
  cbn [imap fold_left fst snd].
  assert (E : imap ((fun index speakerId => ((k + index)%nat, speakerId)) ∘ S) l
              = imap (fun index speakerId => ((S k + index)%nat, speakerId)) l).
  { apply imap_ext. intros j y _. simpl. f_equal. lia. }
  rewrite E. destruct i as [| i].
  - injection Hi as ->. rewrite Ha. rewrite initialVoiceMap_keep by (left; exact Hx).
    apply lookup_insert_eq.
  - simpl in Hi. rewrite (IH (S k) _ i Hnd' Hi Ha). f_equal. f_equal. lia.
Qed.

(** The voice map built by the effect: a speaker gets the voice of its
    position, except [__proto__], which gets no entry. *)
Lemma initialVoiceMap_lookup (speakers : list jsstring) (i : nat) (sp : jsstring) :
  List.NoDup speakers -> speakers !! i = Some sp -> sp <> lit "__proto__" ->
  initialVoiceMap speakers !! sp = Some (voiceAt i).
Proof.
  intros Hnd Hi Hsp. unfold initialVoiceMap.
  exact (initialVoiceMap_fold speakers 0 ∅ i sp Hnd Hi (proj2 (assignable_spec sp) Hsp)).
Qed.

Lemma initialVoiceMap_proto (speakers : list jsstring) :
  initialVoiceMap speakers !! lit "__proto__" = None.
Proof.
  unfold initialVoiceMap.
  exact (initialVoiceMap_keep speakers 0 ∅ (lit "__proto__") (or_intror eq_refl)).
Qed.

Lemma voiceAt_voice (i : nat) :
  In (voiceAt i) (List.map id VOICES) /\ voiceAt i <> [].
Proof.
  unfold voiceAt. change (List.length VOICES) with 5%nat.
  pose proof (Nat.mod_upper_bound i 5 ltac:(lia)) as H.
  destruct (i mod 5)%nat as [| [| [| [| [| n]]]]]; try lia;
    (split; [simpl; tauto | discriminate]).
Qed.

(** X20.  After a translation that succeeded the studio is ready for
    generation: the script is the one received, no segment is muted, no
    error is shown, the translating flag is cleared, and every segment
    passes the voice check and is requested with its own text (or "."
    when that is blank).  The voice requested is one of the five voices,
    except for a speaker named [__proto__]: it got no voice, and its
    segments are requested with the value every object inherits under
    that name.  The dubbed-audio URL of an earlier run is still there. *)
Theorem autoTranslate_ready (st : Studio) (file : GeminiService.File)
        (script : list TimedChunk) :
  sourceFile st = Some file ->
  transcribeAndTranslate file (langName (targetLanguage st)) = Ok script ->
  let st' := autoTranslate transcribeAndTranslate hostMessage st in
  timedScript (synthesis st') = script
  /\ isTranslating st' = false
  /\ error (synthesis st') = None
  /\ translationError (synthesis st') = None
  /\ (forall index, muted (synthesis st') index = false)
  /\ dubbedAudioUrl (synthesis st') = dubbedAudioUrl (synthesis st)
  /\ forall index chunk,
       script !! index = Some chunk ->
       exists voice,
         dubRequest (synthesis st') index chunk
         = Ok {| req_text := finalText (text chunk); req_voice := voice |}
         /\ (speaker chunk <> lit "__proto__" ->
             exists name, In name (List.map id VOICES) /\ voice = Own name)
         /\ (speaker chunk = lit "__proto__" -> voice = Inherited (lit "__proto__")).
Proof.
  intros Hfile Hok st'. subst st'. unfold autoTranslate. rewrite Hfile, Hok.
  cbn [synthesis isTranslating].
  split; [reflexivity |]. split; [reflexivity |]. split; [reflexivity |].
  split; [reflexivity |]. split; [intros index; reflexivity |].
  split; [reflexivity |].
  intros index chunk Hc.
  assert (Hin : In (speaker chunk) (speakersOf script)).
  { apply speakersOf_In. exists chunk. split; [| reflexivity].
    apply list_elem_of_In. eapply list_elem_of_lookup_2. exact Hc. }
  apply list_elem_of_In, list_elem_of_lookup_1 in Hin as [i Hi].
  unfold dubRequest, voiceId, textToGenerate.
  cbn [speakerVoiceMap customDialog setSpeakerVoiceMap setCustomDialog setTimedScript].
  rewrite initialDialog_lookup, Hc. cbn [fmap option_fmap option_map].
  assert (Ht : (if truthy (text chunk) then text chunk else text chunk) = text chunk)
    by (destruct (truthy (text chunk)); reflexivity).
  rewrite Ht.
  destruct (decide (speaker chunk = lit "__proto__")) as [Hp | Hp].
  - rewrite Hp, initialVoiceMap_proto.
    exists (Inherited (lit "__proto__")).
    split; [reflexivity |]. split; [intros H; contradiction | reflexivity].
  - rewrite (initialVoiceMap_lookup _ _ _ (speakersOf_NoDup script) Hi Hp).
    destruct (voiceAt_voice i) as [Hvoice Hne].
    exists (Own (voiceAt i)). cbn [get].
    destruct (voiceAt i) eqn:Ev; [contradiction |]. cbn [truthy].
    split; [reflexivity |]. split; [intros _; eauto | intros H; contradiction].
Qed.

(** X21.  The voices are dealt out in the order of the sorted speakers
    and start again after the fifth: the speaker at position [i] gets
    [VOICES[i % 5].id], unless it is named [__proto__], which gets no
    entry; so up to five speakers get five different entries, and the
    sixth shares the voice of the first. *)
Theorem autoTranslate_voices (st : Studio) (file : GeminiService.File)
        (script : list TimedChunk) :
  sourceFile st = Some file ->
  transcribeAndTranslate file (langName (targetLanguage st)) = Ok script ->
  let s' := synthesis (autoTranslate transcribeAndTranslate hostMessage st) in
  (forall i sp,
      uniqueSpeakers s' !! i = Some sp -> sp <> lit "__proto__" ->
      (id <$> VOICES !! (i mod 5)%nat) = speakerVoiceMap s' !! sp)
  /\ speakerVoiceMap s' !! lit "__proto__" = None
  /\ (forall i j a b,
         (i < j < 5)%nat ->
         uniqueSpeakers s' !! i = Some a -> uniqueSpeakers s' !! j = Some b ->
         speakerVoiceMap s' !! a <> speakerVoiceMap s' !! b)
  /\ (forall a b,
         uniqueSpeakers s' !! 0%nat = Some a -> uniqueSpeakers s' !! 5%nat = Some b ->
         a <> lit "__proto__" -> b <> lit "__proto__" ->
         speakerVoiceMap s' !! a = speakerVoiceMap s' !! b).
Proof.
  intros Hfile Hok s'. subst s'. unfold autoTranslate. rewrite Hfile, Hok.
  cbn [synthesis]. unfold uniqueSpeakers.
  cbn [timedScript speakerVoiceMap setSpeakerVoiceMap setCustomDialog setTimedScript].
  assert (L : forall i sp, speakersOf script !! i = Some sp -> sp <> lit "__proto__" ->
                           initialVoiceMap (speakersOf script) !! sp = Some (voiceAt i))
    by (intros i sp; apply initialVoiceMap_lookup, speakersOf_NoDup).
  split; [| split; [apply initialVoiceMap_proto | split]].
  - intros i sp Hi Hsp. rewrite (L i sp Hi Hsp). unfold voiceAt.
    change (List.length VOICES) with 5%nat.
    pose proof (Nat.mod_upper_bound i 5 ltac:(lia)) as H.
    destruct (i mod 5)%nat as [| [| [| [| [| n]]]]]; try lia; reflexivity.
  - intros i j a b Hij Ha Hb.
    assert (Hab : a <> b).
    { intros ->. pose proof (speakersOf_NoDup script) as Hnd.
      apply NoDup_ListNoDup in Hnd.
      pose proof (NoDup_lookup _ _ _ _ Hnd Ha Hb). lia. }
    destruct (decide (a = lit "__proto__")) as [Pa | Pa];
      destruct (decide (b = lit "__proto__")) as [Pb | Pb].
    + congruence.
    + rewrite Pa, initialVoiceMap_proto, (L j b Hb Pb). discriminate.
    + rewrite Pb, initialVoiceMap_proto, (L i a Ha Pa). discriminate.
    + rewrite (L i a Ha Pa), (L j b Hb Pb).
      destruct i as [| [| [| [| [| i]]]]]; destruct j as [| [| [| [| [| j]]]]];
        try lia; discriminate.
  - intros a b Ha Hb Pa Pb. rewrite (L _ a Ha Pa), (L _ b Hb Pb). reflexivity.
Qed.

(** X22.  A translation that fails leaves no script: the previous
    script, custom dialog, voices and mute flags are gone, the message
    of the failure is the translation error, the translating flag is
    cleared, and a run of [handleGenerateDub] on that state stops at its
    first test and sets the error that asks for a script. *)
Theorem autoTranslate_failure (st : Studio) (file : GeminiService.File) (err : exn)
        atob render generateSpeech createObjectURL :
  sourceFile st = Some file ->
  transcribeAndTranslate file (langName (targetLanguage st)) = Throw err ->
  let st' := autoTranslate transcribeAndTranslate hostMessage st in
  timedScript (synthesis st') = []
  /\ customDialog (synthesis st') = ∅
  /\ speakerVoiceMap (synthesis st') = ∅
  /\ mutedSegments (synthesis st') = ∅
  /\ translationError (synthesis st') = Some (translationErrorMessage hostMessage err)
  /\ isTranslating st' = false
  /\ error (handleGenerateDub atob render generateSpeech createObjectURL hostMessage
              (synthesis st'))
     = Some (lit "Please provide a script to generate the dubbing.").
Proof.
  intros Hfile Hfail st'. subst st'. unfold autoTranslate. rewrite Hfile, Hfail.
  repeat split.
Qed.

End TranslationFacts.

Lemma autoTranslate_ready_witness :
  let first := {| App.start := 0; App.end_ := 1;
                  App.text := JS.lit "Hello"; App.speaker := JS.lit "SPEAKER_02" |} in
  let second := {| App.start := 1; App.end_ := 2;
                   App.text := JS.lit " "; App.speaker := JS.lit "SPEAKER_01" |} in
  let st := {| Studio.synthesis :=
                 {| App.timedScript := []; App.customDialog := ∅;
                    App.speakerVoiceMap := ∅; App.mutedSegments := ∅;
                    App.isLoading := false; App.isSegmentLoading := None;
                    App.error := None; App.translationError := None;
                    App.dubbedAudioUrl := None |};
               Studio.isTranslating := false;
               Studio.sourceFile :=
                 Some {| GeminiService.file_type := JS.lit "video/mp4";
                         GeminiService.file_bytes := [] |};
               Studio.targetLanguage := JS.lit "en" |} in
  let st' := Studio.autoTranslate (fun _ _ => JS.Ok [first; second])
               Host.hostMessage st in
  (exists name,
      In name (List.map Studio.id Studio.VOICES)
      /\ App.dubRequest (Studio.synthesis st') 0 first
         = JS.Ok {| App.req_text := JS.lit "Hello"; App.req_voice := JS.Own name |})
  /\ (exists name,
         In name (List.map Studio.id Studio.VOICES)
         /\ App.dubRequest (Studio.synthesis st') 1 second
            = JS.Ok {| App.req_text := JS.lit "."; App.req_voice := JS.Own name |}).
Proof.
  intros first second st st'.
  destruct (autoTranslate_ready (fun _ _ => JS.Ok [first; second]) Host.hostMessage
              st _ [first; second] eq_refl eq_refl)
    as (_ & _ & _ & _ & _ & _ & H).
  split.
  - destruct (H 0%nat first eq_refl) as (voice & Hreq & Hown & _).
    destruct (Hown ltac:(discriminate)) as (name & Hin & ->). eauto.
  - destruct (H 1%nat second eq_refl) as (voice & Hreq & Hown & _).
    destruct (Hown ltac:(discriminate)) as (name & Hin & ->). eauto.
Defined.

Lemma autoTranslate_voices_witness :
  let chunk sp := {| App.start := 0; App.end_ := 1;
                     App.text := JS.lit "Hello"; App.speaker := JS.lit sp |} in
  let st := {| Studio.synthesis :=
                 {| App.timedScript := []; App.customDialog := ∅;
                    App.speakerVoiceMap := ∅; App.mutedSegments := ∅;
                    App.isLoading := false; App.isSegmentLoading := None;
                    App.error := None; App.translationError := None;
                    App.dubbedAudioUrl := None |};
               Studio.isTranslating := false;
               Studio.sourceFile :=
                 Some {| GeminiService.file_type := JS.lit "video/mp4";
                         GeminiService.file_bytes := [] |};
               Studio.targetLanguage := JS.lit "en" |} in
  let s' := Studio.synthesis
              (Studio.autoTranslate
                 (fun _ _ => JS.Ok [chunk "B"%string; chunk "A"%string])
                 Host.hostMessage st) in
  Some (JS.lit "Kore") = App.speakerVoiceMap s' !! JS.lit "A"
  /\ Some (JS.lit "Puck") = App.speakerVoiceMap s' !! JS.lit "B".
Proof.
  intros chunk st s'.
  destruct (autoTranslate_voices
              (fun _ _ => JS.Ok [chunk "B"%string; chunk "A"%string])
              Host.hostMessage st _ _ eq_refl eq_refl) as (H & _ & _).
  split.
  - apply (H 0%nat (JS.lit "A")); [vm_compute; reflexivity | discriminate].
  - apply (H 1%nat (JS.lit "B")); [vm_compute; reflexivity | discriminate].
Defined.

Lemma autoTranslate_failure_witness :
  let st := {| Studio.synthesis :=
                 {| App.timedScript :=
                      [ {| App.start := 0; App.end_ := 1; App.text := JS.lit "Hello";
                           App.speaker := JS.lit "SPEAKER_01" |} ];
                    App.customDialog := {[ 0%nat := JS.lit "Hi" ]};
                    App.speakerVoiceMap := {[ JS.lit "SPEAKER_01" := JS.lit "Kore" ]};
                    App.mutedSegments := ∅;
                    App.isLoading := false; App.isSegmentLoading := None;
                    App.error := None; App.translationError := None;
                    App.dubbedAudioUrl := None |};
               Studio.isTranslating := true;
               Studio.sourceFile :=
                 Some {| GeminiService.file_type := JS.lit "video/mp4";
                         GeminiService.file_bytes := [] |};
               Studio.targetLanguage := JS.lit "fr" |} in
  let st' := Studio.autoTranslate (fun _ _ => JS.Throw (JS.Error (JS.lit "quota")))
               Host.hostMessage st in
  App.timedScript (Studio.synthesis st') = []
  /\ App.translationError (Studio.synthesis st') = Some (JS.lit "quota").
Proof.
  intros st st'.
  destruct (autoTranslate_failure
              (fun _ _ => JS.Throw (JS.Error (JS.lit "quota"))) Host.hostMessage
              st _ (JS.Error (JS.lit "quota"))
              Host.atob Host.render Host.generateSpeech Host.createObjectURL
              eq_refl eq_refl) as (H1 & _ & _ & _ & H5 & _).
  split; [exact H1 | exact H5].
Defined.

(* ================================================================== *)
(** * Properties of the service                                        *)
(* ================================================================== *)

Section ServiceFacts.
Import JS GeminiService.

Variable readAsDataURL : File -> result jsstring.
Variable speechData : jsstring -> property -> result (option jsstring).

Lemma trimStart_space (ws l : jsstring) :
  forallb isWhiteSpace ws = true -> trimStart (ws ++ l) = trimStart l.
Proof.
  induction ws as [| c ws IH]; simpl; [reflexivity |].
  destruct (isWhiteSpace c); [exact IH | discriminate].
Qed.

Lemma forallb_rev_space (ws : jsstring) :
  forallb isWhiteSpace ws = true -> forallb isWhiteSpace (rev ws) = true.
Proof.
  induction ws as [| c ws IH]; simpl; [reflexivity |].
  intros H. apply andb_true_iff in H as [Hc Hws].
  rewrite forallb_app, IH by exact Hws. simpl. rewrite Hc. reflexivity.
Qed.

Lemma startsWith_app (prefix rest : jsstring) : Str.startsWith prefix (prefix ++ rest) = true.
Proof.
  induction prefix as [| c prefix IH]; simpl; [reflexivity |].
  rewrite N.eqb_refl. exact IH.
Qed.

(** X23.  A fenced answer is unwrapped: for any body, the text made of
    the opening fence, the body and three backquotes, with white space
    around it, is cleaned to the body alone. *)
Theorem jsonText_fenced (before body after : jsstring) :
  forallb isWhiteSpace before = true ->
  forallb isWhiteSpace after = true ->
  jsonText (before ++ fence ++ body ++ fenceEnd ++ after) = body.
Proof.
  intros Hb Ha. unfold jsonText.
  assert (Htrim : trim (before ++ fence ++ body ++ fenceEnd ++ after)
                  = fence ++ body ++ fenceEnd).
  { unfold trim. rewrite trimStart_space by exact Hb.
    change (trimStart (fence ++ body ++ fenceEnd ++ after))
      with (fence ++ body ++ fenceEnd ++ after).
    replace (fence ++ body ++ fenceEnd ++ after)
      with ((fence ++ body ++ fenceEnd) ++ after) by (rewrite <- !app_assoc; reflexivity).
    rewrite rev_app_distr, trimStart_space by (apply forallb_rev_space, Ha).
    rewrite !rev_app_distr.
    change (trimStart ((rev fenceEnd ++ rev body) ++ rev fence))
      with ((rev fenceEnd ++ rev body) ++ rev fence).
    rewrite <- !rev_app_distr, rev_involutive. reflexivity. }
  rewrite Htrim, startsWith_app.
  change (Str.substringFrom 7 (fence ++ body ++ fenceEnd)) with (body ++ fenceEnd).
  unfold Str.endsWith. rewrite rev_app_distr, startsWith_app.
  unfold Str.substringTo. rewrite length_app.
  change (List.length fenceEnd) with 3%nat.
  replace (List.length body + 3 - 3)%nat with (List.length body + 0)%nat by lia.
  rewrite firstn_app_2. simpl. apply app_nil_r.
Qed.

Lemma jsonText_fenced_witness :
  jsonText (lit " ```json[]``` ") = lit "[]".
Proof.
  apply (jsonText_fenced (lit " ") (lit "[]") (lit " ")); reflexivity.
Defined.

Lemma split_none (sep : N) (l : jsstring) :
  ~ In sep l -> Str.split sep l = [l].
Proof.
  induction l as [| c l IH]; intros H; simpl; [reflexivity |].
  destruct (N.eqb_spec c sep) as [-> | Hne]; [exfalso; apply H; left; reflexivity |].
  rewrite IH by (intros Hin; apply H; right; exact Hin). reflexivity.
Qed.

Lemma split_first (sep : N) (h rest : jsstring) :
  ~ In sep h -> Str.split sep (h ++ sep :: rest) = h :: Str.split sep rest.
Proof.
  induction h as [| c h IH]; intros H; simpl.
  - rewrite N.eqb_refl. reflexivity.
  - destruct (N.eqb_spec c sep) as [-> | Hne]; [exfalso; apply H; left; reflexivity |].
    rewrite IH by (intros Hin; apply H; right; exact Hin). reflexivity.
Qed.

(** X24.  [fileToBase64] on a data URL whose header and payload hold no
    comma returns the payload, the part after the comma, and rejects
    with its own error when that part is empty. *)
Theorem fileToBase64_payload (file : File) (header payload : jsstring) :
  readAsDataURL file = Ok (header ++ comma :: payload) ->
  ~ In comma header -> ~ In comma payload ->
  fileToBase64 readAsDataURL file
  = match payload with
    | [] => Throw (Error (lit "Failed to read Base64 from file."))
    | _ => Ok payload
    end.
Proof.
  intros Hread Hh Hp. unfold fileToBase64. rewrite Hread. cbn [bind].
  rewrite split_first by exact Hh. rewrite split_none by exact Hp.
  destruct payload; reflexivity.
Qed.

(** X25.  With [generateSpeech] of the service as the synthesis call,
    the callback of [handleGenerateDub] gets a segment exactly when the
    model answered with inline data that is not empty; the segment
    carries that data and the start time of the chunk. *)
Theorem synthesize_with_service (chunk : App.TimedChunk) (r : App.SpeechRequest)
        (segment : App.Segment) :
  App.synthesize (generateSpeech speechData) chunk r = Ok segment
  <-> speechData (App.req_text r) (App.req_voice r) = Ok (Some (App.audioB64 segment))
      /\ App.audioB64 segment <> []
      /\ App.startTime segment = App.start chunk.
Proof.
  unfold App.synthesize, generateSpeech.
  destruct (speechData (App.req_text r) (App.req_voice r)) as [[[| c audio] |] | e];
    cbn [bind truthy].
  - split; [discriminate | intros (H & Hne & _)].
    injection H as H. exfalso. apply Hne. symmetry. exact H.
  - split.
    + intros [= <-]. simpl. repeat split. discriminate.
    + intros (H & _ & Hs). injection H as H. destruct segment as [a t].
      simpl in *. subst. reflexivity.
  - split; [discriminate | intros (H & _); discriminate H].
  - split; [discriminate | intros (H & _); discriminate H].
Qed.

End ServiceFacts.

Lemma fileToBase64_payload_witness :
  GeminiService.fileToBase64 (fun _ => JS.Ok (JS.lit "data:audio/wav;base64,UklGRg=="))
    {| GeminiService.file_type := JS.lit "audio/wav"; GeminiService.file_bytes := [] |}
  = JS.Ok (JS.lit "UklGRg==").
Proof.
  apply (fileToBase64_payload (fun _ => JS.Ok (JS.lit "data:audio/wav;base64,UklGRg=="))
           {| GeminiService.file_type := JS.lit "audio/wav"; GeminiService.file_bytes := [] |}
           (JS.lit "data:audio/wav;base64") (JS.lit "UklGRg==")).
  - reflexivity.
  - vm_compute. intuition discriminate.
  - vm_compute. intuition discriminate.
Defined.

(* ================================================================== *)
(** * Further properties of the sync controller                        *)
(* ================================================================== *)

Section SyncFacts.
Import JS DubbedVideoPlayer Runs.
Local Open Scope Q_scope.

(** X26.  After a check made while the video plays, the audio position
    is within 0.25 s + 2^-55 s of the video position, whatever the drift
    was before (a drift up to that bound is rounded to 0.25 s and is not
    corrected); the check does not pause or resume the audio. *)
Theorem syncLoop_bounds_drift (p : Player) (video audio : MediaElement) :
  videoRef p = Some video -> audioRef p = Some audio -> paused video = false ->
  exists audio',
    audioRef (syncLoop p) = Some audio'
    /\ Qabs (currentTime video - currentTime audio')
       <= (1 # 4) + (1 # 36028797018963968)
    /\ paused audio' = paused audio.
Proof.
  intros Hv Ha Hp. unfold syncLoop. rewrite Hv, Ha, Hp. simpl negb. cbv iota.
  destruct (drifted (currentTime video) (currentTime audio)) eqn:E.
  - eexists. split; [reflexivity |]. split; [| reflexivity].
    cbn [currentTime setCurrentTime].
    assert (H : currentTime video - currentTime video == 0) by ring.
    rewrite H. discriminate.
  - exists audio. split; [simpl; exact Ha |]. split; [| reflexivity].
    apply drifted_false, E.
Qed.

Lemma syncLoop_bounds_drift_witness :
  exists audio',
    audioRef (syncLoop
                (setTransports {| currentTime := 10; paused := false |}
                               {| currentTime := 4; paused := false |}
                   (mounted {| currentTime := 0; paused := true |}
                            {| currentTime := 0; paused := true |})))
    = Some audio'
    /\ Qabs (10 - currentTime audio') <= (1 # 4) + (1 # 36028797018963968)
    /\ paused audio' = false.
Proof.
  match goal with
  | |- exists a, audioRef (syncLoop ?p) = _ /\ _ =>
      exact (syncLoop_bounds_drift p {| currentTime := 10; paused := false |}
               {| currentTime := 4; paused := false |} eq_refl eq_refl eq_refl)
  end.
Defined.

Lemma cancelPending_idle (p : Player) :
  scheduled p = [] -> scheduled (cancelPending p) = [].
Proof.
  intros H. unfold cancelPending.
  destruct (animationFrameId p) as [[| h] |]; simpl; rewrite ?H; reflexivity.
Qed.

(** X27.  Only a [play] event starts the loop: when no check is
    scheduled, no sequence of pause, ended and seeked events, transport
    changes and unmounting schedules one. *)
Theorem idle_until_play (p p' : Player) (events : list event) :
  steps p events p' ->
  scheduled p = [] ->
  ~ In Play events ->
  scheduled p' = [].
Proof.
  induction 1 as [p | p e p1 es p2 Hstep _ IH]; intros Hidle Hplay; [exact Hidle |].
  apply IH; [| intros H; apply Hplay; right; exact H].
  destruct Hstep; simpl.
  - exfalso. apply Hplay. left. reflexivity.
  - unfold handlePauseOrEnd. destruct (audioRef p); [| exact Hidle].
    apply cancelPending_idle. exact Hidle.
  - unfold handlePauseOrEnd. destruct (audioRef p); [| exact Hidle].
    apply cancelPending_idle. exact Hidle.
  - unfold handleSeeked. destruct (videoRef p), (audioRef p); exact Hidle.
  - rewrite Hidle in H. destruct H.
  - exact Hidle.
  - exact Hidle.
  - apply cancelPending_idle. exact Hidle.
Qed.

Lemma idle_until_play_witness :
  let p := mounted {| currentTime := 0; paused := true |}
                   {| currentTime := 0; paused := true |} in
  scheduled (cleanup (handleSeeked (handlePauseOrEnd p))) = [].
Proof.
  intros p.
  apply (idle_until_play p _ [Pause; Seeked; Unmount]).
  - eapply steps_cons; [apply step_pause; reflexivity |].
    eapply steps_cons; [apply step_seeked; reflexivity |].
    eapply steps_cons; [apply step_unmount; reflexivity |].
    apply steps_nil.
  - reflexivity.
  - simpl. intuition discriminate.
Defined.

(** X28.  A frame callback of a reachable player that finds both
    elements attached keeps the loop going exactly when the video is not
    paused: it then leaves one scheduled check, the one it has just
    requested; if the video is paused it leaves none. *)
Theorem runFrame_reschedules (p : Player) (h : nat) (video audio : MediaElement) :
  reachable p -> In h (scheduled p) ->
  videoRef p = Some video -> audioRef p = Some audio ->
  scheduled (runFrame h p) = if paused video then [] else [nextHandle p].
Proof.
  intros Hr Hin Hv Ha.
  destruct (reachable_invariant p Hr) as (Hs & _ & _).
  assert (Hc : scheduled (cancelAnimationFrame h p) = []).
  { destruct Hs as [Hs | (h' & _ & Hs)]; [rewrite Hs in Hin; destruct Hin |].
    rewrite Hs in Hin. destruct Hin as [<- | []].
    simpl. rewrite Hs. simpl. rewrite Nat.eqb_refl. reflexivity. }
  unfold runFrame, syncLoop.
  cbn [videoRef audioRef cancelAnimationFrame]. rewrite Hv, Ha.
  destruct (paused video); simpl negb; cbv iota; [exact Hc |].
  destruct (drifted _ _); simpl; simpl in Hc; rewrite Hc; reflexivity.
Qed.

Lemma runFrame_reschedules_witness :
  let video := {| currentTime := 0; paused := false |} in
  let audio := {| currentTime := 0; paused := true |} in
  scheduled (runFrame 1 (handlePlay (mounted video audio))) = [2%nat].
Proof.
  intros video audio.
  apply (runFrame_reschedules (handlePlay (mounted video audio)) 1 video
           {| currentTime := 0; paused := false |}).
  - eapply reachable_step; [apply reachable_mounted | apply step_play; reflexivity].
  - left. reflexivity.
  - reflexivity.
  - reflexivity.
Defined.

End SyncFacts.
